(** * DBEngine storage engine: slotted pages, disk manager, buffer pool

    A shallow embedding of [src/storage_engine/page.h],
    [src/storage_engine/diskmanager.{h,cpp}] and
    [src/storage_engine/bufferpool.{h,cpp}], followed by the properties
    of the engine's specification that are stated about them.

    Conventions of the embedding.
    - A C++ [int] is a [Z] together with the conversion [to_int] that
      reduces a mathematical result to 32 bits in two's complement;
      [long] and [size_t] are the 64-bit analogues (LP64 data model).
      Every arithmetic result the source stores in an [int] goes
      through [to_int].
    - [char] buffers are [list byte]; [memcpy]/[memmove] are list
      surgery on them.
    - [std::vector] is a [list], [std::unordered_map<int,int>] a
      [gmap Z Z].
    - Mutating member functions return the new object next to their
      C++ result. *)

From Stdlib Require Import ZArith Lia List Bool.
From stdpp Require Import base list gmap.
From coqutil Require Import Byte Word.LittleEndianList.

Local Open Scope Z_scope.

(** ** Machine integers *)

Definition INT_MIN : Z := -2147483648.
Definition INT_MAX : Z := 2147483647.

(** Two's complement reduction of [z] to [bits] bits. *)
Definition wrap_signed (bits : Z) (z : Z) : Z :=
  (z + 2 ^ (bits - 1)) mod 2 ^ bits - 2 ^ (bits - 1).

(** Value of a mathematical result once stored in an [int]. *)
Definition to_int (z : Z) : Z := wrap_signed 32 z.

(** Value of a mathematical result once stored in a [long]. *)
Definition to_long (z : Z) : Z := wrap_signed 64 z.

(** Conversion to [size_t] (unsigned, 64 bits). *)
Definition to_size_t (z : Z) : Z := z mod 2 ^ 64.

Definition is_int (z : Z) : Prop := INT_MIN <= z <= INT_MAX.
Definition is_long (z : Z) : Prop := - 2 ^ 63 <= z < 2 ^ 63.

(** ** Raw memory *)

(** [memcpy(dst + at, src, n)] on a buffer [dst]: the [n] bytes from
    [at] on are replaced by the first [n] bytes of [src].  A copy that
    runs past the end of either buffer, or whose count or position is
    negative, is undefined in C++; the list operations truncate
    there. *)
Definition memcpy (dst : list byte) (at_ : Z) (src : list byte) (n : Z)
  : list byte :=
  take (Z.to_nat at_) dst ++ take (Z.to_nat n) src
    ++ drop (Z.to_nat (at_ + n)) dst.

(** [memmove(buf + to, buf + from, n)]: as [memcpy], reading from a
    snapshot of the same buffer, so overlapping ranges are fine. *)
Definition memmove (buf : list byte) (to_ from : Z) (n : Z) : list byte :=
  memcpy buf to_ (drop (Z.to_nat from) buf) n.

(** The [n] bytes of [buf] from offset [at] on. *)
Definition bytes_at (buf : list byte) (at_ : Z) (n : Z) : list byte :=
  take (Z.to_nat n) (drop (Z.to_nat at_) buf).

Definition encode_bool (b : bool) : byte :=
  if b then Byte.x01 else Byte.x00.

Definition decode_bool (bs : list byte) : bool :=
  match bs with
  | b :: _ => negb (Byte.eqb b Byte.x00)
  | [] => false
  end.

(** [#define PAGE_SIZE 4096] *)
Definition PAGE_SIZE : Z := 4096.

(** ** Slot *)

Module Slot.

(** [struct Slot { int offset; int length; bool isValid; }] *)
Record t : Type := mk {
  offset : Z;
  length : Z;
  isValid : bool
}.

(** [sizeof(Slot)]: two [int]s, one [bool], padded to the alignment
    of [int]. *)
Definition sizeof : Z := 12.

(** Object representation, as [memcpy] of a [Slot] sees it (little
    endian).  The three padding bytes after [isValid] are
    indeterminate in the source ([Slot newSlot] of [insertRecord] is
    not initialised); they are written as zero here, and [of_bytes]
    does not read them. *)
Definition to_bytes (s : t) : list byte :=
  le_split 4 (offset s) ++ le_split 4 (length s)
    ++ [encode_bool (isValid s)] ++ [Byte.x00; Byte.x00; Byte.x00].

Definition of_bytes (bs : list byte) : t :=
  {| offset := to_int (le_combine (bytes_at bs 0 4));
     length := to_int (le_combine (bytes_at bs 4 4));
     isValid := decode_bool (bytes_at bs 8 1) |}.

(** [slotDirectory[i].offset -= recordLength] *)
Definition sub_offset (recordLength : Z) (s : t) : t :=
  {| offset := to_int (offset s - recordLength);
     length := length s;
     isValid := isValid s |}.

End Slot.

(** ** PageHeader *)

Module PageHeader.

(** [struct PageHeader { int pageId; bool dirty; long lsn;
    int freeSpaceOffset; int numberOfSlots; }] *)
Record t : Type := mk {
  pageId : Z;
  dirty : bool;
  lsn : Z;
  freeSpaceOffset : Z;
  numberOfSlots : Z
}.

(** [sizeof(PageHeader)]: [pageId] at 0, [dirty] at 4, [lsn] at 8
    (aligned to 8), [freeSpaceOffset] at 16, [numberOfSlots] at 20. *)
Definition sizeof : Z := 24.

(** Object representation of the header; the padding bytes 5 to 7
    are indeterminate in the source, written as zero here, and not
    read by [of_bytes]. *)
Definition to_bytes (h : t) : list byte :=
  le_split 4 (pageId h)
    ++ [encode_bool (dirty h)] ++ [Byte.x00; Byte.x00; Byte.x00]
    ++ le_split 8 (lsn h)
    ++ le_split 4 (freeSpaceOffset h)
    ++ le_split 4 (numberOfSlots h).

Definition of_bytes (bs : list byte) : t :=
  {| pageId := to_int (le_combine (bytes_at bs 0 4));
     dirty := decode_bool (bytes_at bs 4 1);
     lsn := to_long (le_combine (bytes_at bs 8 8));
     freeSpaceOffset := to_int (le_combine (bytes_at bs 16 4));
     numberOfSlots := to_int (le_combine (bytes_at bs 20 4)) |}.

End PageHeader.

(** ** Page *)

Module Page.

Import PageHeader.

(** [struct Page]: the private header, the data area
    [char data[PAGE_SIZE - sizeof(PageHeader)]] and the in-memory
    slot directory. *)
Record t : Type := mk {
  header : PageHeader.t;
  data : list byte;
  slotDirectory : list Slot.t
}.

(** [sizeof(data)] *)
Definition dataAreaSize : Z := PAGE_SIZE - PageHeader.sizeof.

Definition with_header (p : t) (h : PageHeader.t) : t :=
  {| header := h; data := data p; slotDirectory := slotDirectory p |}.

(** [Page::Page()] *)
Definition new : t :=
  {| header := {| pageId := -1; dirty := false; lsn := 0;
                  freeSpaceOffset := 0; numberOfSlots := 0 |};
     data := repeat Byte.x00 (Z.to_nat dataAreaSize);
     slotDirectory := [] |}.

(** [Page::clear()] resets every member to its constructed value. *)
Definition clear (p : t) : t := new.

Definition getPageId (p : t) : Z := pageId (header p).

Definition setPageId (p : t) (id : Z) : t :=
  with_header p
    {| pageId := id; dirty := dirty (header p); lsn := lsn (header p);
       freeSpaceOffset := freeSpaceOffset (header p);
       numberOfSlots := numberOfSlots (header p) |}.

Definition isDirty (p : t) : bool := dirty (header p).

Definition makeDirty (p : t) : t :=
  with_header p
    {| pageId := pageId (header p); dirty := true; lsn := lsn (header p);
       freeSpaceOffset := freeSpaceOffset (header p);
       numberOfSlots := numberOfSlots (header p) |}.

Definition getLSN (p : t) : Z := lsn (header p).

Definition setLSN (p : t) (l : Z) : t :=
  with_header p
    {| pageId := pageId (header p); dirty := dirty (header p); lsn := l;
       freeSpaceOffset := freeSpaceOffset (header p);
       numberOfSlots := numberOfSlots (header p) |}.

(** [Page::getFreeSpace].  [numberOfSlots * sizeof(Slot)] and the
    subtraction from [dataAreaSize] are [size_t] arithmetic, stored
    into an [int]; the last subtraction is [int] arithmetic. *)
Definition getFreeSpace (p : t) : Z :=
  let dataAreaSize := to_int (PAGE_SIZE - PageHeader.sizeof) in
  let slotDirStart :=
    to_int (to_size_t (to_size_t dataAreaSize
              - to_size_t (to_size_t (numberOfSlots (header p))
                            * Slot.sizeof))) in
  to_int (slotDirStart - freeSpaceOffset (header p)).

(** [Page::insertRecord(record, length)]: the new page and the
    returned slot id ([-1] when the space check fails).
    [length + sizeof(Slot)] is [size_t] arithmetic stored into the
    [int requiredSpace]. *)
Definition insertRecord (p : t) (record : list byte) (length : Z)
  : t * Z :=
  let requiredSpace :=
    to_int (to_size_t (to_size_t length + Slot.sizeof)) in
  if getFreeSpace p <? requiredSpace then (p, -1)
  else
    let h := header p in
    let data' := memcpy (data p) (freeSpaceOffset h) record length in
    let newSlot :=
      {| Slot.offset := freeSpaceOffset h;
         Slot.length := length;
         Slot.isValid := true |} in
    let slotDirectory' := slotDirectory p ++ [newSlot] in
    let numberOfSlots' := to_int (numberOfSlots h + 1) in
    let freeSpaceOffset' := to_int (freeSpaceOffset h + length) in
    ({| header := {| pageId := pageId h; dirty := true; lsn := lsn h;
                     freeSpaceOffset := freeSpaceOffset';
                     numberOfSlots := numberOfSlots' |};
        data := data';
        slotDirectory := slotDirectory' |},
     to_int (numberOfSlots' - 1)).

(** [slotDirectory[slotId]] for an [int] index; an index outside the
    vector is undefined in the source and [None] here. *)
Definition slot_at (dir : list Slot.t) (slotId : Z) : option Slot.t :=
  if slotId <? 0 then None else dir !! Z.to_nat slotId.

(** [Page::getRecord(slotId, recordBuffer)]: the returned length
    ([-1] on error) and the bytes copied to the start of
    [recordBuffer]. *)
Definition getRecord (p : t) (slotId : Z) : Z * list byte :=
  if (slotId <? 0) || (numberOfSlots (header p) <=? slotId) then (-1, [])
  else
    match slot_at (slotDirectory p) slotId with
    | None => (-1, [])
    | Some slot =>
        if negb (Slot.isValid slot) then (-1, [])
        else (Slot.length slot,
              bytes_at (data p) (Slot.offset slot) (Slot.length slot))
    end.

(** The loop [for (i = from; i < to; ++i) slotDirectory[i].offset -=
    recordLength], with its trip count as the recursion argument. *)
Fixpoint shift_offsets (trips : nat) (i : nat) (recordLength : Z)
    (dir : list Slot.t) : list Slot.t :=
  match trips with
  | O => dir
  | S trips' =>
      shift_offsets trips' (S i) recordLength
        (alter (Slot.sub_offset recordLength) i dir)
  end.

(** [Page::deleteRecord(slotId)]. *)
Definition deleteRecord (p : t) (slotId : Z) : t * bool :=
  let h := header p in
  if (slotId <? 0) || (numberOfSlots h <=? slotId) then (p, false)
  else
    match slot_at (slotDirectory p) slotId with
    | None => (p, false)
    | Some slotToDelete =>
        if negb (Slot.isValid slotToDelete) then (p, false)
        else
          let recordOffset := Slot.offset slotToDelete in
          let recordLength := Slot.length slotToDelete in
          let freeSpaceEnd := freeSpaceOffset h in
          let bytesAfter :=
            to_int (freeSpaceEnd - to_int (recordOffset + recordLength)) in
          let data' :=
            if 0 <? bytesAfter
            then memmove (data p) recordOffset
                   (recordOffset + recordLength) bytesAfter
            else data p in
          let freeSpaceOffset' := to_int (freeSpaceOffset h - recordLength) in
          let erased := delete (Z.to_nat slotId) (slotDirectory p) in
          let numberOfSlots' := to_int (numberOfSlots h - 1) in
          let slotDirectory' :=
            shift_offsets (Z.to_nat (numberOfSlots' - slotId))
              (Z.to_nat slotId) recordLength erased in
          ({| header := {| pageId := pageId h; dirty := true; lsn := lsn h;
                           freeSpaceOffset := freeSpaceOffset';
                           numberOfSlots := numberOfSlots' |};
              data := data';
              slotDirectory := slotDirectory' |}, true)
    end.

(** The bytes of [slotDirectory.data()]: the slots' object
    representations, slot 0 first. *)
Definition directory_bytes (dir : list Slot.t) : list byte :=
  concat (map Slot.to_bytes dir).

(** [n] consecutive slots read from raw bytes. *)
Fixpoint directory_of_bytes (n : nat) (bs : list byte) : list Slot.t :=
  match n with
  | O => []
  | S n' =>
      Slot.of_bytes (take 12 bs) :: directory_of_bytes n' (drop 12 bs)
  end.

(** [Page::serialize(buffer)]: the buffer after the three copies. *)
Definition serialize (p : t) (buffer : list byte) : list byte :=
  let h := header p in
  let buffer1 :=
    memcpy buffer 0 (PageHeader.to_bytes h) PageHeader.sizeof in
  let buffer2 :=
    memcpy buffer1 PageHeader.sizeof (data p) (freeSpaceOffset h) in
  let dataAreaSize := to_int (PAGE_SIZE - PageHeader.sizeof) in
  let slotDirSize :=
    to_int (to_size_t (to_size_t (numberOfSlots h) * Slot.sizeof)) in
  let slotDirStart := to_int (dataAreaSize - slotDirSize) in
  memcpy buffer2 (PageHeader.sizeof + slotDirStart)
    (directory_bytes (slotDirectory p)) slotDirSize.

(** [Page::deserialize(buffer)] on the page object [p]: the header is
    overwritten, the first [freeSpaceOffset] bytes of [data] are
    overwritten, the directory is resized to [numberOfSlots] and
    filled from the tail of the buffer.  The source checks nothing:
    with a [freeSpaceOffset] outside [0, sizeof(data)] or a
    [numberOfSlots] that is negative or beyond [PAGE_SIZE /
    sizeof(Slot)] its [memcpy] calls are undefined and [resize]
    throws [std::length_error]; the list operations truncate there,
    so the value below describes the source on buffers with counts in
    those ranges only. *)
Definition deserialize (p : t) (buffer : list byte) : t :=
  let h := PageHeader.of_bytes (bytes_at buffer 0 PageHeader.sizeof) in
  let data' :=
    memcpy (data p) 0
      (drop (Z.to_nat PageHeader.sizeof) buffer) (freeSpaceOffset h) in
  let slotDirSize :=
    to_int (to_size_t (to_size_t (numberOfSlots h) * Slot.sizeof)) in
  let dataAreaSize := to_int (PAGE_SIZE - PageHeader.sizeof) in
  let slotDirStart := to_int (dataAreaSize - slotDirSize) in
  {| header := h;
     data := data';
     slotDirectory :=
       directory_of_bytes (Z.to_nat (numberOfSlots h))
         (drop (Z.to_nat (PageHeader.sizeof + slotDirStart)) buffer) |}.

End Page.

(** ** DiskManager *)

Module DiskManager.

(** [class DiskManager]: the contents of the backing file, whether
    [fileStream_] has [failbit] or [badbit] set (neither is ever
    cleared after construction), and [numPages_]. *)
Record t : Type := mk {
  file : list byte;
  stream_failed : bool;
  numPages_ : Z
}.

(** What the environment does during one call: whether the seek, the
    transfer and the flush succeed at operating-system level, and the
    prior contents of the local [char buffer[PAGE_SIZE]]. *)
Record io : Type := mk_io {
  seek_ok : bool;
  transfer_ok : bool;
  flush_ok : bool;
  scratch : list byte
}.

Definition with_failure (dm : t) : t :=
  {| file := file dm; stream_failed := true; numPages_ := numPages_ dm |}.

(** [DiskManager::DiskManager] on a file that opens: [numPages_] is
    [static_cast<int>(fileSize / PAGE_SIZE)]. *)
Definition open (contents : list byte) : t :=
  {| file := contents;
     stream_failed := false;
     numPages_ := to_int (Z.of_nat (length contents) / PAGE_SIZE) |}.

(** [DiskManager::getOffset]: [static_cast<long>(pageId) * PAGE_SIZE]. *)
Definition getOffset (pageId : Z) : Z := to_long (pageId * PAGE_SIZE).

(** [int offset = pageId * PAGE_SIZE;] as [readPage] and [writePage]
    compute it: a product of two [int]s. *)
Definition int_offset (pageId : Z) : Z := to_int (pageId * PAGE_SIZE).

(** [seekg]/[seekp(offset, std::ios::beg)] followed by
    [if (!fileStream_)]: the seek fails when the stream has already
    failed, when the position is negative, or when the operating
    system refuses it. *)
Definition seek_fails (dm : t) (env : io) (offset : Z) : bool :=
  stream_failed dm || negb (seek_ok env) || (offset <? 0).

(** The file after the bytes [bs] are written at [offset]; a gap past
    the old end reads as zero. *)
Definition write_at (contents : list byte) (offset : Z) (bs : list byte)
  : list byte :=
  let at_ := Z.to_nat offset in
  take at_ (contents ++ repeat Byte.x00 (at_ - length contents))
    ++ bs ++ drop (at_ + length bs) contents.

(** [DiskManager::readPage(pageId, page)].  The bytes read go to
    [deserialize] unchecked, see there. *)
Definition readPage (dm : t) (pageId : Z) (page : Page.t) (env : io)
  : t * Page.t * bool :=
  let offset := int_offset pageId in
  if seek_fails dm env offset then (with_failure dm, page, false)
  else
    let buffer := bytes_at (file dm) offset PAGE_SIZE in
    if negb (transfer_ok env)
       || negb (Z.of_nat (length buffer) =? PAGE_SIZE)
    then (with_failure dm, page, false)
    else (dm, Page.deserialize page buffer, true).

(** [DiskManager::writePage(pageId, page)]. *)
Definition writePage (dm : t) (pageId : Z) (page : Page.t) (env : io)
  : t * bool :=
  let target :=
    if pageId =? numPages_ dm then Some (int_offset (numPages_ dm))
    else if pageId <? numPages_ dm then Some (int_offset pageId)
    else None in
  match target with
  | None => (dm, false)
  | Some offset =>
      if seek_fails dm env offset then (with_failure dm, false)
      else
        let buffer :=
          Page.serialize page
            (resize (Z.to_nat PAGE_SIZE) Byte.x00 (scratch env)) in
        if negb (transfer_ok env) then (with_failure dm, false)
        else
          ({| file := write_at (file dm) offset
                        (take (Z.to_nat PAGE_SIZE) buffer);
              stream_failed := negb (flush_ok env);
              numPages_ :=
                if pageId =? numPages_ dm
                then to_int (numPages_ dm + 1)
                else numPages_ dm |}, true)
  end.

(** [DiskManager::allocateNewPage]. *)
Definition allocateNewPage (dm : t) (env : io) : t * Z :=
  let newPage := Page.setPageId Page.new (numPages_ dm) in
  let '(dm', ok) := writePage dm (numPages_ dm) newPage env in
  if ok then (dm', to_int (numPages_ dm' - 1)) else (dm', -1).

Definition getNumberOfPages (dm : t) : Z := numPages_ dm.

(** A run of [allocateNewPage] calls, one per environment, with the
    results in call order. *)
Fixpoint allocate_all (dm : t) (envs : list io) : t * list Z :=
  match envs with
  | [] => (dm, [])
  | env :: envs' =>
      let '(dm1, id) := allocateNewPage dm env in
      let '(dm2, ids) := allocate_all dm1 envs' in
      (dm2, id :: ids)
  end.

End DiskManager.

(** ** BufferPool *)

Module BufferPool.

(** Modelled from the spec: the member [lastAccessTime].  The
    [struct Frame] declared in [bufferpool.h] has the members [page],
    [pinCount] and [isDirty] only, although [bufferpool.cpp] reads and
    writes [lastAccessTime] on every frame; the data model of the
    specification gives each frame a [lastAccessTime] monotonic
    timestamp, here the reading of [steady_clock] in ticks. *)
Record Frame : Type := mkFrame {
  page : Page.t;
  pinCount : Z;
  isDirty : bool;
  lastAccessTime : Z
}.

(** [class BufferPool]; the borrowed [DiskManager] is threaded
    through the operations that use it. *)
Record t : Type := mk {
  poolSize_ : Z;
  frames_ : list Frame;
  pageTable_ : gmap Z Z
}.

(** [frames_[index]] for an [int] index; outside the vector the
    source is undefined, a read is [None] and a write is dropped. *)
Definition frame_at (frames : list Frame) (index : Z) : option Frame :=
  if index <? 0 then None else frames !! Z.to_nat index.

Definition set_frame (frames : list Frame) (index : Z) (f : Frame)
  : list Frame :=
  if index <? 0 then frames else <[Z.to_nat index := f]> frames.

(** [std::min_element(first, last, comp)]: scan left to right and
    move to an element only when it compares less than the current
    smallest. *)
Fixpoint min_element_from {A : Type} (comp : A -> A -> bool)
    (smallest : nat) (x : A) (i : nat) (rest : list A) : nat :=
  match rest with
  | [] => smallest
  | y :: rest' =>
      if comp y x then min_element_from comp i y (S i) rest'
      else min_element_from comp smallest x (S i) rest'
  end.

Definition min_element {A : Type} (comp : A -> A -> bool) (l : list A)
  : option nat :=
  match l with
  | [] => None
  | x :: rest => Some (min_element_from comp 0 x 1 rest)
  end.

(** [std::find_if(first, last, pred)]: index of the first match. *)
Fixpoint find_if {A : Type} (pred : A -> bool) (l : list A) : option nat :=
  match l with
  | [] => None
  | x :: rest => if pred x then Some O else S <$> find_if pred rest
  end.

(** The comparator of [findVictim]. *)
Definition victim_less (a b : Frame) : bool :=
  if (pinCount a =? 0) && negb (pinCount b =? 0) then true
  else if negb (pinCount a =? 0) && (pinCount b =? 0) then false
  else lastAccessTime a <? lastAccessTime b.

(** [BufferPool::findVictim]. *)
Definition findVictim (bp : t) : Z :=
  match min_element victim_less (frames_ bp) with
  | None => -1
  | Some i =>
      match frames_ bp !! i with
      | Some victim =>
          if pinCount victim =? 0 then to_int (Z.of_nat i) else -1
      | None => -1
      end
  end.

(** The predicate of the empty-frame search in [fixPage]. *)
Definition is_empty_frame (frame : Frame) : bool :=
  (pinCount frame =? 0) && (Page.getPageId (page frame) =? -1).

(** The frame as [fixPage] leaves it after a successful load. *)
Definition loaded (loaded_page : Page.t) (pageId : Z) (isWrite : bool)
    (now : Z) : Frame :=
  {| page := Page.setPageId loaded_page pageId;
     pinCount := 1;
     isDirty := isWrite;
     lastAccessTime := now |}.

(** [BufferPool::fixPage(pageId, isWrite)].  [now] is the reading of
    [steady_clock::now()], [wenv] and [renv] the environment of the
    write-back and of the read.  The result is the index of the frame
    whose page is returned, [None] for [nullptr]. *)
Definition fixPage (bp : t) (dm : DiskManager.t) (pageId : Z)
    (isWrite : bool) (now : Z) (wenv renv : DiskManager.io)
  : t * DiskManager.t * option Z :=
  match pageTable_ bp !! pageId with
  | Some index =>
      match frame_at (frames_ bp) index with
      | Some f =>
          let f' :=
            {| page := page f;
               pinCount := to_int (pinCount f + 1);
               isDirty := if isWrite then true else isDirty f;
               lastAccessTime := now |} in
          ({| poolSize_ := poolSize_ bp;
              frames_ := set_frame (frames_ bp) index f';
              pageTable_ := pageTable_ bp |}, dm, Some index)
      | None => (bp, dm, Some index)
      end
  | None =>
      match find_if is_empty_frame (frames_ bp) with
      | Some i =>
          let index := to_int (Z.of_nat i) in
          match frame_at (frames_ bp) index with
          | Some f =>
              let '(dm', page', ok) :=
                DiskManager.readPage dm pageId (page f) renv in
              if negb ok then (bp, dm', None)
              else
                ({| poolSize_ := poolSize_ bp;
                    frames_ :=
                      set_frame (frames_ bp) index
                        (loaded page' pageId isWrite now);
                    pageTable_ := <[pageId := index]> (pageTable_ bp) |},
                 dm', Some index)
          | None => (bp, dm, None)
          end
      | None =>
          let index := findVictim bp in
          if index =? -1 then (bp, dm, None)
          else
            match frame_at (frames_ bp) index with
            | Some f =>
                let victimPageId := Page.getPageId (page f) in
                let dm1 :=
                  if isDirty f && negb (victimPageId =? -1)
                  then fst (DiskManager.writePage dm victimPageId
                              (page f) wenv)
                  else dm in
                let pageTable1 := delete victimPageId (pageTable_ bp) in
                let '(dm2, page', ok) :=
                  DiskManager.readPage dm1 pageId (page f) renv in
                if negb ok
                then ({| poolSize_ := poolSize_ bp;
                         frames_ := frames_ bp;
                         pageTable_ := pageTable1 |}, dm2, None)
                else
                  ({| poolSize_ := poolSize_ bp;
                      frames_ :=
                        set_frame (frames_ bp) index
                          (loaded page' pageId isWrite now);
                      pageTable_ := <[pageId := index]> pageTable1 |},
                   dm2, Some index)
            | None => (bp, dm, None)
            end
      end
  end.

(** [BufferPool::unfixPage(page, isDirty)]; only the id of [*page] is
    read. *)
Definition unfixPage (bp : t) (pg : Page.t) (markDirty : bool) (now : Z)
  : t :=
  let pageId := Page.getPageId pg in
  match pageTable_ bp !! pageId with
  | Some index =>
      match frame_at (frames_ bp) index with
      | Some f =>
          let f' :=
            {| page := page f;
               pinCount :=
                 if 0 <? pinCount f then to_int (pinCount f - 1)
                 else pinCount f;
               isDirty := if markDirty then true else isDirty f;
               lastAccessTime := now |} in
          {| poolSize_ := poolSize_ bp;
             frames_ := set_frame (frames_ bp) index f';
             pageTable_ := pageTable_ bp |}
      | None => bp
      end
  | None => bp
  end.

(** [BufferPool::BufferPool(poolSize, diskManager)]: [poolSize] frames,
    each unpinned, clean, holding a constructed page with id [-1];
    [clock i] is the reading of [steady_clock::now()] taken for frame
    [i].  (A negative [poolSize] makes [resize] throw; here it gives
    no frames.) *)
Definition create (poolSize : Z) (clock : nat -> Z) : t :=
  {| poolSize_ := poolSize;
     frames_ :=
       map (fun i => {| page := Page.setPageId Page.new (-1);
                        pinCount := 0;
                        isDirty := false;
                        lastAccessTime := clock i |})
         (seq 0 (Z.to_nat poolSize));
     pageTable_ := ∅ |}.

(** [BufferPool::loadPageIntoFrame(frameIndex, pageId)]. *)
Definition loadPageIntoFrame (bp : t) (dm : DiskManager.t)
    (frameIndex pageId : Z) (now : Z) (env : DiskManager.io)
  : t * DiskManager.t * bool :=
  match frame_at (frames_ bp) frameIndex with
  | Some f =>
      let '(dm', page', ok) := DiskManager.readPage dm pageId (page f) env in
      if negb ok then (bp, dm', false)
      else
        ({| poolSize_ := poolSize_ bp;
            frames_ :=
              set_frame (frames_ bp) frameIndex
                {| page := Page.setPageId page' pageId;
                   pinCount := 1;
                   isDirty := isDirty f;
                   lastAccessTime := now |};
            pageTable_ := pageTable_ bp |}, dm', true)
  | None => (bp, dm, false)
  end.

(** The test of [flushAllPages]: [frame.isDirty && frame.pinCount == 0
    && frame.page.getPageId() != -1]. *)
Definition needs_flush (frame : Frame) : bool :=
  isDirty frame && (pinCount frame =? 0)
  && negb (Page.getPageId (page frame) =? -1).

(** The loop of [flushAllPages] from frame [i] on; [env_of j] is the
    environment of the [writePage] call made for frame [j].  The
    result of [writePage] is not looked at. *)
Fixpoint flush_from (i : nat) (frames : list Frame) (dm : DiskManager.t)
    (env_of : nat -> DiskManager.io) : list Frame * DiskManager.t :=
  match frames with
  | [] => ([], dm)
  | frame :: rest =>
      if needs_flush frame
      then
        let dm1 :=
          fst (DiskManager.writePage dm (Page.getPageId (page frame))
                 (page frame) (env_of i)) in
        let '(rest', dm2) := flush_from (S i) rest dm1 env_of in
        ({| page := page frame;
            pinCount := pinCount frame;
            isDirty := false;
            lastAccessTime := lastAccessTime frame |} :: rest', dm2)
      else
        let '(rest', dm2) := flush_from (S i) rest dm env_of in
        (frame :: rest', dm2)
  end.

(** [BufferPool::flushAllPages], which is also all the destructor
    does. *)
Definition flushAllPages (bp : t) (dm : DiskManager.t)
    (env_of : nat -> DiskManager.io) : t * DiskManager.t :=
  let '(frames', dm') := flush_from 0 (frames_ bp) dm env_of in
  ({| poolSize_ := poolSize_ bp;
      frames_ := frames';
      pageTable_ := pageTable_ bp |}, dm').

End BufferPool.

(** ** Vocabulary of the specification *)

(** The slot directory of records laid end to end from [start]. *)
Fixpoint layout (start : Z) (records : list (list byte)) : list Slot.t :=
  match records with
  | [] => []
  | r :: records' =>
      {| Slot.offset := start;
         Slot.length := Z.of_nat (length r);
         Slot.isValid := true |}
        :: layout (start + Z.of_nat (length r)) records'
  end.

(** [represents p records]: page [p] stores exactly [records], in slot
    order, packed from the start of the data area. *)
Record represents (p : Page.t) (records : list (list byte)) : Prop := {
  rep_data_size : Z.of_nat (length (Page.data p)) = Page.dataAreaSize;
  rep_directory : Page.slotDirectory p = layout 0 records;
  rep_bytes :
    bytes_at (Page.data p) 0 (PageHeader.freeSpaceOffset (Page.header p))
    = concat records;
  rep_end :
    PageHeader.freeSpaceOffset (Page.header p)
    = Z.of_nat (length (concat records));
  rep_count :
    PageHeader.numberOfSlots (Page.header p) = Z.of_nat (length records);
  rep_space :
    PageHeader.freeSpaceOffset (Page.header p)
      + PageHeader.numberOfSlots (Page.header p) * Slot.sizeof
    <= Page.dataAreaSize;
  rep_nonempty : Forall (fun r => r <> []) records;
  rep_pageId : is_int (PageHeader.pageId (Page.header p));
  rep_lsn : is_long (PageHeader.lsn (Page.header p))
}.

(** A call [insertRecord(record, length)] within the contract of the
    operation: [length > 0], [record] points to at least [length]
    bytes, and [length + sizeof(Slot)] is representable in the [int]
    that holds it (beyond that the space check wraps around and the
    call copies past the end of [data], which is undefined). *)
Definition insert_in_contract (record : list byte) (length_ : Z) : Prop :=
  0 < length_
  /\ length_ <= Z.of_nat (length record)
  /\ length_ + Slot.sizeof <= INT_MAX.

(** Pages obtained from the constructed (cleared) page by calls of
    [insertRecord] and [deleteRecord], whatever those calls return. *)
Inductive reachable : Page.t -> Prop :=
| reachable_new : reachable Page.new
| reachable_insert (p : Page.t) (record : list byte) (length_ : Z) :
    reachable p ->
    insert_in_contract record length_ ->
    reachable (fst (Page.insertRecord p record length_))
| reachable_delete (p : Page.t) (slotId : Z) :
    reachable p ->
    reachable (fst (Page.deleteRecord p slotId)).

(** The half-open byte range of a slot. *)
Definition slot_end (s : Slot.t) : Z := Slot.offset s + Slot.length s.

Definition slots_disjoint (a b : Slot.t) : Prop :=
  slot_end a <= Slot.offset b \/ slot_end b <= Slot.offset a.

(** What the specification says [deleteRecord] does to a page on which
    [slotId] names the valid slot [s]: the bytes after the record move
    left by its length, the header is updated, the entry leaves the
    directory so that later entries move down one position, and a
    surviving slot has its offset reduced by the record's length
    exactly when its original offset was greater than that of [s]. *)
Record compacts_by_offset (p : Page.t) (slotId : Z) (s : Slot.t)
    : Prop := {
  cbo_result : snd (Page.deleteRecord p slotId) = true;
  cbo_free :
    PageHeader.freeSpaceOffset
      (Page.header (fst (Page.deleteRecord p slotId)))
    = PageHeader.freeSpaceOffset (Page.header p) - Slot.length s;
  cbo_count :
    PageHeader.numberOfSlots
      (Page.header (fst (Page.deleteRecord p slotId)))
    = PageHeader.numberOfSlots (Page.header p) - 1;
  cbo_dirty :
    PageHeader.dirty (Page.header (fst (Page.deleteRecord p slotId)))
    = true;
  cbo_kept :
    bytes_at (Page.data (fst (Page.deleteRecord p slotId))) 0
      (Slot.offset s)
    = bytes_at (Page.data p) 0 (Slot.offset s);
  cbo_moved :
    bytes_at (Page.data (fst (Page.deleteRecord p slotId)))
      (Slot.offset s)
      (PageHeader.freeSpaceOffset (Page.header p) - slot_end s)
    = bytes_at (Page.data p) (slot_end s)
        (PageHeader.freeSpaceOffset (Page.header p) - slot_end s);
  cbo_directory_size :
    length (Page.slotDirectory (fst (Page.deleteRecord p slotId)))
    = (length (Page.slotDirectory p) - 1)%nat;
  cbo_directory :
    forall (j : nat) (t : Slot.t),
      Page.slotDirectory p !! j = Some t ->
      j <> Z.to_nat slotId ->
      Page.slotDirectory (fst (Page.deleteRecord p slotId))
        !! (if (j <? Z.to_nat slotId)%nat then j else (j - 1)%nat)
      = Some {| Slot.offset :=
                  if Slot.offset s <? Slot.offset t
                  then Slot.offset t - Slot.length s
                  else Slot.offset t;
                Slot.length := Slot.length t;
                Slot.isValid := Slot.isValid t |}
}.

(** Byte strings of the walkthrough scenario of the specification. *)
Definition ascii_bytes (codes : list Z) : list byte := map byte.of_Z codes.
Definition alpha : list byte := ascii_bytes [97; 108; 112; 104; 97].
Definition beta : list byte := ascii_bytes [98; 101; 116; 97].
Definition gamma : list byte := ascii_bytes [103; 97; 109; 109; 97].

(** The constructed page after inserting "alpha", "beta", "gamma". *)
Definition page_abg : Page.t :=
  let p1 := fst (Page.insertRecord Page.new alpha 5) in
  let p2 := fst (Page.insertRecord p1 beta 4) in
  fst (Page.insertRecord p2 gamma 5).

(** A page object holding "gamma" before "alpha" in the record area
    while the directory lists "alpha" first: invariants 1 to 3 of the
    data model hold, but no sequence of inserts and deletes builds
    it (it can be read from a file, and [data] and [slotDirectory] are
    public members). *)
Definition page_swapped : Page.t :=
  {| Page.header :=
       {| PageHeader.pageId := 0; PageHeader.dirty := false;
          PageHeader.lsn := 0; PageHeader.freeSpaceOffset := 10;
          PageHeader.numberOfSlots := 2 |};
     Page.data :=
       gamma ++ alpha ++ repeat Byte.x00 (Z.to_nat Page.dataAreaSize - 10);
     Page.slotDirectory :=
       [ {| Slot.offset := 5; Slot.length := 5; Slot.isValid := true |};
         {| Slot.offset := 0; Slot.length := 5; Slot.isValid := true |} ] |}.

(** [x] at position [m] is the first minimum of [l] for the strict
    order [comp]: nothing compares less than [x], and [x] compares
    less than everything before it. *)
Definition first_minimum {A : Type} (comp : A -> A -> bool) (l : list A)
    (m : nat) (x : A) : Prop :=
  l !! m = Some x
  /\ (forall j y, l !! j = Some y -> comp y x = false)
  /\ (forall j y, (j < m)%nat -> l !! j = Some y -> comp x y = true).

(** The key [findVictim] orders frames by: unpinned frames before
    pinned ones, then by time of last access. *)
Definition pinned_rank (f : BufferPool.Frame) : Z :=
  if BufferPool.pinCount f =? 0 then 0 else 1.

(** The frame count fits the [int] indices the pool computes; the
    constructor sizes [frames_] from the [int poolSize]. *)
Definition indexable (bp : BufferPool.t) : Prop :=
  Z.of_nat (length (BufferPool.frames_ bp)) <= INT_MAX.

(** [v] at position [index] is the least recently used unpinned frame,
    the lowest position winning among equal times. *)
Definition lru_unpinned (frames : list BufferPool.Frame) (index : Z)
    (v : BufferPool.Frame) : Prop :=
  0 <= index
  /\ frames !! Z.to_nat index = Some v
  /\ BufferPool.pinCount v = 0
  /\ forall (j : nat) (f : BufferPool.Frame),
       frames !! j = Some f -> BufferPool.pinCount f = 0 ->
       BufferPool.lastAccessTime v < BufferPool.lastAccessTime f
       \/ (BufferPool.lastAccessTime v = BufferPool.lastAccessTime f
           /\ index <= Z.of_nat j).

(** A pool of one frame that caches page 1, unpinned and clean, last
    touched at tick 0. *)
Definition pool_one_unpinned : BufferPool.t :=
  {| BufferPool.poolSize_ := 1;
     BufferPool.frames_ :=
       [ {| BufferPool.page := Page.setPageId Page.new 1;
            BufferPool.pinCount := 0;
            BufferPool.isDirty := false;
            BufferPool.lastAccessTime := 0 |} ];
     BufferPool.pageTable_ := {[ 1 := 0 ]} |}.

(** The environment lets the seek, the transfer and the flush of a
    call succeed. *)
Definition healthy (env : DiskManager.io) : Prop :=
  DiskManager.seek_ok env = true
  /\ DiskManager.transfer_ok env = true
  /\ DiskManager.flush_ok env = true.

(** Every later [readPage], [writePage] and [allocateNewPage] on [dm]
    fails, whatever the environment does. *)
Definition refuses_all (dm : DiskManager.t) : Prop :=
  forall (pageId : Z) (page : Page.t) (env : DiskManager.io),
    snd (DiskManager.readPage dm pageId page env) = false
    /\ snd (DiskManager.writePage dm pageId page env) = false
    /\ snd (DiskManager.allocateNewPage dm env) = -1.

(** Every entry of the page table names a frame that holds the page
    of that id, and no entry is for the id [-1] of an empty page. *)
Definition table_sound (bp : BufferPool.t) : Prop :=
  forall (pageId index : Z),
    BufferPool.pageTable_ bp !! pageId = Some index ->
    pageId <> -1
    /\ exists f,
         BufferPool.frame_at (BufferPool.frames_ bp) index = Some f
         /\ Page.getPageId (BufferPool.page f) = pageId.

(** Pin counts are counts: non-negative, with room for one more pin. *)
Definition pins_in_range (bp : BufferPool.t) : Prop :=
  forall f, f ∈ BufferPool.frames_ bp ->
            0 <= BufferPool.pinCount f < INT_MAX.

(** A frame as [flushAllPages] leaves it. *)
Definition flushed (f : BufferPool.Frame) : BufferPool.Frame :=
  if BufferPool.needs_flush f
  then {| BufferPool.page := BufferPool.page f;
          BufferPool.pinCount := BufferPool.pinCount f;
          BufferPool.isDirty := false;
          BufferPool.lastAccessTime := BufferPool.lastAccessTime f |}
  else f.

(** The fields of a slot fit their C++ types. *)
Definition slot_is_int (s : Slot.t) : Prop :=
  is_int (Slot.offset s) /\ is_int (Slot.length s).

(** Number of bytes of a list of records. *)
Definition total (records : list (list byte)) : Z :=
  Z.of_nat (length (concat records)).

(** Invariant 1 of the data model: the record area and the slot
    directory fit the data area side by side. *)
Definition counters_in_range (p : Page.t) : Prop :=
  0 <= PageHeader.freeSpaceOffset (Page.header p)
  /\ 0 <= PageHeader.numberOfSlots (Page.header p)
  /\ PageHeader.freeSpaceOffset (Page.header p)
       + PageHeader.numberOfSlots (Page.header p) * Slot.sizeof
     <= Page.dataAreaSize.

(** [slotId] names slot [s] of page [p], the directory has
    [numberOfSlots] entries, and the record of [s] lies inside the
    record area (invariant 2 of the data model, for [s]). *)
Record names_slot (p : Page.t) (slotId : Z) (s : Slot.t) : Prop := {
  ns_directory_size :
    Z.of_nat (length (Page.slotDirectory p))
    = PageHeader.numberOfSlots (Page.header p);
  ns_count : PageHeader.numberOfSlots (Page.header p) <= INT_MAX;
  ns_index : 0 <= slotId;
  ns_lookup : Page.slotDirectory p !! Z.to_nat slotId = Some s;
  ns_offset : 0 <= Slot.offset s;
  ns_length : 0 <= Slot.length s;
  ns_end : slot_end s <= PageHeader.freeSpaceOffset (Page.header p);
  ns_free :
    PageHeader.freeSpaceOffset (Page.header p)
    <= Z.of_nat (length (Page.data p));
  ns_data_size : Z.of_nat (length (Page.data p)) = Page.dataAreaSize
}.

(** [stores p records]: as [represents], for records of any length,
    the empty record included. *)
Record stores (p : Page.t) (records : list (list byte)) : Prop := {
  st_data_size : Z.of_nat (length (Page.data p)) = Page.dataAreaSize;
  st_directory : Page.slotDirectory p = layout 0 records;
  st_bytes :
    bytes_at (Page.data p) 0 (PageHeader.freeSpaceOffset (Page.header p))
    = concat records;
  st_end :
    PageHeader.freeSpaceOffset (Page.header p)
    = Z.of_nat (length (concat records));
  st_count :
    PageHeader.numberOfSlots (Page.header p) = Z.of_nat (length records);
  st_space :
    PageHeader.freeSpaceOffset (Page.header p)
      + PageHeader.numberOfSlots (Page.header p) * Slot.sizeof
    <= Page.dataAreaSize;
  st_pageId : is_int (PageHeader.pageId (Page.header p));
  st_lsn : is_long (PageHeader.lsn (Page.header p))
}.

(** A call [insertRecord(record, length)] that the code runs without
    undefined behaviour on a page whose counters are in range:
    [length] is not negative (a negative count makes [memcpy] copy
    [size_t(length)] bytes), [record] points to at least [length]
    bytes, and [length + sizeof(Slot)] is representable in the [int]
    that holds it.  [length == 0] is accepted by the code. *)
Definition insert_defined (record : list byte) (length_ : Z) : Prop :=
  0 <= length_
  /\ length_ <= Z.of_nat (length record)
  /\ length_ + Slot.sizeof <= INT_MAX.

(** Pages obtained from the constructed page by calls of
    [insertRecord] and [deleteRecord] that the code runs without
    undefined behaviour, whatever those calls return. *)
Inductive reachable_any : Page.t -> Prop :=
| reachable_any_new : reachable_any Page.new
| reachable_any_insert (p : Page.t) (record : list byte) (length_ : Z) :
    reachable_any p ->
    insert_defined record length_ ->
    reachable_any (fst (Page.insertRecord p record length_))
| reachable_any_delete (p : Page.t) (slotId : Z) :
    reachable_any p ->
    reachable_any (fst (Page.deleteRecord p slotId)).

(** What [deleteRecord] does to a page on which [slotId] names the
    valid slot [s], slot by position: as [compacts_by_offset], except
    that the slots whose offset is reduced (in [int] arithmetic) are
    those at the positions after [slotId]. *)
Record compacts_by_position (p : Page.t) (slotId : Z) (s : Slot.t)
    : Prop := {
  cbp_result : snd (Page.deleteRecord p slotId) = true;
  cbp_free :
    PageHeader.freeSpaceOffset
      (Page.header (fst (Page.deleteRecord p slotId)))
    = PageHeader.freeSpaceOffset (Page.header p) - Slot.length s;
  cbp_count :
    PageHeader.numberOfSlots
      (Page.header (fst (Page.deleteRecord p slotId)))
    = PageHeader.numberOfSlots (Page.header p) - 1;
  cbp_dirty :
    PageHeader.dirty (Page.header (fst (Page.deleteRecord p slotId)))
    = true;
  cbp_kept :
    bytes_at (Page.data (fst (Page.deleteRecord p slotId))) 0
      (Slot.offset s)
    = bytes_at (Page.data p) 0 (Slot.offset s);
  cbp_moved :
    bytes_at (Page.data (fst (Page.deleteRecord p slotId)))
      (Slot.offset s)
      (PageHeader.freeSpaceOffset (Page.header p) - slot_end s)
    = bytes_at (Page.data p) (slot_end s)
        (PageHeader.freeSpaceOffset (Page.header p) - slot_end s);
  cbp_directory_size :
    length (Page.slotDirectory (fst (Page.deleteRecord p slotId)))
    = (length (Page.slotDirectory p) - 1)%nat;
  cbp_directory :
    forall (j : nat) (t : Slot.t),
      Page.slotDirectory p !! j = Some t ->
      j <> Z.to_nat slotId ->
      Page.slotDirectory (fst (Page.deleteRecord p slotId))
        !! (if (j <? Z.to_nat slotId)%nat then j else (j - 1)%nat)
      = Some (if (Z.to_nat slotId <? j)%nat
              then Slot.sub_offset (Slot.length s) t
              else t)
}.

(** The directory is in offset order around the slot [s] at position
    [slotId]: no earlier slot starts after [s], and every later slot
    starts at or after the end of the record of [s]. *)
Definition offset_ordered (p : Page.t) (slotId : Z) (s : Slot.t) : Prop :=
  forall (j : nat) (t : Slot.t),
    Page.slotDirectory p !! j = Some t ->
    ((j < Z.to_nat slotId)%nat -> Slot.offset t <= Slot.offset s)
    /\ ((Z.to_nat slotId < j)%nat ->
        slot_end s <= Slot.offset t <= INT_MAX).

(** The constructed page after [insertRecord("", 0)] and
    [insertRecord("alpha", 5)]. *)
Definition page_empty_alpha : Page.t :=
  fst (Page.insertRecord (fst (Page.insertRecord Page.new [] 0)) alpha 5).

(** The buffer holds a page image that [deserialize] can load: the
    counts in its header are such that both [memcpy] calls stay inside
    the buffer and the page object and [resize] gets a count that is
    not negative.  On any other buffer [deserialize] has undefined
    behaviour or throws in the source. *)
Definition loadable (buffer : list byte) : Prop :=
  let h := PageHeader.of_bytes (bytes_at buffer 0 PageHeader.sizeof) in
  0 <= PageHeader.freeSpaceOffset h <= Page.dataAreaSize
  /\ 0 <= PageHeader.numberOfSlots h
  /\ PageHeader.numberOfSlots h * Slot.sizeof <= PAGE_SIZE.

(** The bytes of the members of a header at their offsets in an
    image; the padding bytes 5 to 7 are not constrained. *)
Definition header_fields_at (image : list byte) (h : PageHeader.t) : Prop :=
  bytes_at image 0 4 = le_split 4 (PageHeader.pageId h)
  /\ bytes_at image 4 1 = [encode_bool (PageHeader.dirty h)]
  /\ bytes_at image 8 8 = le_split 8 (PageHeader.lsn h)
  /\ bytes_at image 16 4 = le_split 4 (PageHeader.freeSpaceOffset h)
  /\ bytes_at image 20 4 = le_split 4 (PageHeader.numberOfSlots h).

(** The bytes of the members of a slot at [pos] in an image; the
    padding bytes 9 to 11 are not constrained. *)
Definition slot_fields_at (image : list byte) (pos : Z) (s : Slot.t)
  : Prop :=
  bytes_at image pos 4 = le_split 4 (Slot.offset s)
  /\ bytes_at image (pos + 4) 4 = le_split 4 (Slot.length s)
  /\ bytes_at image (pos + 8) 1 = [encode_bool (Slot.isValid s)].

(** ** Machine integers: basic facts *)

Lemma to_int_id (z : Z) : is_int z -> to_int z = z.
Proof.
  unfold is_int, INT_MIN, INT_MAX, to_int, wrap_signed. intros Hz.
  change (2 ^ (32 - 1)) with 2147483648.
  change (2 ^ 32) with 4294967296.
  rewrite Z.mod_small; lia.
Qed.

Lemma to_long_id (z : Z) : is_long z -> to_long z = z.
Proof.
  unfold is_long, to_long, wrap_signed. intros Hz.
  change (2 ^ (64 - 1)) with (2 ^ 63).
  change (2 ^ 64) with (2 * 2 ^ 63).
  rewrite Z.mod_small; lia.
Qed.

Lemma to_size_t_id (z : Z) : 0 <= z < 2 ^ 64 -> to_size_t z = z.
Proof. intros Hz. unfold to_size_t. now apply Z.mod_small. Qed.

Lemma to_int_is_int (z : Z) : is_int (to_int z).
Proof.
  unfold is_int, INT_MIN, INT_MAX, to_int, wrap_signed.
  change (2 ^ (32 - 1)) with 2147483648.
  change (2 ^ 32) with 4294967296.
  pose proof (Z.mod_pos_bound (z + 2147483648) 4294967296). lia.
Qed.

Lemma to_int_mod (z : Z) : to_int (z mod 2 ^ 32) = to_int z.
Proof.
  unfold to_int, wrap_signed. f_equal.
  rewrite Z.add_mod_idemp_l; [reflexivity | discriminate].
Qed.

Lemma to_long_mod (z : Z) : to_long (z mod 2 ^ 64) = to_long z.
Proof.
  unfold to_long, wrap_signed. f_equal.
  rewrite Z.add_mod_idemp_l; [reflexivity | discriminate].
Qed.

(** ** Raw memory: basic facts *)

Section Memory.

Implicit Types dst src buf : list byte.

Lemma length_memcpy dst at_ src n :
  0 <= at_ -> 0 <= n ->
  at_ + n <= Z.of_nat (length dst) -> n <= Z.of_nat (length src) ->
  length (memcpy dst at_ src n) = length dst.
Proof.
  intros. unfold memcpy.
  rewrite !length_app, !length_take, length_drop. lia.
Qed.

Lemma drop_memcpy dst at_ src n :
  0 <= at_ <= Z.of_nat (length dst) ->
  drop (Z.to_nat at_) (memcpy dst at_ src n)
  = take (Z.to_nat n) src ++ drop (Z.to_nat (at_ + n)) dst.
Proof.
  intros. unfold memcpy.
  rewrite drop_app_length'; [reflexivity |].
  rewrite length_take. lia.
Qed.

Lemma bytes_at_memcpy dst at_ src n :
  0 <= at_ <= Z.of_nat (length dst) ->
  0 <= n <= Z.of_nat (length src) ->
  bytes_at (memcpy dst at_ src n) at_ n = take (Z.to_nat n) src.
Proof.
  intros. unfold bytes_at. rewrite drop_memcpy by lia.
  rewrite take_app_length'; [reflexivity |].
  rewrite length_take. lia.
Qed.

Lemma bytes_at_memcpy_before dst at_ src n off m :
  0 <= off -> 0 <= m -> off + m <= at_ ->
  at_ <= Z.of_nat (length dst) ->
  bytes_at (memcpy dst at_ src n) off m = bytes_at dst off m.
Proof.
  intros. unfold bytes_at, memcpy.
  rewrite drop_app_le by (rewrite length_take; lia).
  rewrite take_app_le by (rewrite length_drop, length_take; lia).
  rewrite !take_drop_commute, take_take.
  do 2 f_equal. lia.
Qed.

Lemma bytes_at_memcpy_after dst at_ src n off m :
  0 <= at_ -> 0 <= n -> at_ + n <= off ->
  at_ + n <= Z.of_nat (length dst) -> n <= Z.of_nat (length src) ->
  bytes_at (memcpy dst at_ src n) off m = bytes_at dst off m.
Proof.
  intros. unfold bytes_at, memcpy. f_equal.
  rewrite app_assoc.
  rewrite drop_app_ge by (rewrite length_app, !length_take; lia).
  rewrite drop_drop. f_equal.
  rewrite length_app, !length_take. lia.
Qed.

Lemma length_bytes_at buf at_ n :
  0 <= at_ -> 0 <= n -> at_ + n <= Z.of_nat (length buf) ->
  Z.of_nat (length (bytes_at buf at_ n)) = n.
Proof.
  intros. unfold bytes_at. rewrite length_take, length_drop. lia.
Qed.

(** Splitting a range in two. *)
Lemma bytes_at_split buf at_ n m :
  0 <= at_ -> 0 <= n -> 0 <= m ->
  bytes_at buf at_ (n + m)
  = bytes_at buf at_ n ++ bytes_at buf (at_ + n) m.
Proof.
  intros. unfold bytes_at.
  replace (Z.to_nat (n + m)) with (Z.to_nat n + Z.to_nat m)%nat by lia.
  replace (Z.to_nat (at_ + n)) with (Z.to_nat at_ + Z.to_nat n)%nat by lia.
  rewrite <- drop_drop. symmetry. apply take_take_drop.
Qed.

End Memory.

(** ** Object representations round-trip *)

Lemma int_bytes_roundtrip (z : Z) :
  is_int z -> to_int (le_combine (le_split 4 z)) = z.
Proof.
  intros Hz. rewrite le_combine_split.
  change (Z.of_nat 4 * 8) with 32.
  rewrite to_int_mod. now apply to_int_id.
Qed.

Lemma long_bytes_roundtrip (z : Z) :
  is_long z -> to_long (le_combine (le_split 8 z)) = z.
Proof.
  intros Hz. rewrite le_combine_split.
  change (Z.of_nat 8 * 8) with 64.
  rewrite to_long_mod. now apply to_long_id.
Qed.

Lemma bool_byte_roundtrip (b : bool) (rest : list byte) :
  decode_bool (encode_bool b :: rest) = b.
Proof. now destruct b. Qed.

Lemma bytes_at_app_l (a b : list byte) (n : Z) :
  n = Z.of_nat (length a) -> bytes_at (a ++ b) 0 n = a.
Proof.
  intros ->. unfold bytes_at. rewrite Nat2Z.id. simpl.
  apply take_app_length.
Qed.

Lemma bytes_at_app_r (a b : list byte) (off off' n : Z) :
  off = Z.of_nat (length a) + off' -> 0 <= off' ->
  bytes_at (a ++ b) off n = bytes_at b off' n.
Proof.
  intros -> Hoff. unfold bytes_at. f_equal.
  replace (Z.to_nat (Z.of_nat (length a) + off'))
    with (length a + Z.to_nat off')%nat by lia.
  apply drop_app_add.
Qed.

Lemma length_slot_bytes (s : Slot.t) : length (Slot.to_bytes s) = 12%nat.
Proof. reflexivity. Qed.

Lemma slot_bytes_roundtrip (s : Slot.t) (rest : list byte) :
  slot_is_int s -> Slot.of_bytes (Slot.to_bytes s ++ rest) = s.
Proof.
  intros [Hoff Hlen]. destruct s as [off len valid].
  cbn [Slot.offset Slot.length] in Hoff, Hlen.
  change (Slot.of_bytes (Slot.to_bytes (Slot.mk off len valid) ++ rest))
    with {| Slot.offset := to_int (le_combine (le_split 4 off));
            Slot.length := to_int (le_combine (le_split 4 len));
            Slot.isValid := decode_bool [encode_bool valid] |}.
  rewrite !int_bytes_roundtrip, bool_byte_roundtrip by assumption.
  reflexivity.
Qed.

Lemma length_header_bytes (h : PageHeader.t) :
  length (PageHeader.to_bytes h) = 24%nat.
Proof. reflexivity. Qed.

Lemma header_bytes_roundtrip (h : PageHeader.t) :
  is_int (PageHeader.pageId h) -> is_long (PageHeader.lsn h) ->
  is_int (PageHeader.freeSpaceOffset h) ->
  is_int (PageHeader.numberOfSlots h) ->
  PageHeader.of_bytes (PageHeader.to_bytes h) = h.
Proof.
  intros Hid Hlsn Hfso Hn. destruct h as [id d l fso n].
  cbn [PageHeader.pageId PageHeader.lsn PageHeader.freeSpaceOffset
       PageHeader.numberOfSlots] in Hid, Hlsn, Hfso, Hn.
  change (PageHeader.of_bytes
            (PageHeader.to_bytes (PageHeader.mk id d l fso n)))
    with {| PageHeader.pageId := to_int (le_combine (le_split 4 id));
            PageHeader.dirty := decode_bool [encode_bool d];
            PageHeader.lsn := to_long (le_combine (le_split 8 l));
            PageHeader.freeSpaceOffset :=
              to_int (le_combine (le_split 4 fso));
            PageHeader.numberOfSlots :=
              to_int (le_combine (le_split 4 n)) |}.
  rewrite !int_bytes_roundtrip, long_bytes_roundtrip, bool_byte_roundtrip
    by assumption.
  reflexivity.
Qed.

Lemma length_directory_bytes (dir : list Slot.t) :
  Z.of_nat (length (Page.directory_bytes dir))
  = Z.of_nat (length dir) * Slot.sizeof.
Proof.
  unfold Page.directory_bytes, Slot.sizeof.
  induction dir as [| s dir IH]; [reflexivity |].
  cbn [map concat length]. rewrite length_app, length_slot_bytes. lia.
Qed.

Lemma directory_bytes_roundtrip (dir : list Slot.t) (rest : list byte) :
  Forall slot_is_int dir ->
  Page.directory_of_bytes (length dir) (Page.directory_bytes dir ++ rest)
  = dir.
Proof.
  unfold Page.directory_bytes.
  induction 1 as [| s dir Hs Hdir IH]; [reflexivity |].
  cbn [length Page.directory_of_bytes map concat].
  rewrite <- app_assoc.
  rewrite take_app_length' by now rewrite length_slot_bytes.
  rewrite drop_app_length' by now rewrite length_slot_bytes.
  rewrite IH. f_equal.
  rewrite <- (app_nil_r (Slot.to_bytes s)).
  now apply slot_bytes_roundtrip.
Qed.

(** ** Layout of a list of records *)

Lemma total_nil : total [] = 0.
Proof. reflexivity. Qed.

Lemma total_cons (r : list byte) (records : list (list byte)) :
  total (r :: records) = Z.of_nat (length r) + total records.
Proof. unfold total. cbn [concat]. rewrite length_app. lia. Qed.

Lemma total_app (xs ys : list (list byte)) :
  total (xs ++ ys) = total xs + total ys.
Proof. unfold total. rewrite concat_app, length_app. lia. Qed.

Lemma total_nonneg (records : list (list byte)) : 0 <= total records.
Proof. unfold total. lia. Qed.

Lemma length_layout (start : Z) (records : list (list byte)) :
  length (layout start records) = length records.
Proof.
  revert start. induction records as [| r records IH]; intros start;
    cbn [layout length]; [reflexivity | now rewrite IH].
Qed.

Lemma layout_app (start : Z) (xs ys : list (list byte)) :
  layout start (xs ++ ys)
  = layout start xs ++ layout (start + total xs) ys.
Proof.
  revert start. induction xs as [| r xs IH]; intros start.
  - cbn [app layout]. rewrite total_nil. f_equal. lia.
  - cbn [app layout]. rewrite IH, total_cons. do 3 f_equal. lia.
Qed.

(** Every slot of a layout is valid and lies between the start of the
    layout and its end. *)
Lemma layout_bounds (start : Z) (records : list (list byte)) (s : Slot.t) :
  s ∈ layout start records ->
  Slot.isValid s = true
  /\ start <= Slot.offset s
  /\ 0 <= Slot.length s
  /\ slot_end s <= start + total records.
Proof.
  revert start. induction records as [| r records IH]; intros start Hin.
  - cbn [layout] in Hin. now apply elem_of_nil in Hin.
  - cbn [layout] in Hin. rewrite total_cons.
    apply elem_of_cons in Hin as [-> | Hin].
    + unfold slot_end. cbn [Slot.offset Slot.length Slot.isValid].
      pose proof (total_nonneg records). lia.
    + apply IH in Hin. unfold slot_end in *. intuition lia.
Qed.

Lemma layout_shift (start len : Z) (records : list (list byte)) :
  0 <= start -> 0 <= len -> start + len + total records <= INT_MAX ->
  map (Slot.sub_offset len) (layout (start + len) records)
  = layout start records.
Proof.
  revert start. induction records as [| r records IH];
    intros start Hstart Hlen Hmax; [reflexivity |].
  rewrite total_cons in Hmax. pose proof (total_nonneg records).
  cbn [layout map]. f_equal.
  - unfold Slot.sub_offset. cbn [Slot.offset Slot.length Slot.isValid].
    f_equal. rewrite to_int_id; [lia |].
    unfold is_int, INT_MIN, INT_MAX in *. lia.
  - replace (start + len + Z.of_nat (length r))
      with (start + Z.of_nat (length r) + len) by lia.
    apply IH; lia.
Qed.

Lemma layout_slot_is_int (start : Z) (records : list (list byte)) :
  0 <= start -> start + total records <= INT_MAX ->
  Forall slot_is_int (layout start records).
Proof.
  intros Hstart Hmax. apply Forall_forall. intros s Hin.
  apply layout_bounds in Hin. unfold slot_end in Hin.
  unfold slot_is_int, is_int, INT_MIN, INT_MAX in *. lia.
Qed.

(** The slot at position [i] starts where the records before it end. *)
Lemma layout_lookup (start : Z) (records : list (list byte)) (i : nat) :
  layout start records !! i
  = (fun r => {| Slot.offset := start + total (take i records);
                 Slot.length := Z.of_nat (length r);
                 Slot.isValid := true |}) <$> records !! i.
Proof.
  revert start i. induction records as [| r records IH]; intros start i.
  - now destruct i.
  - destruct i as [| i]; cbn [layout take].
    + cbn. rewrite total_nil. do 2 f_equal. lia.
    + cbn [lookup list_lookup]. rewrite IH, total_cons.
      destruct (records !! i); [| reflexivity].
      cbn. do 2 f_equal. lia.
Qed.

(** ** The offset loop of [deleteRecord] *)

Lemma shift_offsets_app (len : Z) (before after : list Slot.t) :
  Page.shift_offsets (length after) (length before) len (before ++ after)
  = before ++ map (Slot.sub_offset len) after.
Proof.
  revert before. induction after as [| s after IH]; intros before.
  - cbn. reflexivity.
  - cbn [length Page.shift_offsets map].
    rewrite alter_app_r_alt by lia.
    rewrite Nat.sub_diag. cbn [alter list_alter].
    replace (S (length before))
      with (length (before ++ [Slot.sub_offset len s]))
      by (rewrite length_app; cbn; lia).
    replace (before ++ Slot.sub_offset len s :: after)
      with ((before ++ [Slot.sub_offset len s]) ++ after)
      by now rewrite <- app_assoc.
    rewrite IH. now rewrite <- app_assoc.
Qed.

(** ** The page operations on in-range arguments *)

Ltac int_side :=
  unfold is_int, INT_MIN, INT_MAX, counters_in_range, slot_end,
    Page.dataAreaSize, PAGE_SIZE, PageHeader.sizeof, Slot.sizeof in *;
  lia.

Lemma slot_directory_size_exact (n : Z) :
  0 <= n -> n * Slot.sizeof <= Page.dataAreaSize ->
  to_int (to_size_t (to_size_t n * Slot.sizeof)) = n * Slot.sizeof.
Proof.
  intros Hn Hfit.
  rewrite (to_size_t_id n) by int_side.
  rewrite to_size_t_id by int_side.
  apply to_int_id. int_side.
Qed.

Lemma getFreeSpace_exact (p : Page.t) :
  counters_in_range p ->
  Page.getFreeSpace p
  = Page.dataAreaSize
    - PageHeader.numberOfSlots (Page.header p) * Slot.sizeof
    - PageHeader.freeSpaceOffset (Page.header p).
Proof.
  intros Hp. unfold Page.getFreeSpace.
  set (n := PageHeader.numberOfSlots (Page.header p)) in *.
  set (fso := PageHeader.freeSpaceOffset (Page.header p)) in *.
  fold Page.dataAreaSize.
  assert (Hn : 0 <= n /\ 0 <= fso /\ fso + n * Slot.sizeof
                                     <= Page.dataAreaSize)
    by (unfold counters_in_range in Hp; fold n fso in Hp; lia).
  rewrite (to_int_id Page.dataAreaSize) by int_side.
  rewrite (to_size_t_id n) by int_side.
  rewrite (to_size_t_id Page.dataAreaSize) by int_side.
  rewrite (to_size_t_id (n * Slot.sizeof)) by int_side.
  rewrite to_size_t_id by int_side.
  rewrite (to_int_id (Page.dataAreaSize - n * Slot.sizeof)) by int_side.
  apply to_int_id. int_side.
Qed.

(** [insertRecord] when nothing overflows: the space check compares
    the mathematical quantities and, when it passes, the record is
    appended. *)
Lemma insertRecord_exact (p : Page.t) (record : list byte) (len : Z) :
  counters_in_range p -> 0 <= len -> len + Slot.sizeof <= INT_MAX ->
  Page.insertRecord p record len
  = if Page.getFreeSpace p <? len + Slot.sizeof then (p, -1)
    else
      ({| Page.header :=
            {| PageHeader.pageId := PageHeader.pageId (Page.header p);
               PageHeader.dirty := true;
               PageHeader.lsn := PageHeader.lsn (Page.header p);
               PageHeader.freeSpaceOffset :=
                 PageHeader.freeSpaceOffset (Page.header p) + len;
               PageHeader.numberOfSlots :=
                 PageHeader.numberOfSlots (Page.header p) + 1 |};
          Page.data :=
            memcpy (Page.data p)
              (PageHeader.freeSpaceOffset (Page.header p)) record len;
          Page.slotDirectory :=
            Page.slotDirectory p
              ++ [{| Slot.offset :=
                       PageHeader.freeSpaceOffset (Page.header p);
                     Slot.length := len;
                     Slot.isValid := true |}] |},
       PageHeader.numberOfSlots (Page.header p)).
Proof.
  intros Hp Hlen Hmax. unfold Page.insertRecord.
  rewrite (to_size_t_id len) by int_side.
  rewrite to_size_t_id by int_side.
  rewrite (to_int_id (len + Slot.sizeof)) by int_side.
  destruct (Page.getFreeSpace p <? len + Slot.sizeof) eqn:Hfull;
    [reflexivity |].
  apply Z.ltb_ge in Hfull. rewrite getFreeSpace_exact in Hfull by assumption.
  rewrite (to_int_id (_ + 1)) by int_side.
  rewrite (to_int_id (_ + len)) by int_side.
  rewrite to_int_id by int_side.
  repeat f_equal. lia.
Qed.

(** [deleteRecord] on a slot it accepts, when nothing overflows. *)
Lemma deleteRecord_exact (p : Page.t) (slotId : Z) (s : Slot.t) :
  names_slot p slotId s -> Slot.isValid s = true ->
  Page.deleteRecord p slotId
  = ({| Page.header :=
          {| PageHeader.pageId := PageHeader.pageId (Page.header p);
             PageHeader.dirty := true;
             PageHeader.lsn := PageHeader.lsn (Page.header p);
             PageHeader.freeSpaceOffset :=
               PageHeader.freeSpaceOffset (Page.header p) - Slot.length s;
             PageHeader.numberOfSlots :=
               PageHeader.numberOfSlots (Page.header p) - 1 |};
        Page.data :=
          if slot_end s <? PageHeader.freeSpaceOffset (Page.header p)
          then memmove (Page.data p) (Slot.offset s) (slot_end s)
                 (PageHeader.freeSpaceOffset (Page.header p) - slot_end s)
          else Page.data p;
        Page.slotDirectory :=
          take (Z.to_nat slotId) (Page.slotDirectory p)
            ++ map (Slot.sub_offset (Slot.length s))
                 (drop (S (Z.to_nat slotId)) (Page.slotDirectory p)) |},
     true).
Proof.
  intros [Hsize Hcount Hidx Hlookup Hoff Hlen Hend Hfree Hdata] Hvalid.
  pose proof (lookup_lt_Some _ _ _ Hlookup) as Hlt.
  unfold Page.deleteRecord, Page.slot_at.
  replace (slotId <? 0) with false by (symmetry; apply Z.ltb_ge; lia).
  replace (PageHeader.numberOfSlots (Page.header p) <=? slotId)
    with false by (symmetry; apply Z.leb_gt; lia).
  cbn [orb]. rewrite Hlookup, Hvalid. cbn [negb].
  fold (slot_end s).
  rewrite (to_int_id (slot_end s)) by int_side.
  rewrite (to_int_id (_ - slot_end s)) by int_side.
  rewrite (to_int_id (_ - Slot.length s)) by int_side.
  rewrite (to_int_id (_ - 1)) by int_side.
  f_equal. f_equal.
  - destruct (slot_end s <? _) eqn:Hlast.
    + apply Z.ltb_lt in Hlast.
      replace (0 <? _ - slot_end s) with true
        by (symmetry; apply Z.ltb_lt; lia).
      reflexivity.
    + apply Z.ltb_ge in Hlast.
      replace (0 <? _ - slot_end s) with false
        by (symmetry; apply Z.ltb_ge; lia).
      reflexivity.
  - rewrite delete_take_drop.
    set (before := take (Z.to_nat slotId) (Page.slotDirectory p)).
    set (after := drop (S (Z.to_nat slotId)) (Page.slotDirectory p)).
    assert (Hbefore : length before = Z.to_nat slotId)
      by (unfold before; rewrite length_take; lia).
    assert (Hafter :
              length after
              = Z.to_nat (PageHeader.numberOfSlots (Page.header p) - 1
                          - slotId))
      by (unfold after; rewrite length_drop; lia).
    rewrite <- Hbefore, <- Hafter. apply shift_offsets_app.
Qed.

(** ** The representation invariant *)

Lemma represents_new : represents Page.new [].
Proof.
  split; try reflexivity.
  - cbn. int_side.
  - constructor.
  - cbn. int_side.
  - cbn. unfold is_long. lia.
Qed.

Lemma represents_counters (p : Page.t) (records : list (list byte)) :
  represents p records -> counters_in_range p.
Proof.
  intros Hp. unfold counters_in_range.
  rewrite (rep_end _ _ Hp) at 1. rewrite (rep_count _ _ Hp) at 1.
  pose proof (rep_space _ _ Hp). lia.
Qed.

(** The bytes of the record area, record by record. *)
Lemma represents_segments (p : Page.t) (before after : list (list byte))
    (r : list byte) :
  represents p (before ++ r :: after) ->
  bytes_at (Page.data p) 0 (total before) = concat before
  /\ bytes_at (Page.data p) (total before) (Z.of_nat (length r)) = r
  /\ bytes_at (Page.data p) (total before + Z.of_nat (length r))
       (total after) = concat after.
Proof.
  intros Hp. pose proof (rep_bytes _ _ Hp) as Hbytes.
  pose proof (rep_end _ _ Hp) as Hend.
  fold (total (before ++ r :: after)) in Hend.
  pose proof (rep_space _ _ Hp) as Hspace.
  pose proof (rep_count _ _ Hp) as Hcount.
  pose proof (rep_data_size _ _ Hp) as Hsize.
  rewrite Hend, total_app, total_cons in Hbytes.
  pose proof (total_nonneg before). pose proof (total_nonneg after).
  rewrite Hend, total_app, total_cons in Hspace.
  assert (Hfit : total before + (Z.of_nat (length r) + total after)
                 <= Z.of_nat (length (Page.data p))) by int_side.
  rewrite bytes_at_split in Hbytes by lia.
  rewrite (bytes_at_split _ (0 + total before)) in Hbytes by lia.
  rewrite concat_app in Hbytes. cbn [concat] in Hbytes.
  apply app_inj_1 in Hbytes as [H1 Hbytes].
  2: { apply Nat2Z.inj. rewrite length_bytes_at by lia. reflexivity. }
  apply app_inj_1 in Hbytes as [H2 H3].
  2: { apply Nat2Z.inj. rewrite length_bytes_at by lia. reflexivity. }
  rewrite Z.add_0_l in H2, H3. auto.
Qed.

Lemma insertRecord_represents (p : Page.t) (records : list (list byte))
    (record : list byte) (len : Z) :
  represents p records -> insert_in_contract record len ->
  Page.getFreeSpace p < len + Slot.sizeof
  /\ Page.insertRecord p record len = (p, -1)
  \/ len + Slot.sizeof <= Page.getFreeSpace p
     /\ snd (Page.insertRecord p record len) = Z.of_nat (length records)
     /\ represents (fst (Page.insertRecord p record len))
          (records ++ [take (Z.to_nat len) record]).
Proof.
  intros Hp (Hpos & Hrecord & Hmax).
  pose proof (represents_counters _ _ Hp) as Hrange.
  rewrite insertRecord_exact by (assumption || lia).
  destruct (Page.getFreeSpace p <? len + Slot.sizeof) eqn:Hfull.
  { left. apply Z.ltb_lt in Hfull. auto. }
  right. apply Z.ltb_ge in Hfull. split; [assumption |].
  rewrite getFreeSpace_exact in Hfull by assumption.
  destruct Hp as [Hsize Hdir Hbytes Hend Hcount Hspace Hne Hid Hlsn].
  fold (total records) in Hend.
  set (fso := PageHeader.freeSpaceOffset (Page.header p)) in *.
  set (n := PageHeader.numberOfSlots (Page.header p)) in *.
  assert (Hr : Z.of_nat (length (take (Z.to_nat len) record)) = len)
    by (rewrite length_take; lia).
  cbn [fst snd]. split; [assumption |].
  split; cbn [Page.header Page.data Page.slotDirectory
              PageHeader.pageId PageHeader.lsn PageHeader.freeSpaceOffset
              PageHeader.numberOfSlots]; try assumption.
  - rewrite <- Hsize. f_equal. apply length_memcpy; int_side.
  - rewrite layout_app, Hdir. cbn [layout]. rewrite Hr.
    do 3 f_equal. lia.
  - rewrite bytes_at_split by int_side.
    rewrite bytes_at_memcpy_before by int_side.
    rewrite Z.add_0_l, bytes_at_memcpy by int_side.
    rewrite Hbytes, concat_app. cbn [concat]. now rewrite app_nil_r.
  - fold (total (records ++ [take (Z.to_nat len) record])).
    rewrite total_app, total_cons, total_nil. lia.
  - rewrite length_app. cbn [length]. lia.
  - int_side.
  - apply Forall_app. split; [assumption |].
    constructor; [| constructor]. intros Hnil. rewrite Hnil in Hr.
    cbn in Hr. lia.
Qed.

Lemma deleteRecord_represents (p : Page.t) (records : list (list byte))
    (slotId : Z) :
  represents p records ->
  (slotId < 0 \/ PageHeader.numberOfSlots (Page.header p) <= slotId)
  /\ Page.deleteRecord p slotId = (p, false)
  \/ 0 <= slotId < PageHeader.numberOfSlots (Page.header p)
     /\ snd (Page.deleteRecord p slotId) = true
     /\ represents (fst (Page.deleteRecord p slotId))
          (delete (Z.to_nat slotId) records).
Proof.
  intros Hp.
  destruct (Z.ltb_spec slotId 0) as [Hneg | Hnonneg].
  { left. split; [lia |]. unfold Page.deleteRecord.
    replace (slotId <? 0) with true by (symmetry; apply Z.ltb_lt; lia).
    reflexivity. }
  destruct (Z.leb_spec (PageHeader.numberOfSlots (Page.header p)) slotId)
    as [Hbig | Hsmall].
  { left. split; [lia |]. unfold Page.deleteRecord.
    replace (_ <=? slotId) with true by (symmetry; apply Z.leb_le; lia).
    now rewrite orb_true_r. }
  right. split; [lia |].
  pose proof (represents_counters _ _ Hp) as Hrange.
  pose proof (rep_count _ _ Hp) as Hcount.
  destruct (lookup_lt_is_Some_2 records (Z.to_nat slotId)) as [r Hr]; [lia |].
  pose proof (take_drop_middle _ _ _ Hr) as Hsplit.
  set (before := take (Z.to_nat slotId) records) in *.
  set (after := drop (S (Z.to_nat slotId)) records) in *.
  assert (Hbefore : length before = Z.to_nat slotId)
    by (unfold before; rewrite length_take; lia).
  rewrite <- Hsplit in Hp.
  destruct (represents_segments _ _ _ _ Hp) as (Hseg1 & Hseg2 & Hseg3).
  destruct Hp as [Hsize Hdir Hbytes Hend _ Hspace Hne Hid Hlsn].
  fold (total (before ++ r :: after)) in Hend.
  rewrite total_app, total_cons in Hend.
  pose proof (total_nonneg before). pose proof (total_nonneg after).
  set (s := {| Slot.offset := total before;
               Slot.length := Z.of_nat (length r);
               Slot.isValid := true |}).
  assert (Hslot : Page.slotDirectory p !! Z.to_nat slotId = Some s).
  { rewrite Hdir, layout_lookup, Hsplit, Hr. cbn. unfold s.
    reflexivity. }
  assert (Hnames : names_slot p slotId s).
  { split; unfold slot_end; cbn [s Slot.offset Slot.length];
      try assumption; try int_side.
    rewrite Hdir, length_layout, Hsplit. lia. }
  rewrite (deleteRecord_exact p slotId s Hnames eq_refl).
  cbn [fst snd]. split; [reflexivity |].
  rewrite delete_take_drop. fold before after.
  assert (Hlayout :
            Page.slotDirectory p
            = layout 0 before
                ++ s :: layout (total before + Z.of_nat (length r)) after).
  { rewrite Hdir, layout_app. cbn [layout]. now rewrite Z.add_0_l. }
  unfold slot_end. cbn [s Slot.offset Slot.length].
  set (fso := PageHeader.freeSpaceOffset (Page.header p)) in *.
  split; cbn [Page.header Page.data Page.slotDirectory
              PageHeader.pageId PageHeader.lsn PageHeader.freeSpaceOffset
              PageHeader.numberOfSlots]; try assumption.
  - destruct (_ <? fso); [| assumption].
    rewrite <- Hsize. f_equal. unfold memmove.
    apply length_memcpy; rewrite ?length_drop; int_side.
  - rewrite Hlayout.
    rewrite take_app_length' by (rewrite length_layout; lia).
    rewrite (cons_middle s), app_assoc.
    rewrite drop_app_length'
      by (rewrite length_app, length_layout; cbn; lia).
    rewrite layout_shift by int_side.
    rewrite layout_app. now rewrite Z.add_0_l.
  - rewrite concat_app, <- Hseg1, <- Hseg3.
    replace (fso - Z.of_nat (length r)) with (total before + total after)
      by lia.
    rewrite bytes_at_split by lia. rewrite Z.add_0_l.
    destruct (Z.ltb_spec (total before + Z.of_nat (length r)) fso)
      as [Hmore | Hlast].
    + unfold memmove.
      rewrite bytes_at_memcpy_before by int_side.
      replace (fso - (total before + Z.of_nat (length r)))
        with (total after) by lia.
      rewrite bytes_at_memcpy by (rewrite ?length_drop; int_side).
      reflexivity.
    + replace (total after) with 0 by lia. reflexivity.
  - fold (total (before ++ after)). rewrite total_app. lia.
  - rewrite Hcount, <- Hsplit, !length_app. cbn [length]. lia.
  - rewrite <- Hsplit, length_app in Hcount. cbn [length] in Hcount.
    int_side.
  - apply Forall_app in Hne as [Hne1 Hne2].
    apply Forall_cons in Hne2 as [_ Hne2]. now apply Forall_app.
Qed.

Lemma reachable_represents (p : Page.t) :
  reachable p -> exists records, represents p records.
Proof.
  induction 1 as [| p record len _ [records Hp] Hcontract
                  | p slotId _ [records Hp]].
  - exists []. apply represents_new.
  - destruct (insertRecord_represents _ _ _ _ Hp Hcontract)
      as [[_ ->] | (_ & _ & Hp')]; eauto.
  - destruct (deleteRecord_represents _ _ slotId Hp)
      as [[_ ->] | (_ & _ & Hp')]; eauto.
Qed.

(** ** Serialisation *)

(** A page that stores [records] survives [serialize] followed by
    [deserialize] into any page object, whatever the buffer held
    before. *)
Lemma serialize_deserialize (p q : Page.t) (records : list (list byte))
    (buffer : list byte) :
  represents p records ->
  Z.of_nat (length buffer) = PAGE_SIZE ->
  Page.header (Page.deserialize q (Page.serialize p buffer)) = Page.header p
  /\ bytes_at (Page.data (Page.deserialize q (Page.serialize p buffer))) 0
       (PageHeader.freeSpaceOffset (Page.header p))
     = bytes_at (Page.data p) 0 (PageHeader.freeSpaceOffset (Page.header p))
  /\ Page.slotDirectory (Page.deserialize q (Page.serialize p buffer))
     = Page.slotDirectory p.
Proof.
  intros Hp Hbuffer.
  pose proof (represents_counters _ _ Hp) as (Hfso & Hn & Hfit).
  destruct Hp as [Hsize Hdir _ Hend Hcount _ _ Hid Hlsn].
  set (h := Page.header p) in *.
  set (fso := PageHeader.freeSpaceOffset h) in *.
  set (n := PageHeader.numberOfSlots h) in *.
  assert (Hlen : Z.of_nat (length (Page.slotDirectory p)) = n)
    by (rewrite Hdir, length_layout; lia).
  assert (Hints : Forall slot_is_int (Page.slotDirectory p)).
  { rewrite Hdir. apply layout_slot_is_int; [lia |].
    fold (total records) in Hend. int_side. }
  pose proof (length_directory_bytes (Page.slotDirectory p)) as Hdb.
  rewrite Hlen in Hdb.
  unfold Page.serialize. fold h fso n.
  rewrite slot_directory_size_exact by int_side.
  fold Page.dataAreaSize.
  rewrite (to_int_id Page.dataAreaSize) by int_side.
  rewrite (to_int_id (_ - _)) by int_side.
  set (b1 := memcpy buffer 0 (PageHeader.to_bytes h) PageHeader.sizeof).
  set (b2 := memcpy b1 PageHeader.sizeof (Page.data p) fso).
  set (start := PageHeader.sizeof + (Page.dataAreaSize - n * Slot.sizeof)).
  set (b3 := memcpy b2 start (Page.directory_bytes (Page.slotDirectory p))
               (n * Slot.sizeof)).
  assert (Hb1 : length b1 = length buffer)
    by (apply length_memcpy; rewrite ?length_header_bytes; int_side).
  assert (Hb2 : length b2 = length b1)
    by (apply length_memcpy; int_side).
  assert (Hb3 : length b3 = length b2)
    by (apply length_memcpy; unfold start; int_side).
  assert (Hheader :
            PageHeader.of_bytes (bytes_at b3 0 PageHeader.sizeof) = h).
  { unfold b3. rewrite bytes_at_memcpy_before by (unfold start; int_side).
    unfold b2. rewrite bytes_at_memcpy_before by int_side.
    unfold b1.
    rewrite bytes_at_memcpy by (rewrite ?length_header_bytes; int_side).
    rewrite firstn_all2 by (rewrite length_header_bytes; int_side).
    apply header_bytes_roundtrip; try assumption; subst fso n; int_side. }
  unfold Page.deserialize.
  cbn [Page.header Page.data Page.slotDirectory].
  rewrite Hheader. fold fso n.
  split; [reflexivity |]. split.
  - rewrite bytes_at_memcpy by (rewrite ?length_drop; int_side).
    change (take (Z.to_nat fso) (drop (Z.to_nat PageHeader.sizeof) b3))
      with (bytes_at b3 PageHeader.sizeof fso).
    unfold b3. rewrite bytes_at_memcpy_before by (unfold start; int_side).
    unfold b2. rewrite bytes_at_memcpy by int_side.
    reflexivity.
  - rewrite slot_directory_size_exact by int_side.
    fold Page.dataAreaSize.
    rewrite (to_int_id Page.dataAreaSize) by int_side.
    rewrite (to_int_id (_ - _)) by int_side.
    fold start. unfold b3.
    rewrite drop_memcpy by (unfold start; int_side).
    rewrite firstn_all2 by lia.
    replace (Z.to_nat n) with (length (Page.slotDirectory p)) by lia.
    now apply directory_bytes_roundtrip.
Qed.


(** ** Order of the slots of a layout *)

Lemma total_take_le (records : list (list byte)) (i j : nat) :
  (i <= j)%nat -> total (take i records) <= total (take j records).
Proof.
  intros Hij. replace j with (i + (j - i))%nat by lia.
  rewrite <- take_take_drop, total_app.
  pose proof (total_nonneg (take (j - i) (drop i records))). lia.
Qed.

Lemma total_take_S (records : list (list byte)) (i : nat) (r : list byte) :
  records !! i = Some r ->
  total (take (S i) records)
  = total (take i records) + Z.of_nat (length r).
Proof.
  intros Hr. rewrite (take_S_r _ _ _ Hr), total_app, total_cons, total_nil.
  lia.
Qed.

(** A slot of a layout, read back. *)
Lemma layout_lookup_Some (start : Z) (records : list (list byte)) (i : nat)
    (s : Slot.t) :
  layout start records !! i = Some s ->
  exists r,
    records !! i = Some r
    /\ s = {| Slot.offset := start + total (take i records);
              Slot.length := Z.of_nat (length r);
              Slot.isValid := true |}.
Proof.
  rewrite layout_lookup. destruct (records !! i) as [r |]; [| discriminate].
  cbn. intros [= <-]. eauto.
Qed.

(** In a layout the record of an earlier slot ends no later than the
    record of a later slot starts; with non-empty records the offsets
    increase strictly. *)
Lemma layout_ordered (start : Z) (records : list (list byte)) (i j : nat)
    (si sj : Slot.t) :
  layout start records !! i = Some si ->
  layout start records !! j = Some sj ->
  (i < j)%nat ->
  slot_end si <= Slot.offset sj.
Proof.
  intros Hi Hj Hij.
  apply layout_lookup_Some in Hi as (ri & Hri & ->).
  apply layout_lookup_Some in Hj as (rj & Hrj & ->).
  unfold slot_end. cbn [Slot.offset Slot.length].
  pose proof (total_take_S _ _ _ Hri).
  pose proof (total_take_le records (S i) j). lia.
Qed.

Lemma layout_slot_nonempty (start : Z) (records : list (list byte))
    (i : nat) (s : Slot.t) :
  Forall (fun r => r <> []) records ->
  layout start records !! i = Some s -> 0 < Slot.length s.
Proof.
  intros Hne Hi. apply layout_lookup_Some in Hi as (r & Hr & ->).
  cbn [Slot.length]. rewrite Forall_lookup in Hne.
  specialize (Hne _ _ Hr). destruct r; [congruence | cbn; lia].
Qed.

(** ** Effects of [deleteRecord] *)

(** The deletion of a valid slot, slot by position: everything after
    the deleted entry moves down one position and has the deleted
    length taken off its offset. *)
Lemma deleteRecord_by_position (p : Page.t) (slotId : Z) (s : Slot.t) :
  names_slot p slotId s -> Slot.isValid s = true ->
  let p' := fst (Page.deleteRecord p slotId) in
  snd (Page.deleteRecord p slotId) = true
  /\ PageHeader.freeSpaceOffset (Page.header p')
     = PageHeader.freeSpaceOffset (Page.header p) - Slot.length s
  /\ PageHeader.numberOfSlots (Page.header p')
     = PageHeader.numberOfSlots (Page.header p) - 1
  /\ PageHeader.dirty (Page.header p') = true
  /\ bytes_at (Page.data p') 0 (Slot.offset s)
     = bytes_at (Page.data p) 0 (Slot.offset s)
  /\ bytes_at (Page.data p') (Slot.offset s)
       (PageHeader.freeSpaceOffset (Page.header p) - slot_end s)
     = bytes_at (Page.data p) (slot_end s)
         (PageHeader.freeSpaceOffset (Page.header p) - slot_end s)
  /\ Page.slotDirectory p'
     = take (Z.to_nat slotId) (Page.slotDirectory p)
         ++ map (Slot.sub_offset (Slot.length s))
              (drop (S (Z.to_nat slotId)) (Page.slotDirectory p)).
Proof.
  intros Hnames Hvalid p'. subst p'.
  rewrite (deleteRecord_exact p slotId s Hnames Hvalid).
  destruct Hnames as [Hsize Hcount Hidx Hlookup Hoff Hlen Hend Hfree Hdata].
  cbn [fst snd Page.header Page.data Page.slotDirectory
       PageHeader.freeSpaceOffset PageHeader.numberOfSlots PageHeader.dirty].
  repeat split.
  - destruct (slot_end s <? _); [| reflexivity].
    unfold memmove. apply bytes_at_memcpy_before; int_side.
  - destruct (Z.ltb_spec (slot_end s)
                (PageHeader.freeSpaceOffset (Page.header p)))
      as [Hmore | Hlast].
    + unfold memmove.
      rewrite bytes_at_memcpy by (rewrite ?length_drop; int_side).
      reflexivity.
    + replace (_ - slot_end s) with 0 by lia. reflexivity.
Qed.

Lemma sub_offset_exact (len : Z) (t : Slot.t) :
  0 <= len -> len <= Slot.offset t <= INT_MAX ->
  Slot.sub_offset len t
  = {| Slot.offset := Slot.offset t - len;
       Slot.length := Slot.length t;
       Slot.isValid := Slot.isValid t |}.
Proof.
  intros Hlen Hoff. unfold Slot.sub_offset. f_equal.
  apply to_int_id. int_side.
Qed.

(** On a page that stores [records], deletion follows the offset rule
    of the specification. *)
Lemma deleteRecord_compacts (p : Page.t) (records : list (list byte))
    (slotId : Z) :
  represents p records ->
  0 <= slotId < PageHeader.numberOfSlots (Page.header p) ->
  exists s,
    Page.slot_at (Page.slotDirectory p) slotId = Some s
    /\ Slot.isValid s = true
    /\ compacts_by_offset p slotId s.
Proof.
  intros Hp Hrange.
  pose proof (represents_counters _ _ Hp) as Hcounters.
  pose proof Hp as [Hsize Hdir Hbytes Hend Hcount Hspace Hne Hid Hlsn].
  fold (total records) in Hend.
  destruct (lookup_lt_is_Some_2 (Page.slotDirectory p) (Z.to_nat slotId))
    as [s Hs]; [rewrite Hdir, length_layout; lia |].
  exists s.
  pose proof Hs as Hs'. rewrite Hdir in Hs'.
  pose proof (layout_bounds 0 records s) as Hbounds.
  destruct Hbounds as (Hvalid & Hoff & Hlen & Hslot_end);
    [eapply list_elem_of_lookup_2; exact Hs' |].
  pose proof (layout_slot_nonempty _ _ _ _ Hne Hs') as Hpos.
  assert (Hnames : names_slot p slotId s).
  { split; try assumption; try int_side.
    rewrite Hdir, length_layout. lia. }
  destruct (deleteRecord_by_position p slotId s Hnames Hvalid)
    as (Hres & Hfso & Hn & Hdirty & Hkept & Hmoved & Hdirectory).
  split; [| split; [assumption |]].
  { unfold Page.slot_at.
    replace (slotId <? 0) with false by (symmetry; apply Z.ltb_ge; lia).
    assumption. }
  split; try assumption.
  - rewrite Hdirectory, length_app, length_take, length_map, length_drop.
    rewrite Hdir, length_layout. lia.
  - intros j t Ht Hj. rewrite Hdirectory.
    pose proof Ht as Ht'. rewrite Hdir in Ht'.
    pose proof (lookup_lt_Some _ _ _ Ht) as Hjlt.
    pose proof (layout_bounds 0 records t) as Htb.
    destruct Htb as (_ & Htoff & Htlen & Htend);
      [eapply list_elem_of_lookup_2; exact Ht' |].
    destruct (Nat.ltb_spec j (Z.to_nat slotId)) as [Hlt | Hge].
    + rewrite lookup_app_l by (rewrite length_take; lia).
      rewrite lookup_take_lt by lia. rewrite Ht. f_equal.
      pose proof (layout_ordered _ _ _ _ _ _ Ht' Hs' Hlt) as Hord.
      pose proof (layout_slot_nonempty _ _ _ _ Hne Ht') as Htpos.
      replace (Slot.offset s <? Slot.offset t) with false
        by (symmetry; apply Z.ltb_ge; unfold slot_end in Hord; lia).
      now destruct t.
    + assert (Hgt : (Z.to_nat slotId < j)%nat) by lia.
      rewrite lookup_app_r by (rewrite length_take; lia).
      rewrite length_take, list_lookup_fmap, lookup_drop.
      replace (S (Z.to_nat slotId)
               + (j - 1
                  - (Z.to_nat slotId
                       `min` length (Page.slotDirectory p))))%nat
        with j by lia.
      rewrite Ht. cbn [fmap option_fmap option_map].
      pose proof (layout_ordered _ _ _ _ _ _ Hs' Ht' Hgt) as Hord.
      unfold slot_end in Hord.
      replace (Slot.offset s <? Slot.offset t) with true
        by (symmetry; apply Z.ltb_lt; lia).
      f_equal. apply sub_offset_exact; unfold slot_end in *; int_side.
Qed.

(** ** Reading records back *)

Lemma out_of_range_getRecord (p : Page.t) (slotId : Z) :
  slotId < 0 \/ PageHeader.numberOfSlots (Page.header p) <= slotId ->
  Page.getRecord p slotId = (-1, []).
Proof.
  intros Hout. unfold Page.getRecord.
  destruct (Z.ltb_spec slotId 0); [reflexivity |].
  destruct (Z.leb_spec (PageHeader.numberOfSlots (Page.header p)) slotId);
    [reflexivity | lia].
Qed.

(** [getRecord] returns the record stored under the slot id. *)
Lemma getRecord_represents (p : Page.t) (records : list (list byte))
    (slotId : Z) :
  represents p records ->
  0 <= slotId < PageHeader.numberOfSlots (Page.header p) ->
  exists r,
    records !! Z.to_nat slotId = Some r
    /\ Page.getRecord p slotId = (Z.of_nat (length r), r).
Proof.
  intros Hp Hrange. pose proof (rep_count _ _ Hp) as Hcount.
  destruct (lookup_lt_is_Some_2 records (Z.to_nat slotId)) as [r Hr]; [lia |].
  exists r. split; [assumption |].
  pose proof (take_drop_middle _ _ _ Hr) as Hsplit.
  pose proof Hp as Hp'. rewrite <- Hsplit in Hp'.
  destruct (represents_segments _ _ _ _ Hp') as (_ & Hseg & _).
  unfold Page.getRecord, Page.slot_at.
  replace (slotId <? 0) with false by (symmetry; apply Z.ltb_ge; lia).
  replace (_ <=? slotId) with false by (symmetry; apply Z.leb_gt; lia).
  cbn [orb]. rewrite (rep_directory _ _ Hp), layout_lookup, Hr.
  cbn [fmap option_fmap option_map negb
       Slot.isValid Slot.length Slot.offset].
  rewrite Z.add_0_l, Hseg. reflexivity.
Qed.

(** ** Shape of the record area *)

(** Every byte position of a layout belongs to one of its slots. *)
Lemma layout_covers (start : Z) (records : list (list byte)) (b : Z) :
  start <= b < start + total records ->
  exists i s,
    layout start records !! i = Some s
    /\ Slot.offset s <= b < slot_end s.
Proof.
  revert start. induction records as [| r records IH]; intros start Hb.
  - rewrite total_nil in Hb. lia.
  - rewrite total_cons in Hb.
    destruct (Z.lt_ge_cases b (start + Z.of_nat (length r))) as [Hin | Hlater].
    + exists 0%nat. eexists. split; [reflexivity |].
      unfold slot_end. cbn [Slot.offset Slot.length]. lia.
    + destruct (IH (start + Z.of_nat (length r))) as (i & s & Hs & Hbs);
        [lia |].
      exists (S i), s. auto.
Qed.

(** The records the slots of a layout point to are the records laid
    out. *)
Lemma layout_reads_back (data : list byte) (start : Z)
    (records : list (list byte)) :
  0 <= start -> start + total records <= Z.of_nat (length data) ->
  bytes_at data start (total records) = concat records ->
  map (fun s => bytes_at data (Slot.offset s) (Slot.length s))
    (layout start records)
  = records.
Proof.
  revert start. induction records as [| r records IH];
    intros start Hstart Hfit Hbytes; [reflexivity |].
  rewrite total_cons in Hfit, Hbytes. pose proof (total_nonneg records).
  rewrite bytes_at_split in Hbytes by lia. cbn [concat] in Hbytes.
  apply app_inj_1 in Hbytes as [Hr Hrest].
  2: { apply Nat2Z.inj. rewrite length_bytes_at by lia. reflexivity. }
  cbn [layout map Slot.offset Slot.length]. rewrite Hr. f_equal.
  apply IH; (lia || assumption).
Qed.

(** The layout facts of a page that stores [records]. *)
Lemma represents_shape (p : Page.t) (records : list (list byte)) :
  represents p records ->
  let fso := PageHeader.freeSpaceOffset (Page.header p) in
  let dir := Page.slotDirectory p in
  bytes_at (Page.data p) 0 fso
  = concat (map (fun s =>
                   bytes_at (Page.data p) (Slot.offset s) (Slot.length s))
              dir)
  /\ (forall b, 0 <= b < fso ->
        exists i s,
          dir !! i = Some s /\ Slot.isValid s = true
          /\ Slot.offset s <= b < slot_end s)
  /\ (forall i s,
        dir !! i = Some s ->
        Slot.isValid s = true /\ 0 <= Slot.offset s /\ 0 < Slot.length s
        /\ slot_end s <= fso)
  /\ (forall i j si sj,
        dir !! i = Some si -> dir !! j = Some sj -> (i < j)%nat ->
        Slot.offset si < Slot.offset sj /\ slot_end si <= Slot.offset sj)
  /\ (forall i si sj,
        dir !! i = Some si -> dir !! S i = Some sj ->
        slot_end si = Slot.offset sj).
Proof.
  intros [Hsize Hdir Hbytes Hend Hcount Hspace Hne Hid Hlsn] fso dir.
  subst fso dir. fold (total records) in Hend.
  pose proof (total_nonneg records) as Hnonneg.
  rewrite Hdir. repeat apply conj.
  - rewrite layout_reads_back; [assumption | lia | int_side |].
    now rewrite <- Hend.
  - intros b Hb. rewrite Hend in Hb.
    destruct (layout_covers 0 records b) as (i & s & Hs & Hbs); [lia |].
    exists i, s. repeat split; try tauto.
    eapply layout_bounds, list_elem_of_lookup_2, Hs.
  - intros i s Hs.
    pose proof (layout_slot_nonempty _ _ _ _ Hne Hs).
    destruct (layout_bounds 0 records s) as (? & ? & ? & ?);
      [eapply list_elem_of_lookup_2, Hs |].
    repeat split; (assumption || lia).
  - intros i j si sj Hi Hj Hij.
    pose proof (layout_ordered _ _ _ _ _ _ Hi Hj Hij) as Hord.
    pose proof (layout_slot_nonempty _ _ _ _ Hne Hi).
    unfold slot_end in *. lia.
  - intros i si sj Hi Hj.
    apply layout_lookup_Some in Hi as (ri & Hri & ->).
    apply layout_lookup_Some in Hj as (rj & Hrj & ->).
    unfold slot_end. cbn [Slot.offset Slot.length].
    rewrite (total_take_S _ _ _ Hri). lia.
Qed.

(** ** Pages with records of any length *)

Lemma represents_stores (p : Page.t) (records : list (list byte)) :
  represents p records -> stores p records.
Proof. intros []. split; assumption. Qed.

Lemma stores_new : stores Page.new [].
Proof. apply represents_stores, represents_new. Qed.

Lemma stores_counters (p : Page.t) (records : list (list byte)) :
  stores p records -> counters_in_range p.
Proof.
  intros Hp. unfold counters_in_range.
  rewrite (st_end _ _ Hp) at 1. rewrite (st_count _ _ Hp) at 1.
  pose proof (st_space _ _ Hp). lia.
Qed.

Lemma stores_segments (p : Page.t) (before after : list (list byte))
    (r : list byte) :
  stores p (before ++ r :: after) ->
  bytes_at (Page.data p) 0 (total before) = concat before
  /\ bytes_at (Page.data p) (total before) (Z.of_nat (length r)) = r
  /\ bytes_at (Page.data p) (total before + Z.of_nat (length r))
       (total after) = concat after.
Proof.
  intros Hp. pose proof (st_bytes _ _ Hp) as Hbytes.
  pose proof (st_end _ _ Hp) as Hend.
  fold (total (before ++ r :: after)) in Hend.
  pose proof (st_space _ _ Hp) as Hspace.
  pose proof (st_count _ _ Hp) as Hcount.
  pose proof (st_data_size _ _ Hp) as Hsize.
  rewrite Hend, total_app, total_cons in Hbytes.
  pose proof (total_nonneg before). pose proof (total_nonneg after).
  rewrite Hend, total_app, total_cons in Hspace.
  assert (Hfit : total before + (Z.of_nat (length r) + total after)
                 <= Z.of_nat (length (Page.data p))) by int_side.
  rewrite bytes_at_split in Hbytes by lia.
  rewrite (bytes_at_split _ (0 + total before)) in Hbytes by lia.
  rewrite concat_app in Hbytes. cbn [concat] in Hbytes.
  apply app_inj_1 in Hbytes as [H1 Hbytes].
  2: { apply Nat2Z.inj. rewrite length_bytes_at by lia. reflexivity. }
  apply app_inj_1 in Hbytes as [H2 H3].
  2: { apply Nat2Z.inj. rewrite length_bytes_at by lia. reflexivity. }
  rewrite Z.add_0_l in H2, H3. auto.
Qed.

Lemma insertRecord_stores (p : Page.t) (records : list (list byte))
    (record : list byte) (len : Z) :
  stores p records -> insert_defined record len ->
  Page.getFreeSpace p < len + Slot.sizeof
  /\ Page.insertRecord p record len = (p, -1)
  \/ len + Slot.sizeof <= Page.getFreeSpace p
     /\ snd (Page.insertRecord p record len) = Z.of_nat (length records)
     /\ stores (fst (Page.insertRecord p record len))
          (records ++ [take (Z.to_nat len) record]).
Proof.
  intros Hp (Hpos & Hrecord & Hmax).
  pose proof (stores_counters _ _ Hp) as Hrange.
  rewrite insertRecord_exact by (assumption || lia).
  destruct (Page.getFreeSpace p <? len + Slot.sizeof) eqn:Hfull.
  { left. apply Z.ltb_lt in Hfull. auto. }
  right. apply Z.ltb_ge in Hfull. split; [assumption |].
  rewrite getFreeSpace_exact in Hfull by assumption.
  destruct Hp as [Hsize Hdir Hbytes Hend Hcount Hspace Hid Hlsn].
  fold (total records) in Hend.
  set (fso := PageHeader.freeSpaceOffset (Page.header p)) in *.
  set (n := PageHeader.numberOfSlots (Page.header p)) in *.
  assert (Hr : Z.of_nat (length (take (Z.to_nat len) record)) = len)
    by (rewrite length_take; lia).
  cbn [fst snd]. split; [assumption |].
  split; cbn [Page.header Page.data Page.slotDirectory
              PageHeader.pageId PageHeader.lsn PageHeader.freeSpaceOffset
              PageHeader.numberOfSlots]; try assumption.
  - rewrite <- Hsize. f_equal. apply length_memcpy; int_side.
  - rewrite layout_app, Hdir. cbn [layout]. rewrite Hr.
    do 3 f_equal. lia.
  - rewrite bytes_at_split by int_side.
    rewrite bytes_at_memcpy_before by int_side.
    rewrite Z.add_0_l, bytes_at_memcpy by int_side.
    rewrite Hbytes, concat_app. cbn [concat]. now rewrite app_nil_r.
  - fold (total (records ++ [take (Z.to_nat len) record])).
    rewrite total_app, total_cons, total_nil. lia.
  - rewrite length_app. cbn [length]. lia.
  - int_side.
Qed.

(** On a page that stores [records] every slot id in range names a
    valid slot, and the directory is in offset order around it. *)
Lemma stores_names_slot (p : Page.t) (records : list (list byte))
    (slotId : Z) :
  stores p records ->
  0 <= slotId < PageHeader.numberOfSlots (Page.header p) ->
  exists s,
    Page.slot_at (Page.slotDirectory p) slotId = Some s
    /\ Slot.isValid s = true
    /\ names_slot p slotId s
    /\ offset_ordered p slotId s.
Proof.
  intros Hp Hrange.
  pose proof (stores_counters _ _ Hp) as Hcounters.
  pose proof Hp as [Hsize Hdir Hbytes Hend Hcount Hspace Hid Hlsn].
  fold (total records) in Hend.
  destruct (lookup_lt_is_Some_2 (Page.slotDirectory p) (Z.to_nat slotId))
    as [s Hs]; [rewrite Hdir, length_layout; lia |].
  exists s.
  pose proof Hs as Hs'. rewrite Hdir in Hs'.
  destruct (layout_bounds 0 records s) as (Hvalid & Hoff & Hlen & Hslot_end);
    [eapply list_elem_of_lookup_2; exact Hs' |].
  split.
  { unfold Page.slot_at.
    replace (slotId <? 0) with false by (symmetry; apply Z.ltb_ge; lia).
    assumption. }
  split; [assumption |]. split.
  { split; try assumption; try int_side.
    rewrite Hdir, length_layout. lia. }
  intros j t Ht. pose proof Ht as Ht'. rewrite Hdir in Ht'.
  destruct (layout_bounds 0 records t) as (_ & Htoff & Htlen & Htend);
    [eapply list_elem_of_lookup_2; exact Ht' |].
  split; intros Hj.
  - pose proof (layout_ordered _ _ _ _ _ _ Ht' Hs' Hj) as Hord.
    unfold slot_end in Hord. lia.
  - pose proof (layout_ordered _ _ _ _ _ _ Hs' Ht' Hj) as Hord.
    split; [assumption | int_side].
Qed.

Lemma deleteRecord_stores (p : Page.t) (records : list (list byte))
    (slotId : Z) :
  stores p records ->
  (slotId < 0 \/ PageHeader.numberOfSlots (Page.header p) <= slotId)
  /\ Page.deleteRecord p slotId = (p, false)
  \/ 0 <= slotId < PageHeader.numberOfSlots (Page.header p)
     /\ snd (Page.deleteRecord p slotId) = true
     /\ stores (fst (Page.deleteRecord p slotId))
          (delete (Z.to_nat slotId) records).
Proof.
  intros Hp.
  destruct (Z.ltb_spec slotId 0) as [Hneg | Hnonneg].
  { left. split; [lia |]. unfold Page.deleteRecord.
    replace (slotId <? 0) with true by (symmetry; apply Z.ltb_lt; lia).
    reflexivity. }
  destruct (Z.leb_spec (PageHeader.numberOfSlots (Page.header p)) slotId)
    as [Hbig | Hsmall].
  { left. split; [lia |]. unfold Page.deleteRecord.
    replace (_ <=? slotId) with true by (symmetry; apply Z.leb_le; lia).
    now rewrite orb_true_r. }
  right. split; [lia |].
  pose proof (stores_counters _ _ Hp) as Hrange.
  pose proof (st_count _ _ Hp) as Hcount.
  destruct (lookup_lt_is_Some_2 records (Z.to_nat slotId)) as [r Hr]; [lia |].
  pose proof (take_drop_middle _ _ _ Hr) as Hsplit.
  set (before := take (Z.to_nat slotId) records) in *.
  set (after := drop (S (Z.to_nat slotId)) records) in *.
  assert (Hbefore : length before = Z.to_nat slotId)
    by (unfold before; rewrite length_take; lia).
  rewrite <- Hsplit in Hp.
  destruct (stores_segments _ _ _ _ Hp) as (Hseg1 & Hseg2 & Hseg3).
  destruct Hp as [Hsize Hdir Hbytes Hend _ Hspace Hid Hlsn].
  fold (total (before ++ r :: after)) in Hend.
  rewrite total_app, total_cons in Hend.
  pose proof (total_nonneg before). pose proof (total_nonneg after).
  set (s := {| Slot.offset := total before;
               Slot.length := Z.of_nat (length r);
               Slot.isValid := true |}).
  assert (Hslot : Page.slotDirectory p !! Z.to_nat slotId = Some s).
  { rewrite Hdir, layout_lookup, Hsplit, Hr. cbn. unfold s.
    reflexivity. }
  assert (Hnames : names_slot p slotId s).
  { split; unfold slot_end; cbn [s Slot.offset Slot.length];
      try assumption; try int_side.
    rewrite Hdir, length_layout, Hsplit. lia. }
  rewrite (deleteRecord_exact p slotId s Hnames eq_refl).
  cbn [fst snd]. split; [reflexivity |].
  rewrite delete_take_drop. fold before after.
  assert (Hlayout :
            Page.slotDirectory p
            = layout 0 before
                ++ s :: layout (total before + Z.of_nat (length r)) after).
  { rewrite Hdir, layout_app. cbn [layout]. now rewrite Z.add_0_l. }
  unfold slot_end. cbn [s Slot.offset Slot.length].
  set (fso := PageHeader.freeSpaceOffset (Page.header p)) in *.
  split; cbn [Page.header Page.data Page.slotDirectory
              PageHeader.pageId PageHeader.lsn PageHeader.freeSpaceOffset
              PageHeader.numberOfSlots]; try assumption.
  - destruct (_ <? fso); [| assumption].
    rewrite <- Hsize. f_equal. unfold memmove.
    apply length_memcpy; rewrite ?length_drop; int_side.
  - rewrite Hlayout.
    rewrite take_app_length' by (rewrite length_layout; lia).
    rewrite (cons_middle s), app_assoc.
    rewrite drop_app_length'
      by (rewrite length_app, length_layout; cbn; lia).
    rewrite layout_shift by int_side.
    rewrite layout_app. now rewrite Z.add_0_l.
  - rewrite concat_app, <- Hseg1, <- Hseg3.
    replace (fso - Z.of_nat (length r)) with (total before + total after)
      by lia.
    rewrite bytes_at_split by lia. rewrite Z.add_0_l.
    destruct (Z.ltb_spec (total before + Z.of_nat (length r)) fso)
      as [Hmore | Hlast].
    + unfold memmove.
      rewrite bytes_at_memcpy_before by int_side.
      replace (fso - (total before + Z.of_nat (length r)))
        with (total after) by lia.
      rewrite bytes_at_memcpy by (rewrite ?length_drop; int_side).
      reflexivity.
    + replace (total after) with 0 by lia. reflexivity.
  - fold (total (before ++ after)). rewrite total_app. lia.
  - rewrite Hcount, <- Hsplit, !length_app. cbn [length]. lia.
  - rewrite <- Hsplit, length_app in Hcount. cbn [length] in Hcount.
    int_side.
Qed.

Lemma reachable_any_stores (p : Page.t) :
  reachable_any p -> exists records, stores p records.
Proof.
  induction 1 as [| p record len _ [records Hp] Hdefined
                  | p slotId _ [records Hp]].
  - exists []. apply stores_new.
  - destruct (insertRecord_stores _ _ _ _ Hp Hdefined)
      as [[_ ->] | (_ & _ & Hp')]; eauto.
  - destruct (deleteRecord_stores _ _ slotId Hp)
      as [[_ ->] | (_ & _ & Hp')]; eauto.
Qed.

Lemma reachable_reachable_any (p : Page.t) :
  reachable p -> reachable_any p.
Proof.
  induction 1 as [| p record len _ IH (Hpos & Hrecord & Hmax) | p slotId _ IH].
  - constructor.
  - apply reachable_any_insert; [assumption |].
    unfold insert_defined. lia.
  - now apply reachable_any_delete.
Qed.

Lemma getRecord_stores (p : Page.t) (records : list (list byte))
    (slotId : Z) :
  stores p records ->
  0 <= slotId < PageHeader.numberOfSlots (Page.header p) ->
  exists r,
    records !! Z.to_nat slotId = Some r
    /\ Page.getRecord p slotId = (Z.of_nat (length r), r).
Proof.
  intros Hp Hrange. pose proof (st_count _ _ Hp) as Hcount.
  destruct (lookup_lt_is_Some_2 records (Z.to_nat slotId)) as [r Hr]; [lia |].
  exists r. split; [assumption |].
  pose proof (take_drop_middle _ _ _ Hr) as Hsplit.
  pose proof Hp as Hp'. rewrite <- Hsplit in Hp'.
  destruct (stores_segments _ _ _ _ Hp') as (_ & Hseg & _).
  unfold Page.getRecord, Page.slot_at.
  replace (slotId <? 0) with false by (symmetry; apply Z.ltb_ge; lia).
  replace (_ <=? slotId) with false by (symmetry; apply Z.leb_gt; lia).
  cbn [orb]. rewrite (st_directory _ _ Hp), layout_lookup, Hr.
  cbn [fmap option_fmap option_map negb
       Slot.isValid Slot.length Slot.offset].
  rewrite Z.add_0_l, Hseg. reflexivity.
Qed.

(** The deletion of a valid slot follows the position rule. *)
Lemma deleteRecord_compacts_by_position (p : Page.t) (slotId : Z)
    (s : Slot.t) :
  names_slot p slotId s -> Slot.isValid s = true ->
  compacts_by_position p slotId s.
Proof.
  intros Hnames Hvalid.
  destruct (deleteRecord_by_position p slotId s Hnames Hvalid)
    as (Hres & Hfso & Hn & Hdirty & Hkept & Hmoved & Hdirectory).
  pose proof (lookup_lt_Some _ _ _ (ns_lookup _ _ _ Hnames)) as Hlt.
  split; try assumption.
  - rewrite Hdirectory, length_app, length_take, length_map, length_drop.
    lia.
  - intros j t Ht Hj. rewrite Hdirectory.
    pose proof (lookup_lt_Some _ _ _ Ht) as Hjlt.
    destruct (Nat.ltb_spec j (Z.to_nat slotId)) as [Hbefore | Hge].
    + rewrite lookup_app_l by (rewrite length_take; lia).
      rewrite lookup_take_lt by lia. rewrite Ht.
      now replace (Z.to_nat slotId <? j)%nat with false
        by (symmetry; apply Nat.ltb_ge; lia).
    + rewrite lookup_app_r by (rewrite length_take; lia).
      rewrite length_take, list_lookup_fmap, lookup_drop.
      replace (S (Z.to_nat slotId)
               + (j - 1
                  - (Z.to_nat slotId
                       `min` length (Page.slotDirectory p))))%nat
        with j by lia.
      rewrite Ht. cbn [fmap option_fmap option_map].
      now replace (Z.to_nat slotId <? j)%nat with true
        by (symmetry; apply Nat.ltb_lt; lia).
Qed.

(** Where the directory is in offset order around the deleted slot,
    the position rule is the offset rule of the specification. *)
Lemma position_rule_is_offset_rule (p : Page.t) (slotId : Z) (s : Slot.t) :
  names_slot p slotId s ->
  compacts_by_position p slotId s ->
  offset_ordered p slotId s ->
  compacts_by_offset p slotId s.
Proof.
  intros Hnames [Hres Hfso Hn Hdirty Hkept Hmoved Hsize Hdirectory] Hordered.
  pose proof (ns_offset _ _ _ Hnames) as Hoff.
  pose proof (ns_length _ _ _ Hnames) as Hlen.
  split; try assumption.
  intros j t Ht Hj. rewrite (Hdirectory j t Ht Hj). f_equal.
  destruct (Hordered j t Ht) as [Hearlier Hlater].
  destruct (Nat.ltb_spec (Z.to_nat slotId) j) as [Hafter | Hbefore].
  - destruct (Hlater Hafter) as [Hstart Hmax]. unfold slot_end in Hstart.
    rewrite sub_offset_exact by lia.
    destruct (Z.ltb_spec (Slot.offset s) (Slot.offset t)); [reflexivity |].
    f_equal. lia.
  - assert (Hlt : (j < Z.to_nat slotId)%nat) by lia.
    specialize (Hearlier Hlt).
    replace (Slot.offset s <? Slot.offset t) with false
      by (symmetry; apply Z.ltb_ge; lia).
    now destruct t.
Qed.

(** ** Properties of the page operations *)

Lemma page_abg_reachable : reachable page_abg.
Proof.
  unfold page_abg.
  repeat (apply reachable_insert;
          [| unfold insert_in_contract, Slot.sizeof, INT_MAX; cbn; lia]).
  apply reachable_new.
Qed.

Example scenario_one_page :
  snd (Page.insertRecord Page.new alpha 5) = 0
  /\ Page.getRecord page_abg 1 = (4, beta)
  /\ snd (Page.deleteRecord page_abg 0) = true
  /\ PageHeader.freeSpaceOffset
       (Page.header (fst (Page.deleteRecord page_abg 0))) = 9
  /\ Page.getRecord (fst (Page.deleteRecord page_abg 0)) 0 = (4, beta)
  /\ Page.getRecord (fst (Page.deleteRecord page_abg 0)) 1 = (5, gamma).
Proof. vm_compute. repeat split. Qed.

(** C1 (P1, page roundtrip).  For every page [p] reachable from the
    constructed page by [insertRecord] and [deleteRecord] calls,
    serialising [p] into a [PAGE_SIZE] buffer and deserialising that
    buffer into a page object [q] gives a page with the header of [p],
    the bytes [data[0..freeSpaceOffset)] of [p] and the slot directory
    of [p]. *)
Theorem page_roundtrip (p q : Page.t) (buffer : list byte) :
  reachable p ->
  Z.of_nat (length buffer) = PAGE_SIZE ->
  Page.header (Page.deserialize q (Page.serialize p buffer)) = Page.header p
  /\ bytes_at (Page.data (Page.deserialize q (Page.serialize p buffer))) 0
       (PageHeader.freeSpaceOffset (Page.header p))
     = bytes_at (Page.data p) 0 (PageHeader.freeSpaceOffset (Page.header p))
  /\ Page.slotDirectory (Page.deserialize q (Page.serialize p buffer))
     = Page.slotDirectory p.
Proof.
  intros Hreach Hbuffer.
  destruct (reachable_represents _ Hreach) as [records Hp].
  now apply (serialize_deserialize p q records).
Qed.

Lemma page_roundtrip_witness :
  let buffer := repeat Byte.x00 (Z.to_nat PAGE_SIZE) in
  let q := Page.deserialize Page.new (Page.serialize page_abg buffer) in
  Page.header q = Page.header page_abg
  /\ bytes_at (Page.data q) 0 14 = bytes_at (Page.data page_abg) 0 14
  /\ Page.slotDirectory q = Page.slotDirectory page_abg.
Proof.
  intros buffer q.
  apply (page_roundtrip page_abg Page.new buffer);
    [exact page_abg_reachable | reflexivity].
Defined.

(** [insertRecord] within the range of [int]: the result is [-1]
    exactly when the free space is less than [length + sizeof(Slot)],
    and a successful call appends the record and its slot. *)
Lemma insertRecord_within_int (p : Page.t) (record : list byte) (len : Z) :
  counters_in_range p -> 0 < len -> len + Slot.sizeof <= INT_MAX ->
  let h := Page.header p in
  let p' := fst (Page.insertRecord p record len) in
  Page.getFreeSpace p
  = Page.dataAreaSize - PageHeader.numberOfSlots h * Slot.sizeof
    - PageHeader.freeSpaceOffset h
  /\ (snd (Page.insertRecord p record len) = -1
      <-> Page.getFreeSpace p < len + Slot.sizeof)
  /\ (Page.getFreeSpace p < len + Slot.sizeof -> p' = p)
  /\ (len + Slot.sizeof <= Page.getFreeSpace p ->
      Page.data p'
      = memcpy (Page.data p) (PageHeader.freeSpaceOffset h) record len
      /\ Page.slotDirectory p'
         = Page.slotDirectory p
             ++ [{| Slot.offset := PageHeader.freeSpaceOffset h;
                    Slot.length := len;
                    Slot.isValid := true |}]
      /\ PageHeader.freeSpaceOffset (Page.header p')
         = PageHeader.freeSpaceOffset h + len
      /\ PageHeader.numberOfSlots (Page.header p')
         = PageHeader.numberOfSlots h + 1
      /\ PageHeader.dirty (Page.header p') = true
      /\ snd (Page.insertRecord p record len)
         = PageHeader.numberOfSlots (Page.header p') - 1).
Proof.
  intros Hp Hpos Hmax h p'. subst h p'.
  split; [now apply getFreeSpace_exact |].
  rewrite insertRecord_exact by (assumption || lia).
  destruct (Z.ltb_spec (Page.getFreeSpace p) (len + Slot.sizeof))
    as [Hfull | Hroom]; cbn [fst snd].
  - repeat split; (reflexivity || lia).
  - destruct Hp as (_ & Hn & _).
    cbn [Page.header Page.data Page.slotDirectory
         PageHeader.freeSpaceOffset PageHeader.numberOfSlots
         PageHeader.dirty].
    repeat split; (reflexivity || lia).
Qed.

(** Beyond [INT_MAX - sizeof(Slot)] the sum [length + sizeof(Slot)]
    stored in [int requiredSpace] is negative. *)
Lemma requiredSpace_wraps (len : Z) :
  INT_MAX - Slot.sizeof < len <= INT_MAX ->
  to_int (to_size_t (to_size_t len + Slot.sizeof))
  = len + Slot.sizeof - 2 ^ 32.
Proof.
  intros Hlen.
  rewrite (to_size_t_id len) by int_side.
  rewrite to_size_t_id by int_side.
  unfold to_int, wrap_signed.
  change (2 ^ (32 - 1)) with 2147483648.
  change (2 ^ 32) with 4294967296.
  replace (len + Slot.sizeof + 2147483648)
    with (len + Slot.sizeof - 2147483648 + 1 * 4294967296) by lia.
  rewrite Z_mod_plus_full, Z.mod_small; int_side.
Qed.

(** A record longer than [INT_MAX - sizeof(Slot)] passes the space
    check on every page that satisfies invariant 1 of the data model,
    although it cannot fit. *)
Lemma insertRecord_accepts_oversize (p : Page.t) (record : list byte)
    (len : Z) :
  counters_in_range p ->
  INT_MAX - Slot.sizeof < len <= INT_MAX ->
  Page.getFreeSpace p < len + Slot.sizeof
  /\ snd (Page.insertRecord p record len)
     = PageHeader.numberOfSlots (Page.header p)
  /\ snd (Page.insertRecord p record len) <> -1.
Proof.
  intros Hp Hlen. pose proof (getFreeSpace_exact p Hp) as Hfree.
  unfold Page.insertRecord. rewrite requiredSpace_wraps by assumption.
  replace (Page.getFreeSpace p <? len + Slot.sizeof - 2 ^ 32) with false
    by (symmetry; apply Z.ltb_ge; int_side).
  cbn [snd]. rewrite (to_int_id (_ + 1)) by int_side.
  replace (PageHeader.numberOfSlots (Page.header p) + 1 - 1)
    with (PageHeader.numberOfSlots (Page.header p)) by lia.
  rewrite to_int_id by int_side. int_side.
Qed.

(** C2 (insertRecord), at the failing input.  On the constructed page,
    whose free space is [4072], a record of [INT_MAX] bytes does not
    fit; yet [length + sizeof(Slot)] wraps around in the [int
    requiredSpace], so the space check [getFreeSpace() <
    requiredSpace] is false and the call does not return [-1]: it goes
    on to copy the record and returns slot id [0]. *)
Theorem insertRecord_space_check_overflow (record : list byte) :
  Page.getFreeSpace Page.new = 4072
  /\ Page.getFreeSpace Page.new < INT_MAX + Slot.sizeof
  /\ to_int (to_size_t (to_size_t INT_MAX + Slot.sizeof)) = -2147483637
  /\ (Page.getFreeSpace Page.new
      <? to_int (to_size_t (to_size_t INT_MAX + Slot.sizeof))) = false
  /\ snd (Page.insertRecord Page.new record INT_MAX) = 0.
Proof.
  assert (Hcheck :
            (Page.getFreeSpace Page.new
             <? to_int (to_size_t (to_size_t INT_MAX + Slot.sizeof)))
            = false) by (vm_compute; reflexivity).
  unfold Page.insertRecord at 1. rewrite Hcheck. cbn [snd].
  repeat split; vm_compute; congruence.
Qed.

(** C3 (deleteRecord), as amended.  On every page state on which
    [slotId] names a valid slot (the directory has [numberOfSlots]
    entries, [slotId] is in range, and the record of the slot lies in
    the record area, which lies in [data]), [deleteRecord] returns
    [true], moves the bytes [[offset+length, freeSpaceOffset)] left by
    [length], takes [length] off [freeSpaceOffset], removes the entry
    from the directory (entries at later positions move down by one),
    decrements [numberOfSlots], sets [dirty], and takes [length] off
    the offset, in [int] arithmetic, of exactly the surviving slots at
    the positions after [slotId].  Where the directory is in offset
    order around the slot, these are the slots the offset rule of the
    specification names: every surviving slot whose offset was
    greater than that of the deleted record has [length] taken off
    its offset, and the others keep theirs.  That is so on every page
    reachable from the constructed page by [insertRecord] and
    [deleteRecord] calls, for every slot id in
    [0, numberOfSlots). *)
Theorem deleteRecord_compaction :
  (forall (p : Page.t) (slotId : Z) (s : Slot.t),
     names_slot p slotId s -> Slot.isValid s = true ->
     compacts_by_position p slotId s
     /\ (offset_ordered p slotId s -> compacts_by_offset p slotId s))
  /\ (forall (p : Page.t) (slotId : Z),
        reachable_any p ->
        0 <= slotId < PageHeader.numberOfSlots (Page.header p) ->
        exists s,
          Page.slot_at (Page.slotDirectory p) slotId = Some s
          /\ Slot.isValid s = true
          /\ names_slot p slotId s
          /\ offset_ordered p slotId s
          /\ compacts_by_position p slotId s
          /\ compacts_by_offset p slotId s).
Proof.
  split.
  - intros p slotId s Hnames Hvalid.
    pose proof (deleteRecord_compacts_by_position p slotId s Hnames Hvalid)
      as Hposition.
    split; [assumption |].
    now apply position_rule_is_offset_rule.
  - intros p slotId Hreach Hrange.
    destruct (reachable_any_stores _ Hreach) as [records Hp].
    destruct (stores_names_slot p records slotId Hp Hrange)
      as (s & Hs & Hvalid & Hnames & Hordered).
    pose proof (deleteRecord_compacts_by_position p slotId s Hnames Hvalid)
      as Hposition.
    exists s. repeat (split; [assumption |]).
    now apply position_rule_is_offset_rule.
Qed.

Lemma deleteRecord_compaction_witness :
  exists s,
    Page.slot_at (Page.slotDirectory page_abg) 0 = Some s
    /\ Slot.isValid s = true
    /\ compacts_by_position page_abg 0 s
    /\ compacts_by_offset page_abg 0 s.
Proof.
  destruct deleteRecord_compaction as [_ Hreach].
  destruct (Hreach page_abg 0)
    as (s & Hs & Hvalid & _ & _ & Hposition & Hoffset).
  - apply reachable_reachable_any, page_abg_reachable.
  - vm_compute. split; congruence.
  - exists s. auto.
Defined.

(** C3 as stated fails on a page that no sequence of inserts and
    deletes builds.  On [page_swapped], slot 1 is valid and in range,
    with its record at offset 0; the surviving slot 0 has offset 5,
    greater than 0, yet [deleteRecord(1)] leaves that offset at 5: the
    loop of the source adjusts the slots at positions from [slotId]
    on, whatever their offsets. *)
Lemma deleteRecord_offset_rule_counterexample :
  let s := {| Slot.offset := 0; Slot.length := 5; Slot.isValid := true |} in
  names_slot page_swapped 1 s
  /\ Slot.isValid s = true
  /\ Page.slotDirectory (fst (Page.deleteRecord page_swapped 1))
     = [{| Slot.offset := 5; Slot.length := 5; Slot.isValid := true |}]
  /\ ~ compacts_by_offset page_swapped 1 s.
Proof.
  intros s. split; [| split; [reflexivity | split; [reflexivity |]]].
  - split; try reflexivity; vm_compute; congruence.
  - intros [_ _ _ _ _ _ _ Hdirectory].
    specialize (Hdirectory 0%nat
                  {| Slot.offset := 5; Slot.length := 5;
                     Slot.isValid := true |} eq_refl).
    vm_compute in Hdirectory.
    specialize (Hdirectory ltac:(discriminate)). discriminate.
Qed.

(** C4 (P3, compaction correctness).  On every page reachable from the
    constructed page by [insertRecord] and [deleteRecord] calls the
    records occupy [data[0..freeSpaceOffset)] contiguously (the record
    area is the concatenation of the slots' records in slot order, and
    every byte position of it lies in the range of a valid slot),
    every valid slot has [0 <= offset] and
    [offset + length <= freeSpaceOffset], and the ranges of two
    distinct valid slots do not overlap. *)
Theorem compaction_invariant (p : Page.t) :
  reachable p ->
  let fso := PageHeader.freeSpaceOffset (Page.header p) in
  let dir := Page.slotDirectory p in
  bytes_at (Page.data p) 0 fso
  = concat (map (fun s =>
                   bytes_at (Page.data p) (Slot.offset s) (Slot.length s))
              dir)
  /\ (forall b, 0 <= b < fso ->
        exists i s,
          dir !! i = Some s /\ Slot.isValid s = true
          /\ Slot.offset s <= b < slot_end s)
  /\ (forall i s,
        dir !! i = Some s -> Slot.isValid s = true ->
        0 <= Slot.offset s /\ slot_end s <= fso)
  /\ (forall i j si sj,
        dir !! i = Some si -> dir !! j = Some sj ->
        Slot.isValid si = true -> Slot.isValid sj = true ->
        i <> j -> slots_disjoint si sj).
Proof.
  intros Hreach fso dir.
  destruct (reachable_represents _ Hreach) as [records Hp].
  destruct (represents_shape _ _ Hp)
    as (Hconcat & Hcover & Hbounds & Hordered & _).
  fold fso dir in Hconcat, Hcover, Hbounds, Hordered.
  repeat apply conj; try assumption.
  - intros i s Hs _. specialize (Hbounds i s Hs). lia.
  - intros i j si sj Hi Hj _ _ Hij. unfold slots_disjoint.
    destruct (Nat.lt_total i j) as [Hlt | [Heq | Hgt]].
    + left. now apply (Hordered i j si sj).
    + contradiction.
    + right. now apply (Hordered j i sj si).
Qed.

Lemma compaction_invariant_witness :
  let p := fst (Page.deleteRecord page_abg 1) in
  bytes_at (Page.data p) 0 (PageHeader.freeSpaceOffset (Page.header p))
  = concat (map (fun s =>
                   bytes_at (Page.data p) (Slot.offset s) (Slot.length s))
              (Page.slotDirectory p)).
Proof.
  intros p.
  destruct (compaction_invariant p) as [Hconcat _];
    [apply reachable_delete; exact page_abg_reachable | exact Hconcat].
Defined.

(** C10 (slot directory invariant), as amended.  On every page
    reachable from the constructed page by [insertRecord] and
    [deleteRecord] calls, an insert of length 0 included, every entry
    of the slot directory is valid, the directory has [numberOfSlots]
    entries, offsets do not decrease with the slot index (the offset
    of a later slot is greater when the record of the earlier one is
    not empty), and each record ends where the next one starts; hence
    [getRecord] returns [-1] and [deleteRecord] returns [false] only
    for slot ids outside [0, numberOfSlots).  When every insert had
    [length > 0], offsets increase strictly with the slot index. *)
Theorem directory_invariant (p : Page.t) :
  reachable_any p ->
  let n := PageHeader.numberOfSlots (Page.header p) in
  let dir := Page.slotDirectory p in
  (forall i s,
     dir !! i = Some s -> Slot.isValid s = true /\ 0 <= Slot.length s)
  /\ Z.of_nat (length dir) = n
  /\ (forall i j si sj,
        dir !! i = Some si -> dir !! j = Some sj -> (i < j)%nat ->
        Slot.offset si <= Slot.offset sj
        /\ (0 < Slot.length si -> Slot.offset si < Slot.offset sj))
  /\ (forall i si sj,
        dir !! i = Some si -> dir !! S i = Some sj ->
        Slot.offset si + Slot.length si = Slot.offset sj)
  /\ (forall slotId,
        fst (Page.getRecord p slotId) = -1 <-> slotId < 0 \/ n <= slotId)
  /\ (forall slotId,
        snd (Page.deleteRecord p slotId) = false
        <-> slotId < 0 \/ n <= slotId)
  /\ (reachable p ->
      forall i j si sj,
        dir !! i = Some si -> dir !! j = Some sj -> (i < j)%nat ->
        Slot.offset si < Slot.offset sj).
Proof.
  intros Hreach n dir.
  destruct (reachable_any_stores _ Hreach) as [records Hp].
  pose proof (st_directory _ _ Hp) as Hdir. fold dir in Hdir.
  repeat apply conj.
  - intros i s Hs. rewrite Hdir in Hs.
    destruct (layout_bounds 0 records s) as (Hvalid & _ & Hlen & _);
      [eapply list_elem_of_lookup_2; exact Hs | now split].
  - subst n. rewrite Hdir, length_layout. now rewrite (st_count _ _ Hp).
  - intros i j si sj Hi Hj Hij. rewrite Hdir in Hi, Hj.
    pose proof (layout_ordered _ _ _ _ _ _ Hi Hj Hij) as Hord.
    destruct (layout_bounds 0 records si) as (_ & _ & Hlen & _);
      [eapply list_elem_of_lookup_2; exact Hi |].
    unfold slot_end in Hord. lia.
  - intros i si sj Hi Hj. rewrite Hdir in Hi, Hj.
    apply layout_lookup_Some in Hi as (ri & Hri & ->).
    apply layout_lookup_Some in Hj as (rj & Hrj & ->).
    cbn [Slot.offset Slot.length].
    rewrite (total_take_S _ _ _ Hri). lia.
  - intros slotId. split.
    + intros Hfail.
      destruct (Z.lt_ge_cases slotId 0) as [? | Hlow]; [lia |].
      destruct (Z.le_gt_cases n slotId) as [? | Hhigh]; [lia |].
      destruct (getRecord_stores p records slotId Hp) as (r & _ & Hget);
        [subst n; lia |].
      rewrite Hget in Hfail. cbn [fst] in Hfail. lia.
    + intros Hout. now rewrite out_of_range_getRecord.
  - intros slotId.
    destruct (deleteRecord_stores p records slotId Hp)
      as [[Hout Hdel] | (Hin & Hdel & _)].
    + rewrite Hdel. cbn [snd]. tauto.
    + rewrite Hdel. subst n. split; [discriminate | lia].
  - intros Hcontract.
    destruct (reachable_represents _ Hcontract) as [records' Hp'].
    destruct (represents_shape _ _ Hp') as (_ & _ & _ & Hordered & _).
    intros i j si sj Hi Hj Hij. now apply (Hordered i j si sj).
Qed.

Lemma directory_invariant_witness :
  (forall i s,
     Page.slotDirectory page_empty_alpha !! i = Some s ->
     Slot.isValid s = true)
  /\ Z.of_nat (length (Page.slotDirectory page_empty_alpha))
     = PageHeader.numberOfSlots (Page.header page_empty_alpha).
Proof.
  destruct (directory_invariant page_empty_alpha) as (Hvalid & Hsize & _).
  - unfold page_empty_alpha.
    repeat (apply reachable_any_insert;
            [| unfold insert_defined, Slot.sizeof, INT_MAX; cbn; lia]).
    constructor.
  - split; [| exact Hsize]. intros i s Hs. now apply (Hvalid i s).
Defined.

(** C10 as stated fails: the code accepts [insertRecord("", 0)].
    After it and [insertRecord("alpha", 5)], both granted, slots 0 and
    1 both have offset 0, so the offsets do not increase strictly with
    the slot index. *)
Lemma directory_offsets_counterexample :
  reachable_any page_empty_alpha
  /\ snd (Page.insertRecord Page.new [] 0) = 0
  /\ snd (Page.insertRecord (fst (Page.insertRecord Page.new [] 0)) alpha 5)
     = 1
  /\ Page.slotDirectory page_empty_alpha
     = [ {| Slot.offset := 0; Slot.length := 0; Slot.isValid := true |};
         {| Slot.offset := 0; Slot.length := 5; Slot.isValid := true |} ]
  /\ ~ (forall i j si sj,
          Page.slotDirectory page_empty_alpha !! i = Some si ->
          Page.slotDirectory page_empty_alpha !! j = Some sj ->
          (i < j)%nat ->
          Slot.offset si < Slot.offset sj).
Proof.
  split; [| split; [reflexivity | split; [reflexivity | split]]].
  - unfold page_empty_alpha.
    repeat (apply reachable_any_insert;
            [| unfold insert_defined, Slot.sizeof, INT_MAX; cbn; lia]).
    constructor.
  - reflexivity.
  - intros Hstrict.
    specialize (Hstrict 0%nat 1%nat _ _ eq_refl eq_refl ltac:(lia)).
    vm_compute in Hstrict. discriminate.
Qed.

(** ** Disk manager *)

Lemma int_offset_exact (pageId : Z) :
  0 <= pageId < 524288 ->
  DiskManager.int_offset pageId = pageId * PAGE_SIZE.
Proof.
  intros Hid. unfold DiskManager.int_offset. apply to_int_id. int_side.
Qed.

Lemma getOffset_exact (pageId : Z) :
  is_int pageId -> DiskManager.getOffset pageId = pageId * PAGE_SIZE.
Proof.
  intros Hid. unfold DiskManager.getOffset. apply to_long_id.
  unfold is_long. int_side.
Qed.

(** A seek to a negative position fails. *)
Lemma seek_fails_negative (dm : DiskManager.t) (env : DiskManager.io)
    (offset : Z) :
  offset < 0 -> DiskManager.seek_fails dm env offset = true.
Proof.
  intros Hneg. unfold DiskManager.seek_fails.
  replace (offset <? 0) with true by (symmetry; now apply Z.ltb_lt).
  apply orb_true_r.
Qed.

(** C7 (file offsets), at the failing input.  For page id [524288] the
    product with [PAGE_SIZE] is [2^31] and exceeds [INT_MAX]; the
    64-bit helper [getOffset] computes it, but [readPage] and
    [writePage] compute [int offset = pageId * PAGE_SIZE], which is
    [-2^31] in 32 bits, so both fail at the seek whatever the file
    holds. *)
Theorem page_offset_overflow (dm : DiskManager.t) (page : Page.t)
    (env : DiskManager.io) :
  INT_MAX < 524288 * PAGE_SIZE
  /\ DiskManager.getOffset 524288 = 524288 * PAGE_SIZE
  /\ DiskManager.int_offset 524288 = -2147483648
  /\ snd (DiskManager.readPage dm 524288 page env) = false
  /\ snd (DiskManager.writePage dm 524288 page env) = false.
Proof.
  assert (Hoff : DiskManager.int_offset 524288 = -2147483648)
    by (vm_compute; reflexivity).
  split; [vm_compute; reflexivity |].
  split; [vm_compute; reflexivity |].
  split; [assumption |]. split.
  - unfold DiskManager.readPage.
    now rewrite seek_fails_negative by (rewrite Hoff; lia).
  - unfold DiskManager.writePage.
    destruct (524288 =? DiskManager.numPages_ dm) eqn:Happend.
    + apply Z.eqb_eq in Happend. rewrite <- Happend.
      now rewrite seek_fails_negative by (rewrite Hoff; lia).
    + destruct (524288 <? DiskManager.numPages_ dm); [| reflexivity].
      now rewrite seek_fails_negative by (rewrite Hoff; lia).
Qed.

Lemma bytes_at_write_at (contents bs : list byte) (offset : Z) :
  0 <= offset ->
  bytes_at (DiskManager.write_at contents offset bs) offset
    (Z.of_nat (length bs))
  = bs.
Proof.
  intros Hoff. unfold bytes_at, DiskManager.write_at.
  rewrite drop_app_length'.
  - rewrite Nat2Z.id. apply take_app_length.
  - rewrite length_take, length_app, repeat_length. lia.
Qed.

Lemma length_write_at (contents bs : list byte) (offset : Z) :
  0 <= offset ->
  Z.of_nat (length (DiskManager.write_at contents offset bs))
  = Z.max (Z.of_nat (length contents)) (offset + Z.of_nat (length bs)).
Proof.
  intros Hoff. unfold DiskManager.write_at.
  rewrite !length_app, length_take, length_app, repeat_length, length_drop.
  lia.
Qed.

(** What [writePage] does to [numPages_]. *)
Lemma writePage_numPages (dm : DiskManager.t) (pageId : Z) (page : Page.t)
    (env : DiskManager.io) :
  DiskManager.numPages_ (fst (DiskManager.writePage dm pageId page env))
  = if snd (DiskManager.writePage dm pageId page env)
       && (pageId =? DiskManager.numPages_ dm)
    then to_int (DiskManager.numPages_ dm + 1)
    else DiskManager.numPages_ dm.
Proof.
  unfold DiskManager.writePage.
  destruct (pageId =? DiskManager.numPages_ dm) eqn:Happend;
    [| destruct (pageId <? DiskManager.numPages_ dm)];
    try reflexivity;
    (destruct (DiskManager.seek_fails dm env _); [reflexivity |]);
    (destruct (DiskManager.transfer_ok env); reflexivity).
Qed.

(** A successful append leaves room for the incremented count. *)
Lemma append_count_fits (dm : DiskManager.t) (page : Page.t)
    (env : DiskManager.io) :
  is_int (DiskManager.numPages_ dm) ->
  snd (DiskManager.writePage dm (DiskManager.numPages_ dm) page env) = true ->
  DiskManager.numPages_ dm <> -1
  /\ to_int (DiskManager.numPages_ dm + 1) = DiskManager.numPages_ dm + 1.
Proof.
  intros Hint. unfold DiskManager.writePage.
  rewrite Z.eqb_refl.
  destruct (DiskManager.seek_fails dm env _) eqn:Hseek; [discriminate |].
  intros _. unfold DiskManager.seek_fails in Hseek.
  apply orb_false_elim in Hseek as [_ Hneg]. apply Z.ltb_ge in Hneg.
  assert (Hne1 : DiskManager.numPages_ dm <> -1).
  { intros Heq. rewrite Heq in Hneg. vm_compute in Hneg. congruence. }
  assert (Hne2 : DiskManager.numPages_ dm <> INT_MAX).
  { intros Heq. rewrite Heq in Hneg. vm_compute in Hneg. congruence. }
  split; [assumption |]. apply to_int_id. int_side.
Qed.

(** One call of [allocateNewPage]. *)
Lemma allocateNewPage_result (dm : DiskManager.t) (env : DiskManager.io) :
  is_int (DiskManager.numPages_ dm) ->
  let newPage := Page.setPageId Page.new (DiskManager.numPages_ dm) in
  let written :=
    DiskManager.writePage dm (DiskManager.numPages_ dm) newPage env in
  fst (DiskManager.allocateNewPage dm env) = fst written
  /\ (snd written = false ->
      snd (DiskManager.allocateNewPage dm env) = -1
      /\ DiskManager.numPages_ (fst written) = DiskManager.numPages_ dm)
  /\ (snd written = true ->
      snd (DiskManager.allocateNewPage dm env) = DiskManager.numPages_ dm
      /\ DiskManager.numPages_ dm <> -1
      /\ DiskManager.numPages_ (fst written) = DiskManager.numPages_ dm + 1).
Proof.
  intros Hint newPage written.
  pose proof (writePage_numPages dm (DiskManager.numPages_ dm) newPage env)
    as Hcount.
  pose proof (append_count_fits dm newPage env Hint) as Hfits.
  fold written in Hcount, Hfits. unfold DiskManager.allocateNewPage.
  fold newPage written. destruct written as [dm' ok].
  cbn [fst snd] in *. rewrite Z.eqb_refl, andb_true_r in Hcount.
  destruct ok; cbn [fst snd].
  - split; [reflexivity |]. split; [discriminate |]. intros _.
    destruct (Hfits eq_refl) as [Hne Hinc]. rewrite Hcount, Hinc.
    repeat split; try assumption.
    replace (DiskManager.numPages_ dm + 1 - 1)
      with (DiskManager.numPages_ dm) by lia.
    now apply to_int_id.
  - split; [reflexivity |]. split; [auto | discriminate].
Qed.

Lemma represents_setPageId (p : Page.t) (records : list (list byte))
    (id : Z) :
  represents p records -> is_int id ->
  represents (Page.setPageId p id) records.
Proof. intros [] Hid. split; assumption. Qed.

Lemma length_serialize (p : Page.t) (records : list (list byte))
    (buffer : list byte) :
  represents p records ->
  Z.of_nat (length buffer) = PAGE_SIZE ->
  length (Page.serialize p buffer) = length buffer.
Proof.
  intros Hp Hbuffer.
  pose proof (represents_counters _ _ Hp) as (Hfso & Hn & Hfit).
  destruct Hp as [Hsize Hdir _ _ Hcount _ _ _ _].
  pose proof (length_directory_bytes (Page.slotDirectory p)) as Hdb.
  rewrite Hdir, length_layout, <- Hcount in Hdb. rewrite <- Hdir in Hdb.
  unfold Page.serialize.
  rewrite slot_directory_size_exact by int_side.
  fold Page.dataAreaSize.
  rewrite (to_int_id Page.dataAreaSize) by int_side.
  rewrite (to_int_id (_ - _)) by int_side.
  assert (Hb1 : length (memcpy buffer 0
                          (PageHeader.to_bytes (Page.header p))
                          PageHeader.sizeof)
                = length buffer)
    by (apply length_memcpy; rewrite ?length_header_bytes; int_side).
  rewrite !length_memcpy; rewrite ?length_memcpy, ?Hb1;
    rewrite ?length_header_bytes; int_side.
Qed.

Lemma seek_succeeds_nonneg (dm : DiskManager.t) (env : DiskManager.io)
    (offset : Z) :
  DiskManager.seek_fails dm env offset = false -> 0 <= offset.
Proof.
  unfold DiskManager.seek_fails. intros Hseek.
  apply orb_false_elim in Hseek as [_ Hneg]. now apply Z.ltb_ge.
Qed.

(** What a successful [writePage] leaves in the file. *)
Lemma writePage_image (dm : DiskManager.t) (pageId : Z) (page : Page.t)
    (records : list (list byte)) (env : DiskManager.io) :
  represents page records ->
  snd (DiskManager.writePage dm pageId page env) = true ->
  0 <= DiskManager.int_offset pageId
  /\ bytes_at
       (DiskManager.file (fst (DiskManager.writePage dm pageId page env)))
       (DiskManager.int_offset pageId) PAGE_SIZE
     = Page.serialize page
         (resize (Z.to_nat PAGE_SIZE) Byte.x00 (DiskManager.scratch env)).
Proof.
  intros Hpage. unfold DiskManager.writePage.
  set (buffer := Page.serialize page _).
  assert (Hlen : Z.of_nat (length buffer) = PAGE_SIZE).
  { unfold buffer. rewrite (length_serialize page records), length_resize;
      try assumption; rewrite ?length_resize; reflexivity. }
  assert (Himage :
            forall offset, 0 <= offset ->
              bytes_at
                (DiskManager.write_at (DiskManager.file dm) offset
                   (take (Z.to_nat PAGE_SIZE) buffer)) offset PAGE_SIZE
              = buffer).
  { intros offset Hpos. rewrite firstn_all2 by lia. rewrite <- Hlen.
    now apply bytes_at_write_at. }
  destruct (pageId =? DiskManager.numPages_ dm) eqn:Happend.
  - apply Z.eqb_eq in Happend. rewrite <- Happend.
    destruct (DiskManager.seek_fails dm env _) eqn:Hseek; [discriminate |].
    destruct (DiskManager.transfer_ok env); [| discriminate].
    intros _. cbn [negb fst DiskManager.file].
    apply seek_succeeds_nonneg in Hseek. auto.
  - destruct (pageId <? DiskManager.numPages_ dm); [| discriminate].
    destruct (DiskManager.seek_fails dm env _) eqn:Hseek; [discriminate |].
    destruct (DiskManager.transfer_ok env); [| discriminate].
    intros _. cbn [negb fst DiskManager.file].
    apply seek_succeeds_nonneg in Hseek. auto.
Qed.

Lemma writePage_numPages_is_int (dm : DiskManager.t) (pageId : Z)
    (page : Page.t) (env : DiskManager.io) :
  is_int (DiskManager.numPages_ dm) ->
  is_int (DiskManager.numPages_
            (fst (DiskManager.writePage dm pageId page env))).
Proof.
  intros Hint. rewrite writePage_numPages.
  destruct (_ && _); [apply to_int_is_int | assumption].
Qed.

(** The ids granted by a run of allocations: the results other than
    [-1]. *)
Lemma allocate_all_granted (envs : list DiskManager.io)
    (dm : DiskManager.t) :
  is_int (DiskManager.numPages_ dm) ->
  let granted :=
    filter (fun id => id <> -1) (snd (DiskManager.allocate_all dm envs)) in
  granted = seqZ (DiskManager.numPages_ dm) (Z.of_nat (length granted))
  /\ DiskManager.numPages_ (fst (DiskManager.allocate_all dm envs))
     = DiskManager.numPages_ dm + Z.of_nat (length granted).
Proof.
  revert dm. induction envs as [| env envs IH]; intros dm Hint granted.
  - subst granted. cbn. split; [reflexivity | lia].
  - subst granted. cbn [DiskManager.allocate_all].
    destruct (allocateNewPage_result dm env Hint) as (Hdm & Hfail & Hok).
    pose proof (writePage_numPages_is_int dm (DiskManager.numPages_ dm)
                  (Page.setPageId Page.new (DiskManager.numPages_ dm))
                  env Hint) as Hint1.
    rewrite <- Hdm in Hfail, Hok, Hint1.
    destruct (DiskManager.allocateNewPage dm env) as [dm1 id].
    cbn [fst snd] in Hfail, Hok, Hint1.
    specialize (IH dm1 Hint1).
    destruct (DiskManager.allocate_all dm1 envs) as [dm2 ids].
    cbn [fst snd] in *. destruct IH as [Hids Hfinal].
    destruct (snd (DiskManager.writePage dm (DiskManager.numPages_ dm)
                     (Page.setPageId Page.new (DiskManager.numPages_ dm))
                     env)).
    + destruct (Hok eq_refl) as (-> & Hne & Hcount).
      rewrite filter_cons_True by assumption.
      cbn [length]. rewrite Hfinal, Hcount. split; [| lia].
      rewrite seqZ_cons by lia. f_equal.
      rewrite Hids at 1. f_equal; lia.
    + destruct (Hfail eq_refl) as (-> & Hcount).
      rewrite filter_cons_False by (intros Hne; now apply Hne).
      rewrite Hcount in Hids, Hfinal. auto.
Qed.

(** Append allocation (P5) where the byte offset of page [numPages]
    fits an [int].  [allocateNewPage] writes the
    constructed page, with its id set to [numPages], through
    [writePage(numPages, _)].  If that write fails the result is [-1]
    and the page count is unchanged; if it succeeds the result is the
    pre-call [numPages], the page count is one more, and the
    [PAGE_SIZE] bytes of the file at the byte offset of page
    [numPages] (that offset is [numPages * PAGE_SIZE] as long as this
    product fits an [int]) are the image of that empty page.
    [writePage] increments [numPages] exactly when it succeeds with
    [pageId == numPages].  In every run of allocations the ids granted
    are consecutive from the initial [numPages], and the final page
    count is the initial one plus the number of ids granted. *)
Theorem append_allocation (dm : DiskManager.t) :
  is_int (DiskManager.numPages_ dm) ->
  let numPages := DiskManager.getNumberOfPages dm in
  let newPage := Page.setPageId Page.new numPages in
  (forall env,
     let written := DiskManager.writePage dm numPages newPage env in
     let result := DiskManager.allocateNewPage dm env in
     fst result = fst written
     /\ (snd written = false ->
         snd result = -1
         /\ DiskManager.getNumberOfPages (fst result) = numPages)
     /\ (snd written = true ->
         snd result = numPages
         /\ DiskManager.getNumberOfPages (fst result) = numPages + 1
         /\ 0 <= DiskManager.int_offset numPages
         /\ (0 <= numPages < 524288 ->
             DiskManager.int_offset numPages = numPages * PAGE_SIZE)
         /\ forall q,
              let image :=
                bytes_at (DiskManager.file (fst result))
                  (DiskManager.int_offset numPages) PAGE_SIZE in
              Page.header (Page.deserialize q image) = Page.header newPage
              /\ Page.slotDirectory (Page.deserialize q image) = []))
  /\ (forall pageId page env,
        let written := DiskManager.writePage dm pageId page env in
        DiskManager.getNumberOfPages (fst written)
        = if snd written && (pageId =? numPages)
          then numPages + 1 else numPages)
  /\ (forall envs,
        let granted :=
          filter (fun id => id <> -1)
            (snd (DiskManager.allocate_all dm envs)) in
        granted = seqZ numPages (Z.of_nat (length granted))
        /\ DiskManager.getNumberOfPages
             (fst (DiskManager.allocate_all dm envs))
           = numPages + Z.of_nat (length granted)).
Proof.
  intros Hint numPages newPage.
  unfold DiskManager.getNumberOfPages in *. subst numPages newPage.
  cbv zeta. split; [| split].
  - intros env.
    destruct (allocateNewPage_result dm env Hint) as (Hdm & Hfail & Hok).
    cbv zeta in Hdm, Hfail, Hok.
    set (newPage := Page.setPageId Page.new (DiskManager.numPages_ dm)) in *.
    rewrite Hdm. split; [reflexivity |]. split; [exact Hfail |].
    intros Hwritten. destruct (Hok Hwritten) as (Hid & _ & Hcount).
    assert (Hrep : represents newPage []).
    { apply represents_setPageId; [apply represents_new | assumption]. }
    destruct (writePage_image dm _ newPage [] env Hrep Hwritten)
      as [Hpos Himage].
    repeat split; try assumption.
    + apply int_offset_exact.
    + rewrite Himage.
      now apply (serialize_deserialize newPage q []);
        [| rewrite length_resize].
    + rewrite Himage.
      now apply (serialize_deserialize newPage q []);
        [| rewrite length_resize].
  - intros pageId page env.
    rewrite writePage_numPages.
    destruct (snd _) eqn:Hwritten; cbn [andb]; [| reflexivity].
    destruct (Z.eqb_spec pageId (DiskManager.numPages_ dm)) as [-> | _];
      [| reflexivity].
    now apply (append_count_fits dm page env).
  - intros envs. now apply allocate_all_granted.
Qed.

Lemma append_allocation_witness :
  let dm := DiskManager.open [] in
  let env := DiskManager.mk_io true true true [] in
  snd (DiskManager.allocate_all dm [env; env; env]) = [0; 1; 2]
  /\ DiskManager.getNumberOfPages
       (fst (DiskManager.allocate_all dm [env; env; env])) = 3.
Proof.
  intros dm env.
  destruct (append_allocation dm) as (_ & _ & Hrun);
    [vm_compute; split; congruence |].
  specialize (Hrun [env; env; env]).
  vm_compute in Hrun. vm_compute. exact Hrun.
Defined.

(** C8 (append allocation), at the failing input.  On a file of
    1048576 pages (4 GiB) the constructor sets [numPages] to 1048576.
    [allocateNewPage] then calls [writePage(1048576, _)], which
    computes [int offset = pageId * PAGE_SIZE]: the product [2^32]
    (which the 64-bit helper [getOffset] computes) is 0 in 32 bits.
    With a stream in good state and an environment in which nothing
    fails, the call returns 1048576 and the page count becomes
    1048577, but the empty page is written over page 0, at bytes
    [[0, PAGE_SIZE)] of the file, not at index [numPages], and the
    file does not grow.  On a file of 524288 pages (2 GiB) the offset
    is [-2^31], the seek fails, and [allocateNewPage] returns [-1]
    and leaves the stream failed although nothing failed in the
    environment. *)
Theorem allocateNewPage_offset_overflow (contents scratch : list byte) :
  let env := DiskManager.mk_io true true true scratch in
  let image :=
    Page.serialize (Page.setPageId Page.new 1048576)
      (resize (Z.to_nat PAGE_SIZE) Byte.x00 scratch) in
  let dm :=
    {| DiskManager.file := contents;
       DiskManager.stream_failed := false;
       DiskManager.numPages_ := 1048576 |} in
  let outcome := DiskManager.allocateNewPage dm env in
  (Z.of_nat (length contents) = 1048576 * PAGE_SIZE ->
   DiskManager.open contents = dm)
  /\ DiskManager.getOffset 1048576 = 1048576 * PAGE_SIZE
  /\ DiskManager.int_offset 1048576 = 0
  /\ snd outcome = 1048576
  /\ DiskManager.getNumberOfPages (fst outcome) = 1048577
  /\ bytes_at (DiskManager.file (fst outcome)) 0 PAGE_SIZE = image
  /\ (PAGE_SIZE <= Z.of_nat (length contents) ->
      length (DiskManager.file (fst outcome)) = length contents)
  /\ let dm2 :=
       {| DiskManager.file := contents;
          DiskManager.stream_failed := false;
          DiskManager.numPages_ := 524288 |} in
     (Z.of_nat (length contents) = 524288 * PAGE_SIZE ->
      DiskManager.open contents = dm2)
     /\ DiskManager.allocateNewPage dm2 env
        = (DiskManager.with_failure dm2, -1).
Proof.
  intros env image dm outcome.
  assert (Hoff : DiskManager.int_offset 1048576 = 0)
    by (vm_compute; reflexivity).
  assert (Hoff2 : DiskManager.int_offset 524288 = -2147483648)
    by (vm_compute; reflexivity).
  assert (Hnext : to_int (1048576 + 1) = 1048577)
    by (vm_compute; reflexivity).
  assert (Hback : to_int (1048577 - 1) = 1048576)
    by (vm_compute; reflexivity).
  assert (Hnew : represents (Page.setPageId Page.new 1048576) []).
  { apply represents_setPageId; [apply represents_new |].
    vm_compute. split; congruence. }
  assert (Hlen : Z.of_nat (length image) = PAGE_SIZE).
  { unfold image.
    rewrite (length_serialize _ []), length_resize;
      [reflexivity | assumption | now rewrite length_resize]. }
  assert (Hwhole : take (Z.to_nat PAGE_SIZE) image = image)
    by (apply firstn_all2; lia).
  assert (Hrun :
    outcome
    = ({| DiskManager.file := DiskManager.write_at contents 0 image;
          DiskManager.stream_failed := false;
          DiskManager.numPages_ := 1048577 |}, 1048576)).
  { subst outcome. unfold DiskManager.allocateNewPage, DiskManager.writePage.
    cbn [DiskManager.numPages_ DiskManager.file dm].
    rewrite Z.eqb_refl, Hoff. unfold DiskManager.seek_fails.
    cbn [DiskManager.stream_failed DiskManager.seek_ok
         DiskManager.transfer_ok DiskManager.flush_ok DiskManager.scratch
         dm env negb orb].
    change (0 <? 0) with false. cbv iota.
    fold image. rewrite Hwhole, Hnext.
    cbn [DiskManager.numPages_]. now rewrite Hback. }
  rewrite Hrun. cbn [fst snd DiskManager.file].
  unfold DiskManager.getNumberOfPages. cbn [DiskManager.numPages_].
  split.
  { intros Hsize. unfold DiskManager.open, dm. rewrite Hsize.
    f_equal; vm_compute; reflexivity. }
  split; [vm_compute; reflexivity |].
  split; [assumption |]. split; [reflexivity |]. split; [reflexivity |].
  split.
  { rewrite <- Hlen. now apply bytes_at_write_at. }
  split.
  { intros Hsize. apply Nat2Z.inj.
    rewrite length_write_at, Hlen by lia. lia. }
  split.
  { intros Hsize. unfold DiskManager.open. rewrite Hsize.
    f_equal; vm_compute; reflexivity. }
  unfold DiskManager.allocateNewPage, DiskManager.writePage.
  cbn [DiskManager.numPages_]. rewrite Z.eqb_refl, Hoff2.
  now rewrite seek_fails_negative by lia.
Qed.

(** ** Searching the frames *)

Section MinElement.

Context {A : Type} (comp : A -> A -> bool).

(** [comp] is a strict weak ordering, as [std::min_element]
    requires. *)
Hypothesis comp_irreflexive : forall x, comp x x = false.
Hypothesis comp_transitive :
  forall x y z, comp x y = true -> comp y z = true -> comp x z = true.
Hypothesis comp_cotransitive :
  forall x y z, comp x y = true -> comp x z = true \/ comp z y = true.

Lemma min_element_from_first_minimum (rest scanned : list A)
    (smallest : nat) (x : A) :
  first_minimum comp scanned smallest x ->
  exists y,
    first_minimum comp (scanned ++ rest)
      (BufferPool.min_element_from comp smallest x (length scanned) rest)
      y.
Proof.
  revert scanned smallest x.
  induction rest as [| y rest IH]; intros scanned smallest x Hmin.
  - exists x. now rewrite app_nil_r.
  - cbn [BufferPool.min_element_from].
    destruct Hmin as (Hx & Hleast & Hfirst).
    replace (S (length scanned)) with (length (scanned ++ [y]))
      by (rewrite length_app; cbn; lia).
    replace (scanned ++ y :: rest) with ((scanned ++ [y]) ++ rest)
      by now rewrite <- app_assoc.
    destruct (comp y x) eqn:Hyx; apply IH; repeat split.
    + rewrite lookup_app_r by lia. now rewrite Nat.sub_diag.
    + intros j z Hz. apply lookup_snoc_Some in Hz as [[_ Hz] | [_ <-]];
        [| apply comp_irreflexive].
      destruct (comp z y) eqn:Hzy; [| reflexivity].
      rewrite <- (Hleast _ _ Hz). symmetry.
      now apply (comp_transitive z y x).
    + intros j z Hj Hz. rewrite lookup_app_l in Hz by assumption.
      destruct (comp_cotransitive y x z Hyx) as [? | Hzx]; [assumption |].
      now rewrite (Hleast _ _ Hz) in Hzx.
    + rewrite lookup_app_l by now apply lookup_lt_Some in Hx.
      assumption.
    + intros j z Hz. apply lookup_snoc_Some in Hz as [[_ Hz] | [_ <-]];
        [now apply (Hleast j) | assumption].
    + intros j z Hj Hz. apply (Hfirst j); [assumption |].
      apply lookup_lt_Some in Hx.
      now rewrite lookup_app_l in Hz by lia.
Qed.

Lemma min_element_first_minimum (l : list A) :
  match BufferPool.min_element comp l with
  | Some m => exists x, first_minimum comp l m x
  | None => l = []
  end.
Proof.
  destruct l as [| x l]; [reflexivity |].
  cbn [BufferPool.min_element].
  apply (min_element_from_first_minimum l [x] 0 x).
  repeat split.
  - intros [| j] y Hy; [| now destruct j].
    injection Hy as <-. apply comp_irreflexive.
  - intros j y Hj. lia.
Qed.

End MinElement.

Lemma find_if_Some {A : Type} (pred : A -> bool) (l : list A) (i : nat) :
  BufferPool.find_if pred l = Some i ->
  exists x, l !! i = Some x /\ pred x = true.
Proof.
  revert i. induction l as [| y l IH]; intros i; [discriminate |].
  cbn [BufferPool.find_if]. destruct (pred y) eqn:Hy.
  - intros [= <-]. eauto.
  - destruct (BufferPool.find_if pred l) as [k |]; [| discriminate].
    intros [= <-]. now apply IH.
Qed.

Lemma find_if_None {A : Type} (pred : A -> bool) (l : list A) :
  BufferPool.find_if pred l = None <-> forall x, x ∈ l -> pred x = false.
Proof.
  induction l as [| y l IH]; cbn [BufferPool.find_if].
  - split; [| reflexivity]. intros _ x Hx. now apply elem_of_nil in Hx.
  - destruct (pred y) eqn:Hy.
    + split; [discriminate |]. intros Hall.
      rewrite (Hall y) in Hy by apply list_elem_of_here. discriminate.
    + destruct (BufferPool.find_if pred l) as [k |].
      * split; [discriminate |]. intros Hall.
        assert (Hk : Some k = None); [| discriminate].
        apply IH. intros x Hx. apply Hall. now apply list_elem_of_further.
      * split; [| reflexivity]. intros _ x Hx.
        apply elem_of_cons in Hx as [-> | Hx]; [assumption |].
        now apply IH.
Qed.

(** ** Victim selection *)

Lemma victim_less_spec (a b : BufferPool.Frame) :
  BufferPool.victim_less a b = true
  <-> pinned_rank a < pinned_rank b
      \/ (pinned_rank a = pinned_rank b
          /\ BufferPool.lastAccessTime a < BufferPool.lastAccessTime b).
Proof.
  unfold BufferPool.victim_less, pinned_rank.
  destruct (BufferPool.pinCount a =? 0), (BufferPool.pinCount b =? 0);
    cbn [andb negb]; rewrite ?Z.ltb_lt; intuition (lia || congruence).
Qed.

Lemma victim_less_false (a b : BufferPool.Frame) :
  BufferPool.victim_less a b = false
  <-> pinned_rank b < pinned_rank a
      \/ (pinned_rank a = pinned_rank b
          /\ BufferPool.lastAccessTime b <= BufferPool.lastAccessTime a).
Proof.
  pose proof (victim_less_spec a b) as Hspec.
  destruct (BufferPool.victim_less a b).
  - split; [discriminate |]. intros Hge.
    assert (Hlt : pinned_rank a < pinned_rank b
                  \/ (pinned_rank a = pinned_rank b
                      /\ BufferPool.lastAccessTime a
                         < BufferPool.lastAccessTime b))
      by now apply Hspec.
    lia.
  - split; [| reflexivity]. intros _.
    assert (Hnot : ~ (pinned_rank a < pinned_rank b
                      \/ (pinned_rank a = pinned_rank b
                          /\ BufferPool.lastAccessTime a
                             < BufferPool.lastAccessTime b))).
    { intros Hlt. apply Hspec in Hlt. discriminate. }
    lia.
Qed.

Lemma victim_less_irreflexive (x : BufferPool.Frame) :
  BufferPool.victim_less x x = false.
Proof. apply victim_less_false. lia. Qed.

Lemma victim_less_transitive (x y z : BufferPool.Frame) :
  BufferPool.victim_less x y = true -> BufferPool.victim_less y z = true ->
  BufferPool.victim_less x z = true.
Proof. rewrite !victim_less_spec. lia. Qed.

Lemma victim_less_cotransitive (x y z : BufferPool.Frame) :
  BufferPool.victim_less x y = true ->
  BufferPool.victim_less x z = true \/ BufferPool.victim_less z y = true.
Proof. rewrite !victim_less_spec. lia. Qed.

Lemma frame_index_exact (bp : BufferPool.t) (i : nat) (f : BufferPool.Frame) :
  indexable bp -> BufferPool.frames_ bp !! i = Some f ->
  to_int (Z.of_nat i) = Z.of_nat i
  /\ BufferPool.frame_at (BufferPool.frames_ bp) (Z.of_nat i) = Some f.
Proof.
  intros Hfit Hf. pose proof (lookup_lt_Some _ _ _ Hf) as Hlt.
  split.
  - apply to_int_id. unfold indexable in Hfit. int_side.
  - unfold BufferPool.frame_at.
    replace (Z.of_nat i <? 0) with false by (symmetry; apply Z.ltb_ge; lia).
    now rewrite Nat2Z.id.
Qed.

(** [findVictim] returns [-1] when every frame is pinned, and otherwise
    the position of the least recently used unpinned frame. *)
Lemma findVictim_spec (bp : BufferPool.t) :
  indexable bp ->
  (BufferPool.findVictim bp = -1
   /\ forall f, f ∈ BufferPool.frames_ bp -> BufferPool.pinCount f <> 0)
  \/ exists v, lru_unpinned (BufferPool.frames_ bp)
                 (BufferPool.findVictim bp) v.
Proof.
  intros Hfit. unfold BufferPool.findVictim.
  pose proof (min_element_first_minimum BufferPool.victim_less
                victim_less_irreflexive victim_less_transitive
                victim_less_cotransitive (BufferPool.frames_ bp)) as Hmin.
  destruct (BufferPool.min_element _ _) as [m |].
  - destruct Hmin as (x & Hx & Hleast & Hfirst). rewrite Hx.
    destruct (frame_index_exact bp m x Hfit Hx) as [Hindex _].
    destruct (Z.eqb_spec (BufferPool.pinCount x) 0) as [Hunpinned | Hpinned].
    + right. exists x. rewrite Hindex.
      repeat split; [lia | now rewrite Nat2Z.id | assumption |].
      intros j f Hf Hfree.
      pose proof (Hleast j f Hf) as Hfx. apply victim_less_false in Hfx.
      unfold pinned_rank in Hfx. rewrite Hunpinned, Hfree in Hfx.
      cbn in Hfx.
      destruct (Z.lt_total (BufferPool.lastAccessTime x)
                  (BufferPool.lastAccessTime f)) as [? | [Heq | ?]];
        [now left | | lia].
      right. split; [assumption |].
      destruct (Nat.le_gt_cases m j) as [? | Hjm]; [lia |].
      pose proof (Hfirst j f Hjm Hf) as Hxf. apply victim_less_spec in Hxf.
      unfold pinned_rank in Hxf. rewrite Hunpinned, Hfree in Hxf.
      cbn in Hxf. lia.
    + left. split; [reflexivity |]. intros f Hf Hfree.
      apply list_elem_of_lookup_1 in Hf as [j Hf].
      pose proof (Hleast j f Hf) as Hfx. apply victim_less_false in Hfx.
      unfold pinned_rank in Hfx. rewrite Hfree in Hfx.
      apply Z.eqb_neq in Hpinned. rewrite Hpinned in Hfx. cbn in Hfx. lia.
  - left. split; [reflexivity |]. rewrite Hmin. intros f Hf.
    now apply elem_of_nil in Hf.
Qed.

Lemma lru_unpinned_frame_at (frames : list BufferPool.Frame) (index : Z)
    (v : BufferPool.Frame) :
  lru_unpinned frames index v ->
  (index =? -1) = false /\ BufferPool.frame_at frames index = Some v.
Proof.
  intros (Hpos & Hv & _). split; [apply Z.eqb_neq; lia |].
  unfold BufferPool.frame_at.
  now replace (index <? 0) with false by (symmetry; apply Z.ltb_ge; lia).
Qed.

(** No frame is unpinned: neither search of [fixPage] finds one. *)
Lemma all_pinned_searches (bp : BufferPool.t) :
  indexable bp ->
  (forall f, f ∈ BufferPool.frames_ bp -> BufferPool.pinCount f <> 0) ->
  BufferPool.find_if BufferPool.is_empty_frame (BufferPool.frames_ bp) = None
  /\ BufferPool.findVictim bp = -1.
Proof.
  intros Hfit Hpinned. split.
  - apply find_if_None. intros f Hf. unfold BufferPool.is_empty_frame.
    apply Hpinned, Z.eqb_neq in Hf. now rewrite Hf.
  - destruct (findVictim_spec bp Hfit)
      as [[Hnone _] | (v & _ & Hv & Hfree & _)]; [assumption |].
    apply list_elem_of_lookup_2, Hpinned in Hv. contradiction.
Qed.

(** ** Properties of the buffer pool *)

(** C5 (victim selection).  Let [fixPage] miss the page table.  If no
    frame has [pinCount == 0], it returns null and leaves the pool and
    the disk manager as they were.  If no frame is empty and some
    frame has [pinCount == 0], the frame it evicts is the one
    [findVictim] returns: an unpinned frame (so never one with
    [pinCount > 0]) with the smallest [lastAccessTime] among the
    unpinned frames and the lowest index among those with that time.
    That frame's page is written back when it is dirty and has an id
    other than [-1], its id leaves the page table, and the requested
    page is read into it: when the read succeeds the call returns the
    page of that frame, which now holds the page read, pinned once,
    and is listed under [pageId]; when the read fails the call returns
    null with the frames as they were.  Every other frame is left as
    it was. *)
Theorem victim_selection (bp : BufferPool.t) (dm : DiskManager.t)
    (pageId : Z) (isWrite : bool) (now : Z) (wenv renv : DiskManager.io) :
  indexable bp ->
  BufferPool.pageTable_ bp !! pageId = None ->
  let frames := BufferPool.frames_ bp in
  let outcome := BufferPool.fixPage bp dm pageId isWrite now wenv renv in
  let bp' := fst (fst outcome) in
  ((forall f, f ∈ frames -> BufferPool.pinCount f <> 0) ->
   outcome = (bp, dm, None))
  /\ (BufferPool.find_if BufferPool.is_empty_frame frames = None ->
      (exists f, f ∈ frames /\ BufferPool.pinCount f = 0) ->
      exists v,
        lru_unpinned frames (BufferPool.findVictim bp) v
        /\ ~ 0 < BufferPool.pinCount v
        /\ (forall j : nat,
              Z.of_nat j <> BufferPool.findVictim bp ->
              BufferPool.frames_ bp' !! j = frames !! j)
        /\ (snd outcome = None
            \/ snd outcome = Some (BufferPool.findVictim bp)
               /\ BufferPool.pageTable_ bp' !! pageId
                  = Some (BufferPool.findVictim bp))
        /\ let victimPageId := Page.getPageId (BufferPool.page v) in
           let dm1 :=
             if BufferPool.isDirty v && negb (victimPageId =? -1)
             then fst (DiskManager.writePage dm victimPageId
                         (BufferPool.page v) wenv)
             else dm in
           let read :=
             DiskManager.readPage dm1 pageId (BufferPool.page v) renv in
           snd (fst outcome) = fst (fst read)
           /\ BufferPool.poolSize_ bp' = BufferPool.poolSize_ bp
           /\ (snd read = true ->
               snd outcome = Some (BufferPool.findVictim bp)
               /\ BufferPool.frames_ bp'
                    !! Z.to_nat (BufferPool.findVictim bp)
                  = Some (BufferPool.loaded (snd (fst read)) pageId isWrite
                            now)
               /\ BufferPool.pageTable_ bp'
                  = <[pageId := BufferPool.findVictim bp]>
                      (delete victimPageId (BufferPool.pageTable_ bp)))
           /\ (snd read = false ->
               snd outcome = None
               /\ BufferPool.frames_ bp' = frames
               /\ BufferPool.pageTable_ bp'
                  = delete victimPageId (BufferPool.pageTable_ bp))).
Proof.
  intros Hfit Hmiss frames outcome bp'. subst frames bp' outcome. split.
  - intros Hpinned.
    destruct (all_pinned_searches bp Hfit Hpinned) as [Hempty Hvictim].
    unfold BufferPool.fixPage. now rewrite Hmiss, Hempty, Hvictim.
  - intros Hempty (f & Hf & Hfree).
    destruct (findVictim_spec bp Hfit) as [[_ Hpinned] | [v Hv]];
      [now apply Hpinned in Hf |].
    exists v. split; [assumption |].
    destruct (lru_unpinned_frame_at _ _ _ Hv) as [Hfound Hframe].
    destruct Hv as (Hpos & Hlookup & Hunpinned & _).
    split; [lia |]. cbv zeta.
    unfold BufferPool.fixPage. rewrite Hmiss, Hempty, Hfound, Hframe.
    destruct (DiskManager.readPage _ pageId (BufferPool.page v) renv)
      as [[dm2 page'] ok].
    destruct ok;
      cbn [negb fst snd BufferPool.frames_ BufferPool.pageTable_
           BufferPool.poolSize_].
    + split.
      { intros j Hj. unfold BufferPool.set_frame.
        replace (BufferPool.findVictim bp <? 0) with false
          by (symmetry; apply Z.ltb_ge; lia).
        apply list_lookup_insert_ne. lia. }
      split; [right; split; [reflexivity | apply lookup_insert_eq] |].
      split; [reflexivity |]. split; [reflexivity |].
      split; [| discriminate]. intros _.
      split; [reflexivity |]. split; [| reflexivity].
      unfold BufferPool.set_frame.
      replace (BufferPool.findVictim bp <? 0) with false
        by (symmetry; apply Z.ltb_ge; lia).
      apply list_lookup_insert_eq. now apply lookup_lt_Some in Hlookup.
    + split; [reflexivity |]. split; [now left |].
      split; [reflexivity |]. split; [reflexivity |].
      split; [discriminate |]. intros _. now repeat split.
Qed.

Lemma victim_selection_witness :
  let frame (id pins : Z) (dirty : bool) (time : Z) :=
    {| BufferPool.page := Page.setPageId Page.new id;
       BufferPool.pinCount := pins;
       BufferPool.isDirty := dirty;
       BufferPool.lastAccessTime := time |} in
  let bp :=
    {| BufferPool.poolSize_ := 3;
       BufferPool.frames_ :=
         [frame 5 1 false 0; frame 0 0 true 7; frame 3 0 false 7];
       BufferPool.pageTable_ := {[ 5 := 0; 0 := 1; 3 := 2 ]} |} in
  let env := DiskManager.mk_io true true true [] in
  let dm := fst (DiskManager.allocate_all (DiskManager.open []) [env; env]) in
  let outcome := BufferPool.fixPage bp dm 1 false 8 env env in
  BufferPool.findVictim bp = 1
  /\ snd outcome = Some 1
  /\ BufferPool.pageTable_ (fst (fst outcome)) !! 0 = None
  /\ BufferPool.pageTable_ (fst (fst outcome)) !! 1 = Some 1
  /\ snd (fst outcome)
     = fst (DiskManager.writePage dm 0 (Page.setPageId Page.new 0) env).
Proof.
  intros frame bp env dm outcome.
  assert (Hvictim : BufferPool.findVictim bp = 1) by reflexivity.
  destruct (victim_selection bp dm 1 false 8 env env)
    as [_ Hevict]; [vm_compute; congruence | reflexivity |].
  destruct Hevict as (v & Hv & _ & _ & _ & Hdone); [reflexivity | |].
  - exists (frame 0 0 true 7). split; [| reflexivity].
    apply list_elem_of_lookup_2 with (i := 1%nat). reflexivity.
  - destruct Hv as (_ & Hlookup & _). rewrite Hvictim in Hlookup.
    change (bp.(BufferPool.frames_) !! Z.to_nat 1)
      with (Some (frame 0 0 true 7)) in Hlookup.
    injection Hlookup as <-.
    cbv zeta in Hdone. destruct Hdone as (Hdisk & _ & Hgood & _).
    destruct Hgood as (Hresult & _ & Htable); [vm_compute; reflexivity |].
    fold outcome in Hdisk, Hresult, Htable.
    rewrite Hvictim in Hresult, Htable.
    split; [exact Hvictim |]. split; [exact Hresult |].
    rewrite Htable. split; [reflexivity |]. split; [reflexivity |].
    rewrite Hdisk. vm_compute. reflexivity.
Defined.

(** C6 (unfixPage on an unknown or unpinned page), as amended.
    [unfixPage] with a page id that is not in the page table leaves
    the whole pool unchanged.  On a frame whose [pinCount] is 0 it
    leaves the pin count at 0 and the page table, the pool size, the
    frame's page and every other frame unchanged, but it sets the
    frame's dirty flag to [dirty || markDirty] and its
    [lastAccessTime] to the current time.  No call makes a pin count
    negative. *)
Theorem unfixPage_unknown_or_unpinned (bp : BufferPool.t) (pg : Page.t)
    (markDirty : bool) (now : Z) :
  let bp' := BufferPool.unfixPage bp pg markDirty now in
  (BufferPool.pageTable_ bp !! Page.getPageId pg = None -> bp' = bp)
  /\ (forall index f,
        BufferPool.pageTable_ bp !! Page.getPageId pg = Some index ->
        BufferPool.frame_at (BufferPool.frames_ bp) index = Some f ->
        BufferPool.pinCount f = 0 ->
        BufferPool.pageTable_ bp' = BufferPool.pageTable_ bp
        /\ BufferPool.poolSize_ bp' = BufferPool.poolSize_ bp
        /\ BufferPool.frame_at (BufferPool.frames_ bp') index
           = Some {| BufferPool.page := BufferPool.page f;
                     BufferPool.pinCount := 0;
                     BufferPool.isDirty := markDirty || BufferPool.isDirty f;
                     BufferPool.lastAccessTime := now |}
        /\ forall j : nat,
             Z.of_nat j <> index ->
             BufferPool.frames_ bp' !! j = BufferPool.frames_ bp !! j)
  /\ ((forall f, f ∈ BufferPool.frames_ bp ->
         0 <= BufferPool.pinCount f <= INT_MAX) ->
      forall f, f ∈ BufferPool.frames_ bp' ->
        0 <= BufferPool.pinCount f <= INT_MAX).
Proof.
  intros bp'. subst bp'. unfold BufferPool.unfixPage.
  split; [| split].
  - now intros ->.
  - intros index f -> Hf Hfree. rewrite Hf.
    cbn [BufferPool.pageTable_ BufferPool.poolSize_ BufferPool.frames_].
    unfold BufferPool.frame_at, BufferPool.set_frame in *.
    destruct (index <? 0) eqn:Hneg; [discriminate |].
    apply Z.ltb_ge in Hneg.
    repeat split.
    + rewrite list_lookup_insert_eq by now apply lookup_lt_Some in Hf.
      rewrite Hfree. cbn. now destruct markDirty.
    + intros j Hj. apply list_lookup_insert_ne. lia.
  - intros Hpins f.
    destruct (BufferPool.pageTable_ bp !! Page.getPageId pg) as [index |];
      [| apply Hpins].
    destruct (BufferPool.frame_at (BufferPool.frames_ bp) index)
      as [f0 |] eqn:Hf0; [| apply Hpins].
    cbn [BufferPool.frames_]. unfold BufferPool.frame_at in Hf0.
    unfold BufferPool.set_frame.
    destruct (index <? 0); [discriminate |].
    intros Hf. apply list_elem_of_lookup_1 in Hf as [j Hf].
    apply list_lookup_insert_Some in Hf as [(_ & <- & _) | (_ & Hf)].
    + apply list_elem_of_lookup_2, Hpins in Hf0.
      cbn [BufferPool.pinCount].
      destruct (Z.ltb_spec 0 (BufferPool.pinCount f0)); [| lia].
      rewrite to_int_id by int_side. lia.
    + now apply list_elem_of_lookup_2, Hpins in Hf.
Qed.

Lemma unfixPage_unknown_or_unpinned_witness :
  BufferPool.unfixPage pool_one_unpinned (Page.setPageId Page.new 2) true 5
  = pool_one_unpinned.
Proof.
  apply (unfixPage_unknown_or_unpinned pool_one_unpinned
           (Page.setPageId Page.new 2) true 5).
  reflexivity.
Defined.

(** C6 as stated fails: [pool_one_unpinned] caches page 1 in a frame
    with [pinCount == 0]; [unfixPage] on that page with
    [markDirty = true] at tick 5 marks the frame dirty and moves its
    [lastAccessTime] from 0 to 5, so the pool state is not
    unchanged. *)
Lemma unfixPage_unpinned_counterexample :
  let pg := Page.setPageId Page.new 1 in
  let bp' := BufferPool.unfixPage pool_one_unpinned pg true 5 in
  BufferPool.pageTable_ pool_one_unpinned !! Page.getPageId pg = Some 0
  /\ BufferPool.pinCount <$> BufferPool.frames_ pool_one_unpinned !! 0%nat
     = Some 0
  /\ BufferPool.isDirty <$> BufferPool.frames_ pool_one_unpinned !! 0%nat
     = Some false
  /\ BufferPool.isDirty <$> BufferPool.frames_ bp' !! 0%nat = Some true
  /\ BufferPool.lastAccessTime <$> BufferPool.frames_ bp' !! 0%nat = Some 5
  /\ bp' <> pool_one_unpinned.
Proof.
  intros pg bp'. repeat split; try reflexivity.
  intros Hsame.
  apply (f_equal (fun b => BufferPool.isDirty
                             <$> BufferPool.frames_ b !! 0%nat)) in Hsame.
  vm_compute in Hsame. discriminate.
Qed.

(** C9 (fixPage after a failed read).  Let [fixPage] miss the page
    table.  If it loads into the first empty frame and the read of the
    page fails, it returns null, that frame still has [pinCount == 0],
    and [pageId] is not in the page table.  If there is no empty frame
    and it evicts the frame [findVictim] returns, and the read that
    follows the write-back fails, it returns null, the frame still has
    [pinCount == 0], [pageId] is not in the page table, and the id of
    the page the frame held has left the page table. *)
Theorem fixPage_read_failure (bp : BufferPool.t) (dm : DiskManager.t)
    (pageId : Z) (isWrite : bool) (now : Z) (wenv renv : DiskManager.io) :
  indexable bp ->
  BufferPool.pageTable_ bp !! pageId = None ->
  let frames := BufferPool.frames_ bp in
  let outcome := BufferPool.fixPage bp dm pageId isWrite now wenv renv in
  let bp' := fst (fst outcome) in
  (forall i : nat,
     BufferPool.find_if BufferPool.is_empty_frame frames = Some i ->
     exists f,
       frames !! i = Some f
       /\ (snd (DiskManager.readPage dm pageId (BufferPool.page f) renv)
           = false ->
           snd outcome = None
           /\ BufferPool.frames_ bp' !! i = Some f
           /\ BufferPool.pinCount f = 0
           /\ BufferPool.pageTable_ bp' !! pageId = None))
  /\ (BufferPool.find_if BufferPool.is_empty_frame frames = None ->
      BufferPool.findVictim bp <> -1 ->
      exists f,
        frames !! Z.to_nat (BufferPool.findVictim bp) = Some f
        /\ let victimPageId := Page.getPageId (BufferPool.page f) in
           let dm1 :=
             if BufferPool.isDirty f && negb (victimPageId =? -1)
             then fst (DiskManager.writePage dm victimPageId
                         (BufferPool.page f) wenv)
             else dm in
           (snd (DiskManager.readPage dm1 pageId (BufferPool.page f) renv)
            = false ->
            snd outcome = None
            /\ BufferPool.frames_ bp' !! Z.to_nat (BufferPool.findVictim bp)
               = Some f
            /\ BufferPool.pinCount f = 0
            /\ BufferPool.pageTable_ bp' !! pageId = None
            /\ BufferPool.pageTable_ bp' !! victimPageId = None)).
Proof.
  intros Hfit Hmiss frames outcome bp'. subst frames outcome bp'. split.
  - intros i Hempty.
    destruct (find_if_Some _ _ _ Hempty) as (f & Hf & Hpred).
    exists f. split; [assumption |].
    destruct (frame_index_exact bp i f Hfit Hf) as [Hindex Hframe].
    unfold BufferPool.fixPage. rewrite Hmiss, Hempty, Hindex, Hframe.
    destruct (DiskManager.readPage dm pageId (BufferPool.page f) renv)
      as [[dm' page'] ok].
    cbn [snd]. intros ->. cbn [negb fst snd].
    unfold BufferPool.is_empty_frame in Hpred.
    apply andb_prop in Hpred as [Hfree _]. apply Z.eqb_eq in Hfree.
    auto.
  - intros Hempty Hvictim.
    destruct (findVictim_spec bp Hfit) as [[Hnone _] | [v Hv]];
      [contradiction |].
    exists v.
    destruct (lru_unpinned_frame_at _ _ _ Hv) as [Hfound Hframe].
    destruct Hv as (Hpos & Hlookup & Hunpinned & _).
    split; [assumption |]. cbv zeta.
    unfold BufferPool.fixPage. rewrite Hmiss, Hempty, Hfound, Hframe.
    destruct (DiskManager.readPage _ pageId (BufferPool.page v) renv)
      as [[dm2 page'] ok].
    cbn [snd]. intros ->.
    cbn [negb fst snd BufferPool.frames_ BufferPool.pageTable_].
    repeat split; try assumption.
    + apply lookup_delete_None. now right.
    + apply lookup_delete_eq.
Qed.

Lemma fixPage_read_failure_witness :
  let renv := DiskManager.mk_io true false true [] in
  let wenv := DiskManager.mk_io true true true [] in
  let outcome :=
    BufferPool.fixPage pool_one_unpinned (DiskManager.open []) 4 false 9
      wenv renv in
  snd outcome = None
  /\ BufferPool.pageTable_ (fst (fst outcome)) !! 4 = None
  /\ BufferPool.pageTable_ (fst (fst outcome)) !! 1 = None.
Proof.
  intros renv wenv outcome.
  destruct (fixPage_read_failure pool_one_unpinned (DiskManager.open []) 4
              false 9 wenv renv) as [_ Hevict];
    [vm_compute; congruence | reflexivity |].
  destruct Hevict as (f & Hf & Hfail);
    [reflexivity | vm_compute; congruence |].
  vm_compute in Hf. injection Hf as <-.
  destruct Hfail as (Hnull & _ & _ & Hpage & Hvictim); [reflexivity |].
  repeat split; assumption.
Defined.

(** * Further properties *)

(** ** Records of a page *)

Lemma delete_last {A : Type} (l : list A) (x : A) :
  delete (length l) (l ++ [x]) = l.
Proof.
  rewrite delete_take_drop, take_app_length.
  rewrite drop_ge by (rewrite length_app; cbn; lia).
  apply app_nil_r.
Qed.

(** X1.  Free-space accounting on a page that stores [records]: a
    successful [insertRecord] of [length] bytes lowers [getFreeSpace]
    by exactly [length + sizeof(Slot)], and [deleteRecord] of a slot
    in range raises it by exactly the slot's length plus
    [sizeof(Slot)]. *)
Theorem free_space_accounting (p : Page.t) (records : list (list byte)) :
  represents p records ->
  (forall record len,
     insert_in_contract record len ->
     snd (Page.insertRecord p record len) <> -1 ->
     Page.getFreeSpace (fst (Page.insertRecord p record len))
     = Page.getFreeSpace p - (len + Slot.sizeof))
  /\ (forall slotId s,
        Page.slot_at (Page.slotDirectory p) slotId = Some s ->
        slotId < PageHeader.numberOfSlots (Page.header p) ->
        Page.getFreeSpace (fst (Page.deleteRecord p slotId))
        = Page.getFreeSpace p + (Slot.length s + Slot.sizeof)).
Proof.
  intros Hp. pose proof (represents_counters _ _ Hp) as Hrange. split.
  - intros record len Hcontract Hok.
    destruct (insertRecord_represents _ _ _ _ Hp Hcontract)
      as [[_ Hfail] | (Hroom & _ & Hp')].
    { rewrite Hfail in Hok. now cbn in Hok. }
    destruct Hcontract as (Hpos & _ & Hmax).
    destruct (insertRecord_within_int p record len Hrange Hpos Hmax)
      as (_ & _ & _ & Hdone).
    destruct (Hdone Hroom) as (_ & _ & Hfso & Hn & _).
    rewrite (getFreeSpace_exact _ (represents_counters _ _ Hp')).
    rewrite (getFreeSpace_exact _ Hrange), Hfso, Hn. lia.
  - intros slotId s Hs Hlt.
    assert (Hrange' : 0 <= slotId < PageHeader.numberOfSlots (Page.header p)).
    { split; [| assumption]. unfold Page.slot_at in Hs.
      destruct (Z.ltb_spec slotId 0); [discriminate | assumption]. }
    destruct (deleteRecord_compacts p records slotId Hp Hrange')
      as (s' & Hs' & _ & Hcompacts).
    rewrite Hs in Hs'. injection Hs' as <-.
    destruct (deleteRecord_represents p records slotId Hp)
      as [[? _] | (_ & _ & Hp')]; [lia |].
    rewrite (getFreeSpace_exact _ (represents_counters _ _ Hp')).
    rewrite (getFreeSpace_exact _ Hrange).
    rewrite (cbo_free _ _ _ Hcompacts), (cbo_count _ _ _ Hcompacts). lia.
Qed.

Lemma free_space_accounting_witness :
  Page.getFreeSpace (fst (Page.insertRecord Page.new alpha 5))
  = Page.getFreeSpace Page.new - (5 + Slot.sizeof).
Proof.
  destruct (free_space_accounting Page.new [] represents_new)
    as [Hinsert _].
  apply (Hinsert alpha 5);
    [unfold insert_in_contract, Slot.sizeof, INT_MAX; cbn; lia
    | vm_compute; congruence].
Defined.

(** X2.  Insert then look up, on a page that stores [records]: after a
    successful [insertRecord], [getRecord] under the returned slot id
    gives back the [length] bytes inserted, and under every slot id
    that was already in use it gives what it gave before (slot ids are
    stable across inserts). *)
Theorem insertRecord_then_getRecord (p : Page.t)
    (records : list (list byte)) (record : list byte) (len : Z) :
  represents p records ->
  insert_in_contract record len ->
  snd (Page.insertRecord p record len) <> -1 ->
  let p' := fst (Page.insertRecord p record len) in
  Page.getRecord p' (snd (Page.insertRecord p record len))
  = (len, take (Z.to_nat len) record)
  /\ forall slotId,
       0 <= slotId < PageHeader.numberOfSlots (Page.header p) ->
       Page.getRecord p' slotId = Page.getRecord p slotId.
Proof.
  intros Hp Hcontract Hok p'. subst p'.
  destruct (insertRecord_represents _ _ _ _ Hp Hcontract)
    as [[_ Hfail] | (_ & Hid & Hp')].
  { rewrite Hfail in Hok. now cbn in Hok. }
  pose proof (rep_count _ _ Hp) as Hcount.
  pose proof (rep_count _ _ Hp') as Hcount'.
  rewrite length_app in Hcount'. cbn [length] in Hcount'.
  destruct Hcontract as (Hpos & Hrecord & _).
  split.
  - rewrite Hid.
    destruct (getRecord_represents _ _ (Z.of_nat (length records)) Hp')
      as (r & Hr & Hget); [lia |].
    rewrite Nat2Z.id, lookup_app_r, Nat.sub_diag in Hr by lia.
    injection Hr as <-. rewrite Hget, length_take. repeat f_equal. lia.
  - intros slotId Hrange.
    destruct (getRecord_represents _ _ slotId Hp') as (r' & Hr' & ->);
      [lia |].
    destruct (getRecord_represents _ _ slotId Hp) as (r & Hr & ->);
      [lia |].
    rewrite lookup_app_l in Hr' by lia. congruence.
Qed.

Lemma insertRecord_then_getRecord_witness :
  let p1 := fst (Page.insertRecord Page.new alpha 5) in
  Page.getRecord (fst (Page.insertRecord p1 beta 4)) 1 = (4, beta)
  /\ Page.getRecord (fst (Page.insertRecord p1 beta 4)) 0
     = Page.getRecord p1 0.
Proof.
  intros p1.
  assert (Hp1 : represents p1 ([] ++ [take (Z.to_nat 5) alpha])).
  { destruct (insertRecord_represents Page.new [] alpha 5 represents_new)
      as [[Hfull _] | (_ & _ & Hp1)];
      [unfold insert_in_contract, Slot.sizeof, INT_MAX; cbn; lia
      | vm_compute in Hfull; discriminate | exact Hp1]. }
  destruct (insertRecord_then_getRecord p1 _ beta 4 Hp1) as [Hnew Hold];
    [unfold insert_in_contract, Slot.sizeof, INT_MAX; cbn; lia
    | vm_compute; congruence |].
  split; [exact Hnew | apply Hold; vm_compute; split; congruence].
Defined.

(** X3.  Delete then look up, on a page that stores [records]: after
    [deleteRecord(slotId)] on a slot in range, [getRecord] gives the
    old record of the same id below [slotId] and the old record of the
    next id from [slotId] on; the last old id is out of range. *)
Theorem deleteRecord_then_getRecord (p : Page.t)
    (records : list (list byte)) (slotId : Z) :
  represents p records ->
  0 <= slotId < PageHeader.numberOfSlots (Page.header p) ->
  let p' := fst (Page.deleteRecord p slotId) in
  (forall j,
     0 <= j < PageHeader.numberOfSlots (Page.header p) - 1 ->
     Page.getRecord p' j
     = Page.getRecord p (if j <? slotId then j else j + 1))
  /\ Page.getRecord p' (PageHeader.numberOfSlots (Page.header p) - 1)
     = (-1, []).
Proof.
  intros Hp Hrange p'. subst p'.
  destruct (deleteRecord_represents p records slotId Hp)
    as [[? _] | (_ & _ & Hp')]; [lia |].
  pose proof (rep_count _ _ Hp) as Hcount.
  pose proof (rep_count _ _ Hp') as Hcount'.
  rewrite length_delete in Hcount'
    by (apply lookup_lt_is_Some_2; lia).
  split.
  - intros j Hj.
    destruct (getRecord_represents _ _ j Hp') as (r' & Hr' & ->); [lia |].
    destruct (Z.ltb_spec j slotId) as [Hlt | Hge].
    + destruct (getRecord_represents _ _ j Hp) as (r & Hr & ->); [lia |].
      rewrite list_lookup_delete_lt in Hr' by lia. congruence.
    + destruct (getRecord_represents _ _ (j + 1) Hp) as (r & Hr & ->);
        [lia |].
      rewrite list_lookup_delete_ge in Hr' by lia.
      replace (Z.to_nat (j + 1)) with (S (Z.to_nat j)) in Hr by lia.
      congruence.
  - apply out_of_range_getRecord. lia.
Qed.

Lemma deleteRecord_then_getRecord_witness :
  Page.getRecord (fst (Page.deleteRecord page_abg 0)) 1
  = Page.getRecord page_abg 2.
Proof.
  destruct (reachable_represents _ page_abg_reachable) as [records Hp].
  destruct (deleteRecord_then_getRecord page_abg records 0 Hp) as [Hget _];
    [vm_compute; split; congruence |].
  apply (Hget 1). vm_compute. split; congruence.
Defined.

(** X4.  Deleting the record just inserted undoes the insert: on a page
    that stores [records], a successful [insertRecord] followed by
    [deleteRecord] of the returned slot id gives a page with the old
    [freeSpaceOffset], [numberOfSlots], slot directory, record bytes
    and free space, which stores [records] again. *)
Theorem insertRecord_then_deleteRecord (p : Page.t)
    (records : list (list byte)) (record : list byte) (len : Z) :
  represents p records ->
  insert_in_contract record len ->
  snd (Page.insertRecord p record len) <> -1 ->
  let inserted := Page.insertRecord p record len in
  let deleted := Page.deleteRecord (fst inserted) (snd inserted) in
  let fso := PageHeader.freeSpaceOffset (Page.header p) in
  snd deleted = true
  /\ represents (fst deleted) records
  /\ PageHeader.freeSpaceOffset (Page.header (fst deleted)) = fso
  /\ PageHeader.numberOfSlots (Page.header (fst deleted))
     = PageHeader.numberOfSlots (Page.header p)
  /\ Page.slotDirectory (fst deleted) = Page.slotDirectory p
  /\ bytes_at (Page.data (fst deleted)) 0 fso = bytes_at (Page.data p) 0 fso
  /\ Page.getFreeSpace (fst deleted) = Page.getFreeSpace p.
Proof.
  intros Hp Hcontract Hok inserted deleted fso. subst inserted deleted fso.
  destruct (insertRecord_represents _ _ _ _ Hp Hcontract)
    as [[_ Hfail] | (_ & Hid & Hp')].
  { rewrite Hfail in Hok. now cbn in Hok. }
  rewrite Hid.
  destruct (deleteRecord_represents _ _ (Z.of_nat (length records)) Hp')
    as [[Hout _] | (_ & Hdeleted & Hp'')].
  { rewrite (rep_count _ _ Hp'), length_app in Hout. cbn in Hout. lia. }
  rewrite Nat2Z.id, delete_last in Hp''.
  assert (Hfso :
            PageHeader.freeSpaceOffset
              (Page.header (fst (Page.deleteRecord
                                   (fst (Page.insertRecord p record len))
                                   (Z.of_nat (length records)))))
            = PageHeader.freeSpaceOffset (Page.header p))
    by now rewrite (rep_end _ _ Hp''), (rep_end _ _ Hp).
  assert (Hn :
            PageHeader.numberOfSlots
              (Page.header (fst (Page.deleteRecord
                                   (fst (Page.insertRecord p record len))
                                   (Z.of_nat (length records)))))
            = PageHeader.numberOfSlots (Page.header p))
    by now rewrite (rep_count _ _ Hp''), (rep_count _ _ Hp).
  do 4 (split; [assumption |]). split; [| split].
  - now rewrite (rep_directory _ _ Hp''), (rep_directory _ _ Hp).
  - rewrite <- Hfso at 1.
    now rewrite (rep_bytes _ _ Hp''), (rep_bytes _ _ Hp).
  - rewrite (getFreeSpace_exact _ (represents_counters _ _ Hp'')).
    rewrite (getFreeSpace_exact _ (represents_counters _ _ Hp)).
    now rewrite Hfso, Hn.
Qed.

Lemma insertRecord_then_deleteRecord_witness :
  Page.slotDirectory
    (fst (Page.deleteRecord (fst (Page.insertRecord Page.new alpha 5)) 0))
  = Page.slotDirectory Page.new.
Proof.
  destruct (insertRecord_then_deleteRecord Page.new [] alpha 5
              represents_new) as (_ & _ & _ & _ & Hdir & _);
    [unfold insert_in_contract, Slot.sizeof, INT_MAX; cbn; lia
    | vm_compute; congruence | exact Hdir].
Defined.

(** X5.  What [deleteRecord] rejects, on any page object whose
    directory has [numberOfSlots] entries (for instance one read from
    a file): it returns [false] exactly for a slot id out of range or
    a directory entry with [isValid == false]; a rejected call leaves
    the page as it was, and [getRecord] on such an entry returns
    [-1]. *)
Theorem deleteRecord_rejects (p : Page.t) (slotId : Z) :
  Z.of_nat (length (Page.slotDirectory p))
  = PageHeader.numberOfSlots (Page.header p) ->
  let rejected :=
    slotId < 0 \/ PageHeader.numberOfSlots (Page.header p) <= slotId
    \/ exists s, Page.slot_at (Page.slotDirectory p) slotId = Some s
                 /\ Slot.isValid s = false in
  (snd (Page.deleteRecord p slotId) = false <-> rejected)
  /\ (snd (Page.deleteRecord p slotId) = false ->
      fst (Page.deleteRecord p slotId) = p)
  /\ (rejected -> Page.getRecord p slotId = (-1, [])).
Proof.
  intros Hsize rejected. subst rejected.
  unfold Page.deleteRecord, Page.getRecord.
  destruct (Z.ltb_spec slotId 0) as [Hneg | Hpos]; cbn [orb].
  { repeat split; auto. }
  destruct (Z.leb_spec (PageHeader.numberOfSlots (Page.header p)) slotId)
    as [Hbig | Hsmall].
  { repeat split; auto. }
  destruct (Page.slot_at (Page.slotDirectory p) slotId) as [s |] eqn:Hs.
  - destruct (Slot.isValid s) eqn:Hvalid; cbn [negb fst snd].
    + repeat split; try discriminate.
      * intros [? | [? | (s' & [= <-] & Hs')]]; [lia | lia | congruence].
      * intros [? | [? | (s' & [= <-] & Hs')]]; [lia | lia | congruence].
    + repeat split; eauto.
  - exfalso. unfold Page.slot_at in Hs.
    replace (slotId <? 0) with false in Hs
      by (symmetry; apply Z.ltb_ge; lia).
    apply lookup_ge_None in Hs. lia.
Qed.

Lemma deleteRecord_rejects_witness :
  fst (Page.deleteRecord page_abg 3) = page_abg.
Proof.
  destruct (deleteRecord_rejects page_abg 3) as (_ & Hsame & _);
    [reflexivity |].
  apply Hsame. reflexivity.
Defined.

(** ** The page image *)

Lemma bytes_at_bytes_at (buf : list byte) (a n b m : Z) :
  0 <= a -> 0 <= b -> 0 <= m -> b + m <= n ->
  bytes_at (bytes_at buf a n) b m = bytes_at buf (a + b) m.
Proof.
  intros Ha Hb Hm Hfit. unfold bytes_at.
  replace (Z.to_nat n) with (Z.to_nat b + Z.to_nat (n - b))%nat by lia.
  rewrite <- take_drop_commute, take_take, drop_drop.
  f_equal; [lia | f_equal; lia].
Qed.

Lemma directory_bytes_slot (dir : list Slot.t) (i : nat) (s : Slot.t) :
  dir !! i = Some s ->
  bytes_at (Page.directory_bytes dir) (Z.of_nat i * Slot.sizeof)
    Slot.sizeof
  = Slot.to_bytes s.
Proof.
  unfold Page.directory_bytes, Slot.sizeof. revert i.
  induction dir as [| x dir IH]; intros i Hs; [now destruct i |].
  cbn [map concat]. destruct i as [| i].
  - injection Hs as ->. rewrite <- (app_nil_r (concat _)) at 1.
    rewrite app_assoc, <- app_assoc.
    now apply bytes_at_app_l.
  - rewrite (bytes_at_app_r _ _ _ (Z.of_nat i * 12))
      by (rewrite ?length_slot_bytes; lia).
    now apply IH.
Qed.

(** The image [serialize] writes, in terms of the object
    representations of this model, whose padding bytes are zero. *)
Lemma serialize_image (p : Page.t) (buffer : list byte) :
  counters_in_range p ->
  Z.of_nat (length (Page.data p)) = Page.dataAreaSize ->
  Z.of_nat (length (Page.slotDirectory p))
  = PageHeader.numberOfSlots (Page.header p) ->
  Z.of_nat (length buffer) = PAGE_SIZE ->
  let h := Page.header p in
  let fso := PageHeader.freeSpaceOffset h in
  let directory_start :=
    PageHeader.sizeof
    + (Page.dataAreaSize - PageHeader.numberOfSlots h * Slot.sizeof) in
  let image := Page.serialize p buffer in
  length image = length buffer
  /\ bytes_at image 0 PageHeader.sizeof = PageHeader.to_bytes h
  /\ bytes_at image PageHeader.sizeof fso = bytes_at (Page.data p) 0 fso
  /\ bytes_at image (PageHeader.sizeof + fso)
       (directory_start - (PageHeader.sizeof + fso))
     = bytes_at buffer (PageHeader.sizeof + fso)
         (directory_start - (PageHeader.sizeof + fso))
  /\ forall (i : nat) (s : Slot.t),
       Page.slotDirectory p !! i = Some s ->
       bytes_at image (directory_start + Z.of_nat i * Slot.sizeof)
         Slot.sizeof
       = Slot.to_bytes s.
Proof.
  intros (Hfso & Hn & Hfit) Hsize Hlen Hbuffer h fso start image.
  subst image. fold h fso in Hfso, Hn, Hfit, Hlen.
  pose proof (length_directory_bytes (Page.slotDirectory p)) as Hdb.
  rewrite Hlen in Hdb. fold h in Hdb.
  unfold Page.serialize. fold h fso.
  rewrite slot_directory_size_exact by int_side.
  fold Page.dataAreaSize.
  rewrite (to_int_id Page.dataAreaSize) by int_side.
  rewrite (to_int_id (_ - _)) by int_side.
  fold start.
  set (b1 := memcpy buffer 0 (PageHeader.to_bytes h) PageHeader.sizeof).
  set (b2 := memcpy b1 PageHeader.sizeof (Page.data p) fso).
  assert (Hb1 : length b1 = length buffer)
    by (apply length_memcpy; rewrite ?length_header_bytes; int_side).
  assert (Hb2 : length b2 = length b1)
    by (apply length_memcpy; int_side).
  assert (Hstart : PageHeader.sizeof + fso <= start
                   /\ start + PageHeader.numberOfSlots h * Slot.sizeof
                      = PAGE_SIZE)
    by (unfold start; int_side).
  split; [| split; [| split; [| split]]].
  - rewrite length_memcpy; [congruence | int_side ..].
  - rewrite bytes_at_memcpy_before by int_side.
    unfold b2. rewrite bytes_at_memcpy_before by int_side.
    unfold b1.
    rewrite bytes_at_memcpy by (rewrite ?length_header_bytes; int_side).
    apply firstn_all2. rewrite length_header_bytes. int_side.
  - rewrite bytes_at_memcpy_before by int_side.
    unfold b2. now rewrite bytes_at_memcpy by int_side.
  - rewrite bytes_at_memcpy_before by int_side.
    unfold b2. rewrite bytes_at_memcpy_after by int_side.
    unfold b1.
    apply bytes_at_memcpy_after; rewrite ?length_header_bytes; int_side.
  - intros i s Hs. pose proof (lookup_lt_Some _ _ _ Hs) as Hi.
    rewrite <- (bytes_at_bytes_at _ start
                  (PageHeader.numberOfSlots h * Slot.sizeof))
      by int_side.
    rewrite bytes_at_memcpy by int_side.
    rewrite firstn_all2 by lia.
    now apply directory_bytes_slot.
Qed.

Lemma header_fields_of_bytes (image : list byte) (h : PageHeader.t) :
  bytes_at image 0 PageHeader.sizeof = PageHeader.to_bytes h ->
  header_fields_at image h.
Proof.
  intros Himage. unfold header_fields_at, PageHeader.sizeof in *.
  replace (bytes_at image 0 4) with (bytes_at (bytes_at image 0 24) 0 4)
    by (now rewrite bytes_at_bytes_at by lia).
  replace (bytes_at image 4 1) with (bytes_at (bytes_at image 0 24) 4 1)
    by (now rewrite bytes_at_bytes_at by lia).
  replace (bytes_at image 8 8) with (bytes_at (bytes_at image 0 24) 8 8)
    by (now rewrite bytes_at_bytes_at by lia).
  replace (bytes_at image 16 4) with (bytes_at (bytes_at image 0 24) 16 4)
    by (now rewrite bytes_at_bytes_at by lia).
  replace (bytes_at image 20 4) with (bytes_at (bytes_at image 0 24) 20 4)
    by (now rewrite bytes_at_bytes_at by lia).
  rewrite Himage. repeat split.
Qed.

Lemma slot_fields_of_bytes (image : list byte) (pos : Z) (s : Slot.t) :
  0 <= pos ->
  bytes_at image pos Slot.sizeof = Slot.to_bytes s ->
  slot_fields_at image pos s.
Proof.
  intros Hpos Himage. unfold slot_fields_at, Slot.sizeof in *.
  replace (bytes_at image pos 4) with (bytes_at (bytes_at image pos 12) 0 4)
    by (rewrite bytes_at_bytes_at by lia; now rewrite Z.add_0_r).
  rewrite <- (bytes_at_bytes_at image pos 12 4 4) by lia.
  rewrite <- (bytes_at_bytes_at image pos 12 8 1) by lia.
  rewrite Himage. repeat split.
Qed.

(** X6.  The image [serialize] writes, for a page object whose
    counters satisfy invariant 1 and whose directory has
    [numberOfSlots] entries: the buffer keeps its size; the members of
    the header are at their offsets from byte 0 ([pageId] at 0,
    [dirty] at 4, [lsn] at 8, [freeSpaceOffset] at 16,
    [numberOfSlots] at 20), the record bytes
    [data[0..freeSpaceOffset)] follow at [sizeof(PageHeader)], the
    members of slot [i] are at [sizeof(PageHeader) + D
    - numberOfSlots * sizeof(Slot) + i * sizeof(Slot)] (slot 0
    lowest; [offset] at 0, [length] at 4, [isValid] at 8 from there),
    and the bytes between the records and the directory are left as
    the buffer had them.  Nothing is said of the padding bytes of the
    header and of the slots. *)
Theorem serialize_layout (p : Page.t) (buffer : list byte) :
  counters_in_range p ->
  Z.of_nat (length (Page.data p)) = Page.dataAreaSize ->
  Z.of_nat (length (Page.slotDirectory p))
  = PageHeader.numberOfSlots (Page.header p) ->
  Z.of_nat (length buffer) = PAGE_SIZE ->
  let h := Page.header p in
  let fso := PageHeader.freeSpaceOffset h in
  let directory_start :=
    PageHeader.sizeof
    + (Page.dataAreaSize - PageHeader.numberOfSlots h * Slot.sizeof) in
  let image := Page.serialize p buffer in
  length image = length buffer
  /\ header_fields_at image h
  /\ bytes_at image PageHeader.sizeof fso = bytes_at (Page.data p) 0 fso
  /\ bytes_at image (PageHeader.sizeof + fso)
       (directory_start - (PageHeader.sizeof + fso))
     = bytes_at buffer (PageHeader.sizeof + fso)
         (directory_start - (PageHeader.sizeof + fso))
  /\ forall (i : nat) (s : Slot.t),
       Page.slotDirectory p !! i = Some s ->
       slot_fields_at image (directory_start + Z.of_nat i * Slot.sizeof) s.
Proof.
  intros Hrange Hsize Hlen Hbuffer h fso start image.
  destruct (serialize_image p buffer Hrange Hsize Hlen Hbuffer)
    as (Hlength & Hheader & Hrecords & Hgap & Hslots).
  fold h fso start image in Hlength, Hheader, Hrecords, Hgap, Hslots.
  split; [assumption |].
  split; [now apply header_fields_of_bytes |].
  split; [assumption |]. split; [assumption |].
  intros i s Hs. apply slot_fields_of_bytes; [| now apply Hslots].
  destruct Hrange as (Hfso & Hn & Hfit). fold h fso in Hfso, Hn, Hfit.
  unfold start. int_side.
Qed.

Lemma serialize_layout_witness :
  let image :=
    Page.serialize page_abg (repeat Byte.x00 (Z.to_nat PAGE_SIZE)) in
  bytes_at image 24 14 = alpha ++ beta ++ gamma
  /\ slot_fields_at image 4060
       {| Slot.offset := 0; Slot.length := 5; Slot.isValid := true |}.
Proof.
  intros image.
  destruct (serialize_layout page_abg
              (repeat Byte.x00 (Z.to_nat PAGE_SIZE)))
    as (_ & _ & Hrecords & _ & Hslots);
    [vm_compute; repeat split; congruence | reflexivity ..|].
  split; [exact Hrecords | exact (Hslots 0%nat _ eq_refl)].
Defined.

Lemma length_directory_of_bytes (n : nat) (bs : list byte) :
  length (Page.directory_of_bytes n bs) = n.
Proof.
  revert bs. induction n as [| n IH]; intros bs;
    cbn [Page.directory_of_bytes length]; [| rewrite IH]; reflexivity.
Qed.

(** [deserialize] writes [data] below the decoded [freeSpaceOffset]
    only. *)
Lemma deserialize_keeps_tail (q : Page.t) (buffer : list byte) :
  let fso :=
    PageHeader.freeSpaceOffset
      (PageHeader.of_bytes (bytes_at buffer 0 PageHeader.sizeof)) in
  Z.of_nat (length buffer) = PAGE_SIZE ->
  0 <= fso <= Page.dataAreaSize ->
  drop (Z.to_nat fso) (Page.data (Page.deserialize q buffer))
  = drop (Z.to_nat fso) (Page.data q).
Proof.
  intros fso Hbuffer Hfso. unfold Page.deserialize. fold fso.
  cbn [Page.data]. unfold memcpy. change (Z.to_nat 0) with 0%nat.
  rewrite take_0, app_nil_l, Z.add_0_l.
  rewrite drop_app_length'; [reflexivity |].
  rewrite length_take, length_drop. int_side.
Qed.

Lemma directory_of_bytes_lookup (n : nat) (bs : list byte) (i : nat) :
  (i < n)%nat ->
  Page.directory_of_bytes n bs !! i
  = Some (Slot.of_bytes (take 12 (drop (12 * i) bs))).
Proof.
  revert bs i. induction n as [| n IH]; intros bs i Hi; [lia |].
  cbn [Page.directory_of_bytes]. destruct i as [| i].
  - reflexivity.
  - cbn [lookup list_lookup]. rewrite IH by lia.
    rewrite drop_drop. do 4 f_equal. lia.
Qed.

(** X7.  [deserialize] of a [PAGE_SIZE] buffer whose header gives
    counts that the source can work with ([0 <= freeSpaceOffset <= D],
    [0 <= numberOfSlots] and [numberOfSlots * sizeof(Slot) <=
    PAGE_SIZE]; on other buffers the source is undefined or throws),
    into any page object: the header is the one decoded from the
    first bytes, [data[0..freeSpaceOffset)] is the buffer's record
    area, every byte of [data] from [freeSpaceOffset] on is left as
    the object had it (nothing is zeroed), and the directory gets
    [numberOfSlots] entries, entry [i] decoded from the [sizeof(Slot)]
    bytes at [PAGE_SIZE - numberOfSlots * sizeof(Slot)
    + i * sizeof(Slot)]. *)
Theorem deserialize_effect (q : Page.t) (buffer : list byte) :
  let h := PageHeader.of_bytes (bytes_at buffer 0 PageHeader.sizeof) in
  let fso := PageHeader.freeSpaceOffset h in
  let n := PageHeader.numberOfSlots h in
  let q' := Page.deserialize q buffer in
  Z.of_nat (length buffer) = PAGE_SIZE ->
  loadable buffer ->
  Page.header q' = h
  /\ bytes_at (Page.data q') 0 fso = bytes_at buffer PageHeader.sizeof fso
  /\ drop (Z.to_nat fso) (Page.data q') = drop (Z.to_nat fso) (Page.data q)
  /\ Z.of_nat (length (Page.slotDirectory q')) = n
  /\ forall i : nat,
       Z.of_nat i < n ->
       Page.slotDirectory q' !! i
       = Some (Slot.of_bytes
                 (bytes_at buffer
                    (PAGE_SIZE - n * Slot.sizeof + Z.of_nat i * Slot.sizeof)
                    Slot.sizeof)).
Proof.
  intros h fso n q' Hbuffer (Hfso & Hn & Hfit). subst q'.
  fold h in Hfso, Hn, Hfit. fold fso in Hfso. fold n in Hn, Hfit.
  unfold Page.deserialize.
  fold h fso n. cbn [Page.header Page.data Page.slotDirectory].
  assert (Hsrc : fso <= Z.of_nat (length (drop (Z.to_nat PageHeader.sizeof)
                                           buffer)))
    by (rewrite length_drop; int_side).
  assert (Hsize : to_int (to_size_t (to_size_t n * Slot.sizeof))
                  = n * Slot.sizeof).
  { rewrite (to_size_t_id n) by int_side.
    rewrite to_size_t_id by int_side. apply to_int_id. int_side. }
  rewrite Hsize.
  rewrite (to_int_id (PAGE_SIZE - PageHeader.sizeof)) by int_side.
  rewrite (to_int_id (_ - n * Slot.sizeof)) by int_side.
  split; [reflexivity |]. split.
  { rewrite bytes_at_memcpy by lia. reflexivity. }
  split; [now apply deserialize_keeps_tail |].
  split; [rewrite length_directory_of_bytes; lia |].
  intros i Hi. rewrite directory_of_bytes_lookup by lia.
  unfold bytes_at. rewrite drop_drop.
  change (Z.to_nat Slot.sizeof) with 12%nat. do 4 f_equal. int_side.
Qed.

Lemma deserialize_effect_witness :
  let buffer := repeat Byte.x00 (Z.to_nat PAGE_SIZE) in
  drop 0 (Page.data (Page.deserialize page_abg buffer))
  = drop 0 (Page.data page_abg)
  /\ Page.slotDirectory (Page.deserialize page_abg buffer) = [].
Proof.
  intros buffer.
  destruct (deserialize_effect page_abg buffer)
    as (_ & _ & Hkept & Hcount & _);
    [reflexivity | vm_compute; repeat split; congruence |].
  split; [exact Hkept |].
  apply nil_length_inv, Nat2Z.inj. exact Hcount.
Defined.

(** Two pages that store the same records answer [getRecord] alike. *)
Lemma getRecord_same_records (p q : Page.t) (records : list (list byte)) :
  represents p records -> represents q records ->
  forall slotId, Page.getRecord q slotId = Page.getRecord p slotId.
Proof.
  intros Hp Hq slotId.
  pose proof (rep_count _ _ Hp) as Hnp. pose proof (rep_count _ _ Hq) as Hnq.
  destruct (Z.lt_ge_cases slotId 0) as [? | Hlow].
  { now rewrite !out_of_range_getRecord by lia. }
  destruct (Z.le_gt_cases (PageHeader.numberOfSlots (Page.header p)) slotId)
    as [? | Hhigh].
  { now rewrite !out_of_range_getRecord by lia. }
  destruct (getRecord_represents q records slotId Hq) as (r' & Hr' & ->);
    [lia |].
  destruct (getRecord_represents p records slotId Hp) as (r & Hr & ->);
    [lia |].
  congruence.
Qed.

(** The page read back from the image of a page that stores [records]
    stores [records]. *)
Lemma reload_represents (p q : Page.t) (records : list (list byte))
    (buffer : list byte) :
  represents p records ->
  Z.of_nat (length buffer) = PAGE_SIZE ->
  Z.of_nat (length (Page.data q)) = Page.dataAreaSize ->
  represents (Page.deserialize q (Page.serialize p buffer)) records.
Proof.
  intros Hp Hbuffer Hq.
  destruct (serialize_deserialize p q records buffer Hp Hbuffer)
    as (Hheader & Hbytes & Hdir).
  pose proof (represents_counters _ _ Hp) as (Hfso & Hn & Hfit).
  pose proof (deserialize_keeps_tail q (Page.serialize p buffer)) as Hkept.
  cbv zeta in Hkept.
  change (PageHeader.of_bytes
            (bytes_at (Page.serialize p buffer) 0 PageHeader.sizeof))
    with (Page.header (Page.deserialize q (Page.serialize p buffer)))
    in Hkept.
  rewrite Hheader in Hkept.
  specialize (Hkept ltac:(now rewrite (length_serialize p records))
                ltac:(int_side)).
  remember (Page.deserialize q (Page.serialize p buffer)) as q'.
  clear Heqq'.
  destruct Hp as [Hsize Hdirp Hbytesp Hend Hcount Hspace Hne Hid Hlsn].
  split; rewrite ?Hheader.
  - apply (f_equal (@length byte)) in Hkept.
    rewrite !length_drop in Hkept.
    apply (f_equal (@length byte)) in Hbytes.
    unfold bytes_at in Hbytes.
    rewrite !length_take, !length_drop in Hbytes. int_side.
  - now rewrite Hdir.
  - now rewrite Hbytes.
  - exact Hend.
  - exact Hcount.
  - exact Hspace.
  - exact Hne.
  - exact Hid.
  - exact Hlsn.
Qed.

(** X8.  A page written to a buffer and read back stores the same
    records: if [p] stores [records], then [serialize] followed by
    [deserialize] into any page object gives a page that stores
    [records] too, and [getRecord] on it agrees with [getRecord] on
    [p] for every slot id. *)
Theorem reloaded_page_stores_records (p q : Page.t)
    (records : list (list byte)) (buffer : list byte) :
  represents p records ->
  Z.of_nat (length buffer) = PAGE_SIZE ->
  Z.of_nat (length (Page.data q)) = Page.dataAreaSize ->
  let q' := Page.deserialize q (Page.serialize p buffer) in
  represents q' records
  /\ forall slotId, Page.getRecord q' slotId = Page.getRecord p slotId.
Proof.
  intros Hp Hbuffer Hq q'.
  pose proof (reload_represents p q records buffer Hp Hbuffer Hq) as Hq'.
  split; [exact Hq' |].
  now apply (getRecord_same_records p _ records).
Qed.

Lemma reloaded_page_stores_records_witness :
  let buffer := repeat Byte.x00 (Z.to_nat PAGE_SIZE) in
  Page.getRecord (Page.deserialize Page.new (Page.serialize page_abg buffer))
    2
  = Page.getRecord page_abg 2.
Proof.
  intros buffer.
  destruct (reachable_represents _ page_abg_reachable) as [records Hp].
  destruct (reloaded_page_stores_records page_abg Page.new records buffer Hp)
    as [_ Hget]; [reflexivity | reflexivity | apply Hget].
Defined.

(** ** Reading and writing pages of the file *)

(** X9.  Where the two offset computations are exact, for every [int]
    page id: the 64-bit helper [getOffset] always gives
    [pageId * PAGE_SIZE]; the [int] product that [readPage] and
    [writePage] use gives it exactly for
    [-524288 <= pageId < 524288]. *)
Theorem offset_exact_range (pageId : Z) :
  is_int pageId ->
  DiskManager.getOffset pageId = pageId * PAGE_SIZE
  /\ (DiskManager.int_offset pageId = pageId * PAGE_SIZE
      <-> -524288 <= pageId < 524288).
Proof.
  intros Hid. split; [now apply getOffset_exact |].
  unfold DiskManager.int_offset. split.
  - intros Hexact. pose proof (to_int_is_int (pageId * PAGE_SIZE)) as Hfits.
    rewrite Hexact in Hfits. int_side.
  - intros Hsmall. apply to_int_id. int_side.
Qed.

Lemma offset_exact_range_witness :
  DiskManager.getOffset 524288 = 524288 * PAGE_SIZE.
Proof.
  apply (offset_exact_range 524288). vm_compute. split; congruence.
Defined.

Lemma readPage_keeps_disk (dm : DiskManager.t) (pageId : Z) (page : Page.t)
    (env : DiskManager.io) :
  DiskManager.file (fst (fst (DiskManager.readPage dm pageId page env)))
  = DiskManager.file dm
  /\ DiskManager.numPages_
       (fst (fst (DiskManager.readPage dm pageId page env)))
     = DiskManager.numPages_ dm.
Proof.
  unfold DiskManager.readPage.
  destruct (DiskManager.seek_fails dm env _); [now split |].
  destruct (_ || _); now split.
Qed.

Lemma readPage_failure (dm : DiskManager.t) (pageId : Z) (page : Page.t)
    (env : DiskManager.io) :
  snd (DiskManager.readPage dm pageId page env) = false ->
  snd (fst (DiskManager.readPage dm pageId page env)) = page
  /\ DiskManager.stream_failed
       (fst (fst (DiskManager.readPage dm pageId page env))) = true.
Proof.
  unfold DiskManager.readPage.
  destruct (DiskManager.seek_fails dm env _); [now split |].
  destruct (_ || _); [now split | discriminate].
Qed.

(** [readPage] on a stream in good state, when the seek and the
    transfer go through. *)
Lemma readPage_good_stream (dm : DiskManager.t) (pageId : Z) (page : Page.t)
    (env : DiskManager.io) :
  DiskManager.stream_failed dm = false ->
  DiskManager.seek_ok env = true -> DiskManager.transfer_ok env = true ->
  0 <= DiskManager.int_offset pageId ->
  DiskManager.readPage dm pageId page env
  = if DiskManager.int_offset pageId + PAGE_SIZE
       <=? Z.of_nat (length (DiskManager.file dm))
    then (dm,
          Page.deserialize page
            (bytes_at (DiskManager.file dm) (DiskManager.int_offset pageId)
               PAGE_SIZE), true)
    else (DiskManager.with_failure dm, page, false).
Proof.
  intros Hstream Hseek Htransfer Hoff.
  unfold DiskManager.readPage, DiskManager.seek_fails.
  rewrite Hstream, Hseek, Htransfer.
  replace (DiskManager.int_offset pageId <? 0) with false
    by (symmetry; apply Z.ltb_ge; lia).
  cbn [negb orb].
  assert (Hlen :
            Z.of_nat (length (bytes_at (DiskManager.file dm)
                                (DiskManager.int_offset pageId) PAGE_SIZE))
            = Z.min PAGE_SIZE
                (Z.max 0 (Z.of_nat (length (DiskManager.file dm))
                          - DiskManager.int_offset pageId))).
  { unfold bytes_at. rewrite length_take, length_drop.
    unfold PAGE_SIZE. lia. }
  destruct (Z.leb_spec (DiskManager.int_offset pageId + PAGE_SIZE)
              (Z.of_nat (length (DiskManager.file dm)))) as [Hin | Hout].
  - replace (_ =? PAGE_SIZE) with true
      by (symmetry; apply Z.eqb_eq; unfold PAGE_SIZE in *; lia).
    reflexivity.
  - replace (_ =? PAGE_SIZE) with false
      by (symmetry; apply Z.eqb_neq; unfold PAGE_SIZE in *; lia).
    reflexivity.
Qed.

(** X10.  [readPage] on a stream in good state, with a seek and a
    transfer that go through, for [0 <= pageId < 524288], where the
    page at that id, if the file holds it whole, is an image that
    [deserialize] can load: it succeeds exactly when the page lies
    entirely inside the file, and the page object is then the one
    [deserialize] makes of those bytes.  Whenever [readPage] fails
    (for any reason) the page object is left untouched and the stream
    is left in failed state; it never changes the file or
    [numPages]. *)
Theorem readPage_outcome (dm : DiskManager.t) (pageId : Z) (page : Page.t)
    (env : DiskManager.io) :
  let outcome := DiskManager.readPage dm pageId page env in
  let image :=
    bytes_at (DiskManager.file dm) (pageId * PAGE_SIZE) PAGE_SIZE in
  (DiskManager.stream_failed dm = false ->
   DiskManager.seek_ok env = true -> DiskManager.transfer_ok env = true ->
   0 <= pageId < 524288 ->
   ((pageId + 1) * PAGE_SIZE <= Z.of_nat (length (DiskManager.file dm)) ->
    loadable image) ->
   (snd outcome = true
    <-> (pageId + 1) * PAGE_SIZE <= Z.of_nat (length (DiskManager.file dm)))
   /\ (snd outcome = true ->
       snd (fst outcome) = Page.deserialize page image))
  /\ (snd outcome = false ->
      snd (fst outcome) = page
      /\ DiskManager.stream_failed (fst (fst outcome)) = true)
  /\ DiskManager.file (fst (fst outcome)) = DiskManager.file dm
  /\ DiskManager.numPages_ (fst (fst outcome)) = DiskManager.numPages_ dm.
Proof.
  intros outcome image. subst outcome image. split; [| split].
  - intros Hstream Hseek Htransfer Hid _.
    pose proof (int_offset_exact pageId Hid) as Hoff.
    rewrite readPage_good_stream by (assumption || int_side).
    rewrite Hoff.
    destruct (Z.leb_spec (pageId * PAGE_SIZE + PAGE_SIZE)
                (Z.of_nat (length (DiskManager.file dm))));
      cbn [fst snd]; split; try split;
      (lia || discriminate || reflexivity).
  - apply readPage_failure.
  - apply readPage_keeps_disk.
Qed.

Lemma readPage_outcome_witness :
  let env := DiskManager.mk_io true true true [] in
  let dm := fst (DiskManager.allocateNewPage (DiskManager.open []) env) in
  snd (DiskManager.readPage dm 0 page_abg env) = true.
Proof.
  intros env dm.
  destruct (readPage_outcome dm 0 page_abg env) as [Hgood _].
  destruct Hgood as [Hiff _].
  - reflexivity.
  - reflexivity.
  - reflexivity.
  - lia.
  - intros _. vm_compute. repeat split; congruence.
  - apply Hiff. vm_compute. congruence.
Defined.

(** A successful [writePage] leaves the stream as the flush left it. *)
Lemma writePage_success_stream (dm : DiskManager.t) (pageId : Z)
    (page : Page.t) (env : DiskManager.io) :
  snd (DiskManager.writePage dm pageId page env) = true ->
  DiskManager.stream_failed (fst (DiskManager.writePage dm pageId page env))
  = negb (DiskManager.flush_ok env)
  /\ pageId <= DiskManager.numPages_ dm
  /\ DiskManager.file (fst (DiskManager.writePage dm pageId page env))
     = DiskManager.write_at (DiskManager.file dm)
         (DiskManager.int_offset pageId)
         (take (Z.to_nat PAGE_SIZE)
            (Page.serialize page
               (resize (Z.to_nat PAGE_SIZE) Byte.x00
                  (DiskManager.scratch env)))).
Proof.
  unfold DiskManager.writePage.
  destruct (Z.eqb_spec pageId (DiskManager.numPages_ dm)) as [<- | Hne].
  - destruct (DiskManager.seek_fails dm env _); [discriminate |].
    destruct (DiskManager.transfer_ok env); [| discriminate].
    intros _. cbn. repeat split. lia.
  - destruct (Z.ltb_spec pageId (DiskManager.numPages_ dm));
      [| discriminate].
    destruct (DiskManager.seek_fails dm env _); [discriminate |].
    destruct (DiskManager.transfer_ok env); [| discriminate].
    intros _. cbn. repeat split. lia.
Qed.


(** Writing at [offset] changes no byte outside
    [[offset, offset + length bs)]. *)
Lemma bytes_at_write_at_other (contents bs : list byte) (offset a m : Z) :
  0 <= offset -> 0 <= a -> 0 <= m ->
  a + m <= Z.of_nat (length contents) ->
  a + m <= offset \/ offset + Z.of_nat (length bs) <= a ->
  bytes_at (DiskManager.write_at contents offset bs) a m
  = bytes_at contents a m.
Proof.
  intros Hoff Ha Hm Hfit [Hbefore | Hafter];
    unfold bytes_at, DiskManager.write_at.
  - rewrite drop_app_le
      by (rewrite length_take, length_app, repeat_length; lia).
    rewrite take_app_le
      by (rewrite length_drop, length_take, length_app, repeat_length; lia).
    rewrite !take_drop_commute, take_take.
    replace ((Z.to_nat a + Z.to_nat m) `min` Z.to_nat offset)%nat
      with (Z.to_nat a + Z.to_nat m)%nat by lia.
    now rewrite take_app_le by lia.
  - f_equal. rewrite app_assoc.
    rewrite drop_app_ge
      by (rewrite length_app, length_take, length_app, repeat_length; lia).
    rewrite drop_drop. f_equal.
    rewrite length_app, length_take, length_app, repeat_length. lia.
Qed.

(** X11.  Disk roundtrip.  If [writePage(pageId, p)] succeeds for a
    page [p] that stores [records] and its flush goes through, then a
    [readPage(pageId, q)] whose seek and transfer go through succeeds,
    and afterwards [q] has the header of [p], stores [records] and
    answers [getRecord] as [p] does. *)
Theorem writePage_then_readPage (dm : DiskManager.t) (pageId : Z)
    (p q : Page.t) (records : list (list byte))
    (wenv renv : DiskManager.io) :
  represents p records ->
  Z.of_nat (length (Page.data q)) = Page.dataAreaSize ->
  snd (DiskManager.writePage dm pageId p wenv) = true ->
  DiskManager.flush_ok wenv = true ->
  DiskManager.seek_ok renv = true ->
  DiskManager.transfer_ok renv = true ->
  let dm1 := fst (DiskManager.writePage dm pageId p wenv) in
  let outcome := DiskManager.readPage dm1 pageId q renv in
  let q' := snd (fst outcome) in
  snd outcome = true
  /\ Page.header q' = Page.header p
  /\ represents q' records
  /\ forall slotId, Page.getRecord q' slotId = Page.getRecord p slotId.
Proof.
  intros Hp Hq Hwritten Hflush Hseek Htransfer dm1 outcome q'.
  subst q' outcome dm1.
  destruct (writePage_image dm pageId p records wenv Hp Hwritten)
    as [Hoff Himage].
  destruct (writePage_success_stream dm pageId p wenv Hwritten)
    as (Hstream & _ & Hfile).
  rewrite Hflush in Hstream. cbn [negb] in Hstream.
  set (scratch := resize (Z.to_nat PAGE_SIZE) Byte.x00
                    (DiskManager.scratch wenv)) in *.
  assert (Hscratch : Z.of_nat (length scratch) = PAGE_SIZE)
    by (unfold scratch; now rewrite length_resize).
  assert (Hlen : Z.of_nat (length (Page.serialize p scratch)) = PAGE_SIZE)
    by now rewrite (length_serialize p records).
  rewrite readPage_good_stream by assumption.
  replace (_ <=? _) with true.
  2: { symmetry. apply Z.leb_le. rewrite Hfile, length_write_at by lia.
       rewrite length_take. lia. }
  cbn [fst snd]. rewrite Himage.
  pose proof (reload_represents p q records scratch Hp Hscratch Hq) as Hq'.
  destruct (serialize_deserialize p q records scratch Hp Hscratch)
    as (Hheader & _).
  split; [reflexivity |]. split; [assumption |]. split; [assumption |].
  now apply (getRecord_same_records p _ records).
Qed.

Lemma writePage_then_readPage_witness :
  let env := DiskManager.mk_io true true true [] in
  let dm1 := fst (DiskManager.writePage (DiskManager.open []) 0 page_abg env) in
  Page.getRecord (snd (fst (DiskManager.readPage dm1 0 Page.new env))) 1
  = Page.getRecord page_abg 1.
Proof.
  intros env dm1.
  destruct (reachable_represents _ page_abg_reachable) as [records Hp].
  destruct (writePage_then_readPage (DiskManager.open []) 0 page_abg
              Page.new records env env Hp)
    as (_ & _ & _ & Hget); [reflexivity .. |].
  apply Hget.
Defined.

(** X12.  [writePage] touches one page only.  After a successful
    [writePage(pageId, _)] with [0 <= pageId < 524288], every other
    page [j] that lay entirely inside the file holds the bytes it held
    before, and the file has grown exactly to the end of the written
    page if it was shorter. *)
Theorem writePage_isolation (dm : DiskManager.t) (pageId : Z)
    (page : Page.t) (records : list (list byte)) (env : DiskManager.io) :
  represents page records ->
  snd (DiskManager.writePage dm pageId page env) = true ->
  0 <= pageId < 524288 ->
  let file' :=
    DiskManager.file (fst (DiskManager.writePage dm pageId page env)) in
  Z.of_nat (length file')
  = Z.max (Z.of_nat (length (DiskManager.file dm)))
      ((pageId + 1) * PAGE_SIZE)
  /\ forall j,
       0 <= j -> j <> pageId ->
       (j + 1) * PAGE_SIZE <= Z.of_nat (length (DiskManager.file dm)) ->
       bytes_at file' (j * PAGE_SIZE) PAGE_SIZE
       = bytes_at (DiskManager.file dm) (j * PAGE_SIZE) PAGE_SIZE.
Proof.
  intros Hpage Hwritten Hid file'. subst file'.
  destruct (writePage_success_stream dm pageId page env Hwritten)
    as (_ & _ & ->).
  rewrite (int_offset_exact pageId Hid).
  set (scratch := resize (Z.to_nat PAGE_SIZE) Byte.x00
                    (DiskManager.scratch env)).
  assert (Hlen :
            Z.of_nat (length (take (Z.to_nat PAGE_SIZE)
                                (Page.serialize page scratch)))
            = PAGE_SIZE).
  { rewrite length_take, (length_serialize page records);
      unfold scratch; rewrite ?length_resize; try assumption; int_side. }
  split.
  - rewrite length_write_at by int_side. rewrite Hlen. lia.
  - intros j Hj Hne Hin.
    apply bytes_at_write_at_other; int_side.
Qed.

Lemma writePage_isolation_witness :
  let env := DiskManager.mk_io true true true [] in
  let dm1 := fst (DiskManager.allocateNewPage (DiskManager.open []) env) in
  bytes_at
    (DiskManager.file (fst (DiskManager.writePage dm1 1 page_abg env)))
    (0 * PAGE_SIZE) PAGE_SIZE
  = bytes_at (DiskManager.file dm1) (0 * PAGE_SIZE) PAGE_SIZE.
Proof.
  intros env dm1.
  destruct (reachable_represents _ page_abg_reachable) as [records Hp].
  destruct (writePage_isolation dm1 1 page_abg records env Hp)
    as [_ Hother]; [reflexivity | lia |].
  apply (Hother 0); [lia | lia | vm_compute; congruence].
Defined.

(** X13.  Failure is sticky.  [fileStream_] is never cleared, so once
    a [readPage] has failed, or a [writePage] for a page id up to
    [numPages] has failed, every later [readPage], [writePage] and
    [allocateNewPage] on the disk manager fails, whatever the
    environment does. *)
Theorem failure_is_sticky (dm : DiskManager.t) (pageId : Z) (page : Page.t)
    (env : DiskManager.io) :
  (snd (DiskManager.readPage dm pageId page env) = false ->
   refuses_all (fst (fst (DiskManager.readPage dm pageId page env))))
  /\ (pageId <= DiskManager.numPages_ dm ->
      snd (DiskManager.writePage dm pageId page env) = false ->
      refuses_all (fst (DiskManager.writePage dm pageId page env))).
Proof.
  assert (Hfailed :
            forall dm1, DiskManager.stream_failed dm1 = true ->
                        refuses_all dm1).
  { intros dm1 Hstream pageId' page' env'.
    assert (Hread :
              snd (DiskManager.readPage dm1 pageId' page' env') = false).
    { unfold DiskManager.readPage, DiskManager.seek_fails.
      now rewrite Hstream. }
    assert (Hwrite :
              forall id pg,
                snd (DiskManager.writePage dm1 id pg env') = false).
    { intros id pg. unfold DiskManager.writePage, DiskManager.seek_fails.
      rewrite Hstream. cbn [orb].
      destruct (id =? _); [reflexivity |].
      now destruct (id <? _). }
    repeat split; [assumption | apply Hwrite |].
    unfold DiskManager.allocateNewPage.
    specialize (Hwrite (DiskManager.numPages_ dm1)
                  (Page.setPageId Page.new (DiskManager.numPages_ dm1))).
    destruct (DiskManager.writePage dm1 _ _ env') as [dm2 ok].
    cbn [snd] in Hwrite. now rewrite Hwrite. }
  split.
  - intros Hfail. now apply Hfailed, readPage_failure.
  - intros Hid Hfail. apply Hfailed. revert Hfail.
    unfold DiskManager.writePage.
    destruct (Z.eqb_spec pageId (DiskManager.numPages_ dm)) as [-> | Hne].
    + destruct (DiskManager.seek_fails dm env _); [reflexivity |].
      now destruct (DiskManager.transfer_ok env).
    + replace (pageId <? DiskManager.numPages_ dm) with true
        by (symmetry; apply Z.ltb_lt; lia).
      destruct (DiskManager.seek_fails dm env _); [reflexivity |].
      now destruct (DiskManager.transfer_ok env).
Qed.

Lemma failure_is_sticky_witness :
  refuses_all
    (fst (fst (DiskManager.readPage (DiskManager.open []) 0 Page.new
                 (DiskManager.mk_io true true true [])))).
Proof.
  destruct (failure_is_sticky (DiskManager.open []) 0 Page.new
              (DiskManager.mk_io true true true [])) as [Hread _].
  apply Hread. reflexivity.
Defined.

(** The [int] offset of a page id: ids repeat modulo [2^20], and the
    upper half of each period gives a negative offset. *)
Lemma int_offset_wraps (pageId : Z) :
  DiskManager.int_offset pageId
  = if pageId mod 1048576 <? 524288
    then pageId mod 1048576 * PAGE_SIZE
    else pageId mod 1048576 * PAGE_SIZE - 4294967296.
Proof.
  unfold DiskManager.int_offset, to_int, wrap_signed, PAGE_SIZE.
  change (2 ^ (32 - 1)) with 2147483648.
  change (2 ^ 32) with 4294967296.
  pose proof (Z.div_mod pageId 1048576 ltac:(discriminate)) as Hdiv.
  pose proof (Z.mod_pos_bound pageId 1048576 ltac:(reflexivity)) as Hmod.
  set (q := pageId / 1048576) in *. set (r := pageId mod 1048576) in *.
  destruct (Z.ltb_spec r 524288) as [Hlow | Hhigh].
  - rewrite <- (Z.mod_unique_pos (pageId * 4096 + 2147483648) 4294967296 q
                  (r * 4096 + 2147483648)); lia.
  - rewrite <- (Z.mod_unique_pos (pageId * 4096 + 2147483648) 4294967296
                  (q + 1) (r * 4096 - 2147483648)); lia.
Qed.

(** X14.  The pages the constructor counts.  For a file of fewer than
    [524288 * PAGE_SIZE] bytes the constructor sets [numPages] to the
    number of whole pages in the file (a trailing partial page is not
    counted) with the stream in good state.  If those pages are
    images that [deserialize] can load, a [readPage] whose seek and
    transfer go through succeeds exactly for the page ids whose
    remainder modulo [2^20] is below [numPages], and it loads the page
    at that remainder: for [0 <= pageId < 2^20] it succeeds exactly
    for [pageId < numPages], while a page id such as [2^20], whose
    [int] offset wraps around to 0, gives page 0. *)
Theorem open_counts_whole_pages (contents : list byte) (pageId : Z)
    (page : Page.t) (env : DiskManager.io) :
  Z.of_nat (length contents) < 524288 * PAGE_SIZE ->
  DiskManager.seek_ok env = true -> DiskManager.transfer_ok env = true ->
  (forall k,
     0 <= k -> (k + 1) * PAGE_SIZE <= Z.of_nat (length contents) ->
     loadable (bytes_at contents (k * PAGE_SIZE) PAGE_SIZE)) ->
  let dm := DiskManager.open contents in
  let outcome := DiskManager.readPage dm pageId page env in
  DiskManager.getNumberOfPages dm = Z.of_nat (length contents) / PAGE_SIZE
  /\ DiskManager.getNumberOfPages dm * PAGE_SIZE
     <= Z.of_nat (length contents)
     < (DiskManager.getNumberOfPages dm + 1) * PAGE_SIZE
  /\ DiskManager.stream_failed dm = false
  /\ (snd outcome = true
      <-> pageId mod 1048576 < DiskManager.getNumberOfPages dm)
  /\ (0 <= pageId < 1048576 ->
      (snd outcome = true <-> pageId < DiskManager.getNumberOfPages dm))
  /\ (snd outcome = true ->
      snd (fst outcome)
      = Page.deserialize page
          (bytes_at contents (pageId mod 1048576 * PAGE_SIZE) PAGE_SIZE)).
Proof.
  intros Hsmall Hseek Htransfer _ dm outcome. subst outcome dm.
  unfold DiskManager.getNumberOfPages.
  cbn [DiskManager.open DiskManager.numPages_ DiskManager.stream_failed].
  pose proof (Z.div_mod (Z.of_nat (length contents)) PAGE_SIZE
                ltac:(discriminate)) as Hdiv.
  pose proof (Z.mod_pos_bound (Z.of_nat (length contents)) PAGE_SIZE
                ltac:(reflexivity)) as Hmod.
  set (pages := Z.of_nat (length contents) / PAGE_SIZE) in *.
  assert (Hpages : 0 <= pages < 524288) by (unfold PAGE_SIZE in *; lia).
  rewrite to_int_id by int_side.
  split; [reflexivity |]. split; [unfold PAGE_SIZE in *; lia |].
  split; [reflexivity |].
  pose proof (Z.mod_pos_bound pageId 1048576 ltac:(reflexivity)) as Hr.
  pose proof (int_offset_wraps pageId) as Hoff.
  set (r := pageId mod 1048576) in *.
  assert (Hread :
    (snd (DiskManager.readPage (DiskManager.open contents) pageId page env)
     = true <-> r < pages)
    /\ (snd (DiskManager.readPage (DiskManager.open contents) pageId page
               env) = true ->
        snd (fst (DiskManager.readPage (DiskManager.open contents) pageId
                    page env))
        = Page.deserialize page
            (bytes_at contents (r * PAGE_SIZE) PAGE_SIZE))).
  { destruct (Z.ltb_spec r 524288) as [Hlow | Hhigh].
    - rewrite readPage_good_stream
        by (try reflexivity; try assumption; rewrite Hoff;
            unfold PAGE_SIZE; lia).
      rewrite Hoff. cbn [DiskManager.open DiskManager.file].
      destruct (Z.leb_spec (r * PAGE_SIZE + PAGE_SIZE)
                  (Z.of_nat (length contents)));
        cbn [fst snd]; unfold PAGE_SIZE in *; split; try split;
        (lia || discriminate || reflexivity).
    - unfold DiskManager.readPage.
      rewrite seek_fails_negative
        by (rewrite Hoff; unfold PAGE_SIZE; lia).
      cbn [fst snd]. split; [split; [discriminate | lia] | discriminate]. }
  destruct Hread as [Hiff Hpage].
  split; [assumption |]. split; [| assumption].
  intros Hid. replace r with pageId in Hiff; [assumption |].
  unfold r. symmetry. now apply Z.mod_small.
Qed.

Lemma open_counts_whole_pages_witness :
  let dm := DiskManager.open (repeat Byte.x00 5000) in
  let env := DiskManager.mk_io true true true [] in
  DiskManager.getNumberOfPages dm = 1
  /\ (snd (DiskManager.readPage dm 1048576 Page.new env) = true
      <-> 1048576 mod 1048576 < DiskManager.getNumberOfPages dm).
Proof.
  intros dm env.
  destruct (open_counts_whole_pages (repeat Byte.x00 5000) 1048576 Page.new
              env)
    as (Hcount & _ & _ & Hiff & _).
  - vm_compute. reflexivity.
  - reflexivity.
  - reflexivity.
  - intros k Hk Hfit. rewrite repeat_length in Hfit.
    assert (Hzero : k = 0) by (unfold PAGE_SIZE in Hfit; lia).
    subst k. vm_compute. repeat split; congruence.
  - split; [| exact Hiff]. fold dm in Hcount. rewrite Hcount. reflexivity.
Defined.

(** ** The buffer pool's page table *)

Lemma frame_at_set_frame (frames : list BufferPool.Frame) (index j : Z)
    (f f' : BufferPool.Frame) :
  BufferPool.frame_at frames index = Some f ->
  BufferPool.frame_at (BufferPool.set_frame frames index f') j
  = if j =? index then Some f' else BufferPool.frame_at frames j.
Proof.
  unfold BufferPool.frame_at, BufferPool.set_frame.
  destruct (Z.ltb_spec index 0); [discriminate |]. intros Hf.
  apply lookup_lt_Some in Hf.
  destruct (Z.eqb_spec j index) as [-> | Hne].
  - replace (index <? 0) with false by (symmetry; apply Z.ltb_ge; lia).
    now apply list_lookup_insert_eq.
  - destruct (Z.ltb_spec j 0); [reflexivity |].
    apply list_lookup_insert_ne. lia.
Qed.

Lemma lookup_set_frame (frames : list BufferPool.Frame) (index : Z)
    (j : nat) (f f' : BufferPool.Frame) :
  BufferPool.frame_at frames index = Some f ->
  BufferPool.set_frame frames index f' !! j
  = if Z.of_nat j =? index then Some f' else frames !! j.
Proof.
  intros Hf.
  pose proof (frame_at_set_frame frames index (Z.of_nat j) f f' Hf) as Hset.
  unfold BufferPool.frame_at in Hset.
  replace (Z.of_nat j <? 0) with false in Hset
    by (symmetry; apply Z.ltb_ge; lia).
  now rewrite Nat2Z.id in Hset.
Qed.

(** A read that succeeds was for a page id other than [-1]. *)
Lemma readPage_success_id (dm : DiskManager.t) (pageId : Z) (page : Page.t)
    (env : DiskManager.io) :
  snd (DiskManager.readPage dm pageId page env) = true -> pageId <> -1.
Proof.
  unfold DiskManager.readPage. intros Hok ->.
  rewrite seek_fails_negative in Hok; [discriminate |].
  vm_compute. reflexivity.
Qed.

Lemma table_sound_create (poolSize : Z) (clock : nat -> Z) :
  table_sound (BufferPool.create poolSize clock).
Proof. intros pageId index Hentry. cbn in Hentry. discriminate. Qed.

Lemma table_sound_fixPage (bp : BufferPool.t) (dm : DiskManager.t)
    (pageId : Z) (isWrite : bool) (now : Z) (wenv renv : DiskManager.io) :
  indexable bp -> table_sound bp ->
  table_sound
    (fst (fst (BufferPool.fixPage bp dm pageId isWrite now wenv renv))).
Proof.
  intros Hfit Hsound. unfold BufferPool.fixPage.
  destruct (BufferPool.pageTable_ bp !! pageId) as [index |] eqn:Hhit.
  - destruct (BufferPool.frame_at (BufferPool.frames_ bp) index)
      as [f |] eqn:Hf; [| exact Hsound].
    cbn [fst]. intros id idx Hentry.
    cbn [BufferPool.pageTable_ BufferPool.frames_] in *.
    destruct (Hsound id idx Hentry) as (Hreal & g & Hg & Hid).
    split; [assumption |].
    rewrite (frame_at_set_frame _ _ _ f) by assumption.
    destruct (Z.eqb_spec idx index) as [-> | _]; [| eauto].
    rewrite Hf in Hg. injection Hg as <-. eauto.
  - destruct (BufferPool.find_if _ _) as [i |] eqn:Hempty.
    + destruct (find_if_Some _ _ _ Hempty) as (f & Hf & Hpred).
      destruct (frame_index_exact bp i f Hfit Hf) as [Hindex Hframe].
      rewrite Hindex, Hframe.
      destruct (DiskManager.readPage dm pageId (BufferPool.page f) renv)
        as [[dm' page'] ok] eqn:Hread.
      destruct ok; cbn [negb fst]; [| exact Hsound].
      intros id idx Hentry.
      cbn [BufferPool.pageTable_ BufferPool.frames_] in *.
      rewrite (frame_at_set_frame _ _ _ f) by assumption.
      apply lookup_insert_Some in Hentry as [[<- <-] | [Hother Hentry]].
      * split; [| rewrite Z.eqb_refl; eauto].
        apply (readPage_success_id dm pageId (BufferPool.page f) renv).
        now rewrite Hread.
      * destruct (Hsound id idx Hentry) as (Hreal & g & Hg & Hid).
        split; [assumption |].
        destruct (Z.eqb_spec idx (Z.of_nat i)) as [-> | _]; [| eauto].
        rewrite Hframe in Hg. injection Hg as <-.
        unfold BufferPool.is_empty_frame in Hpred.
        apply andb_prop in Hpred as [_ Hnone]. apply Z.eqb_eq in Hnone.
        congruence.
    + destruct (Z.eqb_spec (BufferPool.findVictim bp) (-1)) as [| Hvictim];
        [exact Hsound |].
      destruct (BufferPool.frame_at _ (BufferPool.findVictim bp))
        as [f |] eqn:Hframe; [| exact Hsound].
      destruct (DiskManager.readPage _ pageId (BufferPool.page f) renv)
        as [[dm2 page'] ok] eqn:Hread.
      destruct ok; cbn [negb fst]; intros id idx Hentry;
        cbn [BufferPool.pageTable_ BufferPool.frames_] in *.
      * rewrite (frame_at_set_frame _ _ _ f) by assumption.
        apply lookup_insert_Some in Hentry as [[<- <-] | [Hother Hentry]].
        -- split; [| rewrite Z.eqb_refl; eauto].
           eapply readPage_success_id. now erewrite Hread.
        -- apply lookup_delete_Some in Hentry as [Hkept Hentry].
           destruct (Hsound id idx Hentry) as (Hreal & g & Hg & Hid).
           split; [assumption |].
           destruct (Z.eqb_spec idx (BufferPool.findVictim bp))
             as [-> | _]; [| eauto].
           rewrite Hframe in Hg. injection Hg as <-. congruence.
      * apply lookup_delete_Some in Hentry as [_ Hentry].
        now apply Hsound.
Qed.

Lemma table_sound_unfixPage (bp : BufferPool.t) (pg : Page.t)
    (markDirty : bool) (now : Z) :
  table_sound bp -> table_sound (BufferPool.unfixPage bp pg markDirty now).
Proof.
  intros Hsound. unfold BufferPool.unfixPage.
  destruct (BufferPool.pageTable_ bp !! Page.getPageId pg) as [index |];
    [| exact Hsound].
  destruct (BufferPool.frame_at (BufferPool.frames_ bp) index)
    as [f |] eqn:Hf; [| exact Hsound].
  intros id idx Hentry.
  cbn [BufferPool.pageTable_ BufferPool.frames_] in *.
  destruct (Hsound id idx Hentry) as (Hreal & g & Hg & Hid).
  split; [assumption |].
  rewrite (frame_at_set_frame _ _ _ f) by assumption.
  destruct (Z.eqb_spec idx index) as [-> | _]; [| eauto].
  rewrite Hf in Hg. injection Hg as <-. eauto.
Qed.

(** What the loop of [flushAllPages] does to the frames. *)
Lemma flush_from_frames (frames : list BufferPool.Frame) (i : nat)
    (dm : DiskManager.t) (env_of : nat -> DiskManager.io) :
  fst (BufferPool.flush_from i frames dm env_of) = flushed <$> frames.
Proof.
  revert i dm. induction frames as [| f frames IH]; intros i dm;
    [reflexivity |].
  cbn [BufferPool.flush_from fmap list_fmap]. unfold flushed at 1.
  destruct (BufferPool.needs_flush f).
  - specialize (IH (S i)
                  (fst (DiskManager.writePage dm
                          (Page.getPageId (BufferPool.page f))
                          (BufferPool.page f) (env_of i)))).
    destruct (BufferPool.flush_from _ _ _ _) as [rest' dm2].
    cbn [fst] in *. now rewrite IH.
  - specialize (IH (S i) dm).
    destruct (BufferPool.flush_from _ _ _ _) as [rest' dm2].
    cbn [fst] in *. now rewrite IH.
Qed.

Lemma flushAllPages_pool (bp : BufferPool.t) (dm : DiskManager.t)
    (env_of : nat -> DiskManager.io) :
  fst (BufferPool.flushAllPages bp dm env_of)
  = {| BufferPool.poolSize_ := BufferPool.poolSize_ bp;
       BufferPool.frames_ := flushed <$> BufferPool.frames_ bp;
       BufferPool.pageTable_ := BufferPool.pageTable_ bp |}.
Proof.
  unfold BufferPool.flushAllPages.
  pose proof (flush_from_frames (BufferPool.frames_ bp) 0 dm env_of) as Hfr.
  destruct (BufferPool.flush_from _ _ _ _) as [frames' dm'].
  cbn [fst] in *. now rewrite Hfr.
Qed.

Lemma page_flushed (f : BufferPool.Frame) :
  BufferPool.page (flushed f) = BufferPool.page f
  /\ BufferPool.pinCount (flushed f) = BufferPool.pinCount f
  /\ BufferPool.lastAccessTime (flushed f) = BufferPool.lastAccessTime f.
Proof. unfold flushed. now destruct (BufferPool.needs_flush f). Qed.

Lemma table_sound_flushAllPages (bp : BufferPool.t) (dm : DiskManager.t)
    (env_of : nat -> DiskManager.io) :
  table_sound bp -> table_sound (fst (BufferPool.flushAllPages bp dm env_of)).
Proof.
  intros Hsound id idx Hentry. rewrite flushAllPages_pool in *.
  cbn [BufferPool.pageTable_ BufferPool.frames_] in *.
  destruct (Hsound id idx Hentry) as (Hreal & g & Hg & Hid).
  split; [assumption |]. exists (flushed g).
  split; [| now destruct (page_flushed g) as [-> _]].
  unfold BufferPool.frame_at in *. destruct (idx <? 0); [discriminate |].
  now rewrite list_lookup_fmap, Hg.
Qed.

(** X15 (the page table stays sound).  A pool is sound when every
    entry [pageId -> index] of its page table names a frame that
    exists and holds the page with that id, and no entry is for the id
    [-1] of an empty page.  A pool as constructed is sound, and
    [fixPage] (hit, load into an empty frame, eviction, with any I/O
    outcome), [unfixPage] and [flushAllPages] each take a sound pool
    whose frame count fits an [int] to a sound pool. *)
Theorem page_table_sound (bp : BufferPool.t) (dm : DiskManager.t) :
  indexable bp -> table_sound bp ->
  (forall poolSize clock, table_sound (BufferPool.create poolSize clock))
  /\ (forall pageId isWrite now wenv renv,
        table_sound
          (fst (fst (BufferPool.fixPage bp dm pageId isWrite now wenv renv))))
  /\ (forall pg markDirty now,
        table_sound (BufferPool.unfixPage bp pg markDirty now))
  /\ (forall env_of,
        table_sound (fst (BufferPool.flushAllPages bp dm env_of))).
Proof.
  intros Hfit Hsound. split; [| split; [| split]].
  - apply table_sound_create.
  - intros. now apply table_sound_fixPage.
  - intros. now apply table_sound_unfixPage.
  - intros. now apply table_sound_flushAllPages.
Qed.

Lemma page_table_sound_witness :
  let env := DiskManager.mk_io true true true [] in
  let bp := BufferPool.create 2 (fun _ => 0) in
  let dm := fst (DiskManager.allocateNewPage (DiskManager.open []) env) in
  table_sound (fst (fst (BufferPool.fixPage bp dm 0 true 1 env env))).
Proof.
  intros env bp dm.
  destruct (page_table_sound bp dm) as (_ & Hfix & _).
  - vm_compute. congruence.
  - intros pageId index Hentry. cbn in Hentry. discriminate.
  - apply Hfix.
Defined.

Lemma frame_at_elem_of (frames : list BufferPool.Frame) (index : Z)
    (f : BufferPool.Frame) :
  BufferPool.frame_at frames index = Some f -> f ∈ frames.
Proof.
  unfold BufferPool.frame_at. destruct (index <? 0); [discriminate |].
  apply list_elem_of_lookup_2.
Qed.

(** X16 (what a successful [fixPage] returns).  On a sound pool whose
    pin counts are counts, a [fixPage(pageId, isWrite)] that returns a
    page returns the page of a frame that the page table lists under
    [pageId]; that frame holds the page with id [pageId], which is not
    [-1], is pinned, carries the time of the call, and is dirty when
    [isWrite] is set. *)
Theorem fixPage_returns_requested (bp : BufferPool.t) (dm : DiskManager.t)
    (pageId : Z) (isWrite : bool) (now : Z) (wenv renv : DiskManager.io)
    (index : Z) :
  indexable bp -> table_sound bp -> pins_in_range bp ->
  let outcome := BufferPool.fixPage bp dm pageId isWrite now wenv renv in
  let bp' := fst (fst outcome) in
  snd outcome = Some index ->
  BufferPool.pageTable_ bp' !! pageId = Some index
  /\ pageId <> -1
  /\ exists f,
       BufferPool.frame_at (BufferPool.frames_ bp') index = Some f
       /\ Page.getPageId (BufferPool.page f) = pageId
       /\ 0 < BufferPool.pinCount f
       /\ BufferPool.lastAccessTime f = now
       /\ (isWrite = true -> BufferPool.isDirty f = true).
Proof.
  intros Hfit Hsound Hpins outcome bp'. subst bp' outcome.
  unfold BufferPool.fixPage.
  destruct (BufferPool.pageTable_ bp !! pageId) as [index0 |] eqn:Hhit.
  - destruct (Hsound _ _ Hhit) as (Hreal & f & Hf & Hid). rewrite Hf.
    cbn [fst snd BufferPool.pageTable_ BufferPool.frames_].
    intros [= <-]. split; [assumption |]. split; [assumption |].
    rewrite (frame_at_set_frame _ _ _ f) by assumption.
    rewrite Z.eqb_refl. eexists. split; [reflexivity |].
    cbn [BufferPool.page BufferPool.pinCount BufferPool.lastAccessTime
         BufferPool.isDirty].
    apply frame_at_elem_of, Hpins in Hf.
    rewrite to_int_id by int_side.
    split; [assumption |]. split; [lia |]. split; [reflexivity |].
    now intros ->.
  - destruct (BufferPool.find_if _ _) as [i |] eqn:Hempty.
    + destruct (find_if_Some _ _ _ Hempty) as (f & Hf & Hpred).
      destruct (frame_index_exact bp i f Hfit Hf) as [Hindex Hframe].
      rewrite Hindex, Hframe.
      destruct (DiskManager.readPage dm pageId (BufferPool.page f) renv)
        as [[dm' page'] ok] eqn:Hread.
      destruct ok; cbn [negb fst snd]; [| discriminate].
      intros [= <-]. cbn [BufferPool.pageTable_ BufferPool.frames_].
      split; [apply lookup_insert_eq |].
      split.
      { apply (readPage_success_id dm pageId (BufferPool.page f) renv).
        now rewrite Hread. }
      rewrite (frame_at_set_frame _ _ _ f) by assumption.
      rewrite Z.eqb_refl. eexists. split; [reflexivity |].
      cbn. repeat split; try lia; auto.
    + destruct (Z.eqb_spec (BufferPool.findVictim bp) (-1)) as [| Hvictim];
        [discriminate |].
      destruct (BufferPool.frame_at _ (BufferPool.findVictim bp))
        as [f |] eqn:Hframe; [| discriminate].
      destruct (DiskManager.readPage _ pageId (BufferPool.page f) renv)
        as [[dm2 page'] ok] eqn:Hread.
      destruct ok; cbn [negb fst snd]; [| discriminate].
      intros [= <-]. cbn [BufferPool.pageTable_ BufferPool.frames_].
      split; [apply lookup_insert_eq |].
      split.
      { eapply readPage_success_id. now erewrite Hread. }
      rewrite (frame_at_set_frame _ _ _ f) by assumption.
      rewrite Z.eqb_refl. eexists. split; [reflexivity |].
      cbn. repeat split; try lia; auto.
Qed.

Lemma fixPage_returns_requested_witness :
  let env := DiskManager.mk_io true true true [] in
  let bp := BufferPool.create 2 (fun _ => 0) in
  let dm := fst (DiskManager.allocateNewPage (DiskManager.open []) env) in
  let bp' := fst (fst (BufferPool.fixPage bp dm 0 true 1 env env)) in
  BufferPool.pageTable_ bp' !! 0 = Some 0
  /\ BufferPool.isDirty <$> BufferPool.frames_ bp' !! 0%nat = Some true.
Proof.
  intros env bp dm bp'.
  destruct (fixPage_returns_requested bp dm 0 true 1 env env 0)
    as (Htable & _ & f & Hf & _ & _ & _ & Hdirty).
  - vm_compute. congruence.
  - intros pageId index Hentry. cbn in Hentry. discriminate.
  - intros f Hf. cbn in Hf.
    repeat (apply elem_of_cons in Hf as [-> | Hf]; [cbn; int_side |]).
    now apply elem_of_nil in Hf.
  - reflexivity.
  - split; [exact Htable |].
    unfold BufferPool.frame_at in Hf. change (0 <? 0) with false in Hf.
    change (Z.to_nat 0) with 0%nat in Hf. cbv iota in Hf.
    subst bp'. rewrite Hf. cbn. now rewrite Hdirty.
Defined.

(** X17 (pinned pages stay put).  Whatever [fixPage] does (hit, load,
    eviction, failure), a frame with [pinCount != 0] keeps its page,
    and unless it is the frame whose page the call returns it is left
    exactly as it was: pinned frames are never evicted or
    overwritten. *)
Theorem fixPage_keeps_pinned (bp : BufferPool.t) (dm : DiskManager.t)
    (pageId : Z) (isWrite : bool) (now : Z) (wenv renv : DiskManager.io)
    (j : nat) (f : BufferPool.Frame) :
  indexable bp ->
  BufferPool.frames_ bp !! j = Some f ->
  BufferPool.pinCount f <> 0 ->
  let outcome := BufferPool.fixPage bp dm pageId isWrite now wenv renv in
  exists f',
    BufferPool.frames_ (fst (fst outcome)) !! j = Some f'
    /\ BufferPool.page f' = BufferPool.page f
    /\ (snd outcome <> Some (Z.of_nat j) -> f' = f).
Proof.
  intros Hfit Hf Hpinned outcome. subst outcome.
  unfold BufferPool.fixPage.
  destruct (BufferPool.pageTable_ bp !! pageId) as [index |] eqn:Hhit.
  - destruct (BufferPool.frame_at (BufferPool.frames_ bp) index)
      as [g |] eqn:Hg; [| now exists f].
    cbn [fst snd BufferPool.frames_].
    rewrite (lookup_set_frame _ _ _ g) by assumption.
    destruct (Z.eqb_spec (Z.of_nat j) index) as [<- | _]; [| now exists f].
    eexists. split; [reflexivity |].
    unfold BufferPool.frame_at in Hg.
    replace (Z.of_nat j <? 0) with false in Hg
      by (symmetry; apply Z.ltb_ge; lia).
    rewrite Nat2Z.id, Hf in Hg. injection Hg as <-.
    split; [reflexivity | congruence].
  - destruct (BufferPool.find_if _ _) as [i |] eqn:Hempty.
    + destruct (find_if_Some _ _ _ Hempty) as (g & Hg & Hpred).
      destruct (frame_index_exact bp i g Hfit Hg) as [Hindex Hframe].
      rewrite Hindex, Hframe.
      destruct (DiskManager.readPage dm pageId (BufferPool.page g) renv)
        as [[dm' page'] ok].
      destruct ok; cbn [negb fst snd BufferPool.frames_];
        [| now exists f].
      rewrite (lookup_set_frame _ _ _ g) by assumption.
      destruct (Z.eqb_spec (Z.of_nat j) (Z.of_nat i)) as [Hji | _];
        [| now exists f].
      apply Nat2Z.inj in Hji as ->. rewrite Hg in Hf. injection Hf as <-.
      unfold BufferPool.is_empty_frame in Hpred.
      apply andb_prop in Hpred as [Hfree _]. apply Z.eqb_eq in Hfree.
      contradiction.
    + destruct (Z.eqb_spec (BufferPool.findVictim bp) (-1)) as [| Hvictim];
        [now exists f |].
      destruct (findVictim_spec bp Hfit) as [[Hnone _] | [v Hv]];
        [contradiction |].
      destruct (lru_unpinned_frame_at _ _ _ Hv) as [_ Hframe].
      destruct Hv as (Hpos & Hlookup & Hunpinned & _).
      rewrite Hframe.
      destruct (DiskManager.readPage _ pageId (BufferPool.page v) renv)
        as [[dm2 page'] ok].
      destruct ok; cbn [negb fst snd BufferPool.frames_];
        [| now exists f].
      rewrite (lookup_set_frame _ _ _ v) by assumption.
      destruct (Z.eqb_spec (Z.of_nat j) (BufferPool.findVictim bp))
        as [Hjv | _]; [| now exists f].
      rewrite <- Hjv, Nat2Z.id, Hf in Hlookup. injection Hlookup as <-.
      contradiction.
Qed.

Lemma fixPage_keeps_pinned_witness :
  let frame (id pins time : Z) :=
    {| BufferPool.page := Page.setPageId Page.new id;
       BufferPool.pinCount := pins;
       BufferPool.isDirty := false;
       BufferPool.lastAccessTime := time |} in
  let bp :=
    {| BufferPool.poolSize_ := 2;
       BufferPool.frames_ := [frame 1 1 0; frame 2 0 7];
       BufferPool.pageTable_ := {[ 1 := 0; 2 := 1 ]} |} in
  let env := DiskManager.mk_io true true true [] in
  let dm := fst (DiskManager.allocateNewPage (DiskManager.open []) env) in
  BufferPool.frames_ (fst (fst (BufferPool.fixPage bp dm 0 false 9 env env)))
    !! 0%nat
  = Some (frame 1 1 0).
Proof.
  intros frame bp env dm.
  destruct (fixPage_keeps_pinned bp dm 0 false 9 env env 0 (frame 1 1 0))
    as (f' & Hf' & _ & Hsame).
  - vm_compute. congruence.
  - reflexivity.
  - cbn. lia.
  - rewrite Hf'. f_equal. apply Hsame. vm_compute. congruence.
Defined.

(** X18 (a cache hit, and [fixPage] followed by [unfixPage]).  When
    the page table lists [pageId] at a frame that holds that page,
    [fixPage] returns that frame's page without touching the disk
    manager and without changing the page table, the frame's page or
    any other frame: it adds one pin, takes the time of the call, and
    sets the dirty flag when [isWrite] is set.  The [unfixPage] of the
    returned page that follows takes the pin back: the frame has its
    old pin count and page, is dirty when it was dirty or either call
    asked for it, and carries the time of the [unfixPage]; the rest of
    the pool is as before the [fixPage]. *)
Theorem fixPage_hit_then_unfixPage (bp : BufferPool.t) (dm : DiskManager.t)
    (pageId : Z) (isWrite markDirty : bool) (now now' : Z)
    (wenv renv : DiskManager.io) (index : Z) (f : BufferPool.Frame) :
  BufferPool.pageTable_ bp !! pageId = Some index ->
  BufferPool.frame_at (BufferPool.frames_ bp) index = Some f ->
  Page.getPageId (BufferPool.page f) = pageId ->
  0 <= BufferPool.pinCount f < INT_MAX ->
  let outcome := BufferPool.fixPage bp dm pageId isWrite now wenv renv in
  let bp1 := fst (fst outcome) in
  let bp2 := BufferPool.unfixPage bp1 (BufferPool.page f) markDirty now' in
  (snd outcome = Some index /\ snd (fst outcome) = dm)
  /\ (BufferPool.pageTable_ bp1 = BufferPool.pageTable_ bp
      /\ BufferPool.frame_at (BufferPool.frames_ bp1) index
         = Some {| BufferPool.page := BufferPool.page f;
                   BufferPool.pinCount := BufferPool.pinCount f + 1;
                   BufferPool.isDirty := isWrite || BufferPool.isDirty f;
                   BufferPool.lastAccessTime := now |})
  /\ (BufferPool.pageTable_ bp2 = BufferPool.pageTable_ bp
      /\ BufferPool.frame_at (BufferPool.frames_ bp2) index
         = Some {| BufferPool.page := BufferPool.page f;
                   BufferPool.pinCount := BufferPool.pinCount f;
                   BufferPool.isDirty :=
                     isWrite || markDirty || BufferPool.isDirty f;
                   BufferPool.lastAccessTime := now' |})
  /\ forall j : nat,
       Z.of_nat j <> index ->
       BufferPool.frames_ bp1 !! j = BufferPool.frames_ bp !! j
       /\ BufferPool.frames_ bp2 !! j = BufferPool.frames_ bp !! j.
Proof.
  intros Hhit Hf Hid Hpins outcome bp1 bp2.
  assert (Hfix : outcome
                 = ({| BufferPool.poolSize_ := BufferPool.poolSize_ bp;
                       BufferPool.frames_ :=
                         BufferPool.set_frame (BufferPool.frames_ bp) index
                           {| BufferPool.page := BufferPool.page f;
                              BufferPool.pinCount :=
                                BufferPool.pinCount f + 1;
                              BufferPool.isDirty :=
                                isWrite || BufferPool.isDirty f;
                              BufferPool.lastAccessTime := now |};
                       BufferPool.pageTable_ := BufferPool.pageTable_ bp |},
                    dm, Some index)).
  { subst outcome. unfold BufferPool.fixPage. rewrite Hhit, Hf.
    rewrite to_int_id by int_side. now destruct isWrite. }
  assert (Hstill :
    BufferPool.frame_at
      (BufferPool.set_frame (BufferPool.frames_ bp) index
         {| BufferPool.page := BufferPool.page f;
            BufferPool.pinCount := BufferPool.pinCount f + 1;
            BufferPool.isDirty := isWrite || BufferPool.isDirty f;
            BufferPool.lastAccessTime := now |}) index
    = Some {| BufferPool.page := BufferPool.page f;
              BufferPool.pinCount := BufferPool.pinCount f + 1;
              BufferPool.isDirty := isWrite || BufferPool.isDirty f;
              BufferPool.lastAccessTime := now |})
    by now rewrite (frame_at_set_frame _ _ _ f), Z.eqb_refl.
  subst bp2 bp1. rewrite Hfix. cbn [fst snd].
  unfold BufferPool.unfixPage. rewrite Hid.
  cbn [BufferPool.pageTable_ BufferPool.frames_]. rewrite Hhit, Hstill.
  cbn [BufferPool.pageTable_ BufferPool.frames_ BufferPool.page
       BufferPool.pinCount BufferPool.isDirty].
  split; [now split |]. split; [now split |].
  split; [split; [reflexivity |] |].
  - rewrite (frame_at_set_frame _ _ _ _ _ Hstill), Z.eqb_refl.
    replace (0 <? BufferPool.pinCount f + 1) with true
      by (symmetry; apply Z.ltb_lt; lia).
    rewrite to_int_id by int_side.
    replace (BufferPool.pinCount f + 1 - 1) with (BufferPool.pinCount f)
      by lia.
    now destruct isWrite, markDirty.
  - intros j Hj.
    rewrite (lookup_set_frame _ _ _ _ _ Hstill).
    rewrite (lookup_set_frame _ _ _ f) by assumption.
    destruct (Z.eqb_spec (Z.of_nat j) index); [contradiction | now split].
Qed.

Lemma fixPage_hit_then_unfixPage_witness :
  let env := DiskManager.mk_io true true true [] in
  let bp1 :=
    fst (fst (BufferPool.fixPage pool_one_unpinned (DiskManager.open []) 1
                true 3 env env)) in
  BufferPool.frame_at
    (BufferPool.frames_
       (BufferPool.unfixPage bp1 (Page.setPageId Page.new 1) false 5)) 0
  = Some {| BufferPool.page := Page.setPageId Page.new 1;
            BufferPool.pinCount := 0;
            BufferPool.isDirty := true;
            BufferPool.lastAccessTime := 5 |}.
Proof.
  intros env bp1.
  destruct (fixPage_hit_then_unfixPage pool_one_unpinned (DiskManager.open [])
              1 true false 3 5 env env 0
              {| BufferPool.page := Page.setPageId Page.new 1;
                 BufferPool.pinCount := 0;
                 BufferPool.isDirty := false;
                 BufferPool.lastAccessTime := 0 |})
    as (_ & _ & [_ Hframe] & _); [reflexivity .. | cbn; int_side |].
  exact Hframe.
Defined.

(** ** The buffer pool and the disk *)

Lemma readPage_success_disk (dm : DiskManager.t) (pageId : Z) (page : Page.t)
    (env : DiskManager.io) :
  snd (DiskManager.readPage dm pageId page env) = true ->
  fst (fst (DiskManager.readPage dm pageId page env)) = dm.
Proof.
  unfold DiskManager.readPage.
  destruct (DiskManager.seek_fails dm env _); [discriminate |].
  destruct (_ || _); [discriminate | reflexivity].
Qed.

(** A page image that is in the file is what [readPage] loads. *)
Lemma image_reads_back (dm : DiskManager.t) (pageId : Z) (p q : Page.t)
    (records : list (list byte)) (scratch : list byte)
    (env : DiskManager.io) :
  represents p records ->
  Z.of_nat (length scratch) = PAGE_SIZE ->
  Z.of_nat (length (Page.data q)) = Page.dataAreaSize ->
  DiskManager.stream_failed dm = false ->
  DiskManager.seek_ok env = true -> DiskManager.transfer_ok env = true ->
  0 <= DiskManager.int_offset pageId ->
  bytes_at (DiskManager.file dm) (DiskManager.int_offset pageId) PAGE_SIZE
  = Page.serialize p scratch ->
  DiskManager.readPage dm pageId q env
  = (dm, Page.deserialize q (Page.serialize p scratch), true)
  /\ represents (Page.deserialize q (Page.serialize p scratch)) records.
Proof.
  intros Hp Hscratch Hq Hstream Hseek Htransfer Hoff Himage.
  split; [| now apply reload_represents].
  rewrite readPage_good_stream by assumption.
  assert (Hlen : Z.of_nat (length (Page.serialize p scratch)) = PAGE_SIZE)
    by now rewrite (length_serialize p records).
  rewrite <- Himage in Hlen. unfold bytes_at in Hlen.
  rewrite length_take, length_drop in Hlen.
  replace (_ <=? _) with true
    by (symmetry; apply Z.leb_le; unfold PAGE_SIZE in *; lia).
  now rewrite Himage.
Qed.



(** X20 (a dirty victim is written back before its frame is reused).
    Let [fixPage] miss the page table and find no empty frame, and let
    the victim hold a dirty page [p] with an id other than [-1].  If
    the write-back succeeds, then after the call, whether or not the
    read of the new page succeeded, the file holds the image of [p] at
    the offset of its id, and unless it is the requested page the
    page table no longer lists it.  If moreover the call returned a
    page and the flush of the write-back went through, a later
    [readPage] of the victim's id whose seek and transfer go through
    succeeds and gives a page that answers [getRecord] as [p] did. *)
Theorem dirty_victim_written_back (bp : BufferPool.t) (dm : DiskManager.t)
    (pageId : Z) (isWrite : bool) (now : Z) (wenv renv : DiskManager.io)
    (v : BufferPool.Frame) (records : list (list byte)) :
  indexable bp ->
  BufferPool.pageTable_ bp !! pageId = None ->
  BufferPool.find_if BufferPool.is_empty_frame (BufferPool.frames_ bp)
  = None ->
  lru_unpinned (BufferPool.frames_ bp) (BufferPool.findVictim bp) v ->
  BufferPool.isDirty v = true ->
  let p := BufferPool.page v in
  let victimPageId := Page.getPageId p in
  victimPageId <> -1 ->
  represents p records ->
  snd (DiskManager.writePage dm victimPageId p wenv) = true ->
  let outcome := BufferPool.fixPage bp dm pageId isWrite now wenv renv in
  let dm' := snd (fst outcome) in
  bytes_at (DiskManager.file dm') (DiskManager.int_offset victimPageId)
    PAGE_SIZE
  = Page.serialize p
      (resize (Z.to_nat PAGE_SIZE) Byte.x00 (DiskManager.scratch wenv))
  /\ (victimPageId <> pageId ->
      BufferPool.pageTable_ (fst (fst outcome)) !! victimPageId = None)
  /\ (snd outcome <> None ->
      DiskManager.flush_ok wenv = true ->
      forall (q : Page.t) (env : DiskManager.io),
        Z.of_nat (length (Page.data q)) = Page.dataAreaSize ->
        DiskManager.seek_ok env = true ->
        DiskManager.transfer_ok env = true ->
        let reread := DiskManager.readPage dm' victimPageId q env in
        snd reread = true
        /\ forall slotId,
             Page.getRecord (snd (fst reread)) slotId
             = Page.getRecord p slotId).
Proof.
  intros Hfit Hmiss Hempty Hv Hdirty p victimPageId Hreal Hp Hwritten
    outcome dm'.
  destruct (lru_unpinned_frame_at _ _ _ Hv) as [Hfound Hframe].
  destruct (writePage_image dm victimPageId p records wenv Hp Hwritten)
    as [Hoff Himage].
  destruct (writePage_success_stream dm victimPageId p wenv Hwritten)
    as (Hstream & _ & _).
  set (dm1 := fst (DiskManager.writePage dm victimPageId p wenv)) in *.
  set (scratch := resize (Z.to_nat PAGE_SIZE) Byte.x00
                    (DiskManager.scratch wenv)) in *.
  pose proof (readPage_keeps_disk dm1 pageId p renv) as [Hkept _].
  pose proof (readPage_success_disk dm1 pageId p renv) as Hsame.
  assert (Hfix :
    outcome
    = let '(dm2, page', ok) := DiskManager.readPage dm1 pageId p renv in
      if negb ok
      then ({| BufferPool.poolSize_ := BufferPool.poolSize_ bp;
               BufferPool.frames_ := BufferPool.frames_ bp;
               BufferPool.pageTable_ :=
                 delete victimPageId (BufferPool.pageTable_ bp) |}, dm2, None)
      else ({| BufferPool.poolSize_ := BufferPool.poolSize_ bp;
               BufferPool.frames_ :=
                 BufferPool.set_frame (BufferPool.frames_ bp)
                   (BufferPool.findVictim bp)
                   (BufferPool.loaded page' pageId isWrite now);
               BufferPool.pageTable_ :=
                 <[pageId := BufferPool.findVictim bp]>
                   (delete victimPageId (BufferPool.pageTable_ bp)) |},
            dm2, Some (BufferPool.findVictim bp))).
  { subst outcome. unfold BufferPool.fixPage.
    rewrite Hmiss, Hempty, Hfound, Hframe. fold p victimPageId.
    rewrite Hdirty.
    replace (victimPageId =? -1) with false
      by (symmetry; now apply Z.eqb_neq).
    reflexivity. }
  subst dm'. rewrite Hfix. clear Hfix outcome.
  destruct (DiskManager.readPage dm1 pageId p renv) as [[dm2 page'] ok].
  cbn [fst snd] in Hkept, Hsame.
  assert (Himage' :
    bytes_at (DiskManager.file dm2) (DiskManager.int_offset victimPageId)
      PAGE_SIZE = Page.serialize p scratch) by now rewrite Hkept.
  assert (Hscratch : Z.of_nat (length scratch) = PAGE_SIZE)
    by (unfold scratch; now rewrite length_resize).
  destruct ok; cbn [negb fst snd BufferPool.pageTable_].
  - split; [assumption |]. split.
    + intros Hother. rewrite lookup_insert_ne by congruence.
      apply lookup_delete_eq.
    + intros _ Hflush q env Hq Hseek Htransfer.
      rewrite Hsame in * by reflexivity.
      rewrite Hflush in Hstream. cbn [negb] in Hstream.
      destruct (image_reads_back dm1 victimPageId p q records scratch env)
        as [-> Hq']; try assumption.
      cbn [fst snd]. split; [reflexivity |].
      now apply (getRecord_same_records p _ records).
  - split; [assumption |]. split; [| congruence].
    intros _. apply lookup_delete_eq.
Qed.

Lemma dirty_victim_written_back_witness :
  let env := DiskManager.mk_io true true true [] in
  let dm := fst (DiskManager.allocateNewPage (DiskManager.open []) env) in
  let v :=
    {| BufferPool.page := Page.setPageId page_abg 0;
       BufferPool.pinCount := 0;
       BufferPool.isDirty := true;
       BufferPool.lastAccessTime := 0 |} in
  let bp :=
    {| BufferPool.poolSize_ := 1;
       BufferPool.frames_ := [v];
       BufferPool.pageTable_ := {[ 0 := 0 ]} |} in
  let dm' := snd (fst (BufferPool.fixPage bp dm 1 false 9 env env)) in
  bytes_at (DiskManager.file dm') (DiskManager.int_offset 0) PAGE_SIZE
  = Page.serialize (Page.setPageId page_abg 0)
      (resize (Z.to_nat PAGE_SIZE) Byte.x00 (DiskManager.scratch env)).
Proof.
  intros env dm v bp dm'.
  destruct (reachable_represents _ page_abg_reachable) as [records Hp].
  destruct (dirty_victim_written_back bp dm 1 false 9 env env v records)
    as [Himage _].
  - vm_compute. congruence.
  - reflexivity.
  - reflexivity.
  - unfold lru_unpinned. change (BufferPool.findVictim bp) with 0.
    split; [lia |]. split; [reflexivity |]. split; [reflexivity |].
    intros j f Hf _. destruct j as [| j]; [| destruct j; discriminate].
    injection Hf as <-. right. split; [reflexivity | lia].
  - reflexivity.
  - cbn. lia.
  - apply represents_setPageId; [assumption |].
    vm_compute. split; congruence.
  - reflexivity.
  - exact Himage.
Defined.

(** ** Flushing the pool *)

Lemma needs_flush_flushed (f : BufferPool.Frame) :
  BufferPool.needs_flush (flushed f) = false.
Proof.
  unfold flushed. destruct (BufferPool.needs_flush f) eqn:Hf; [| assumption].
  reflexivity.
Qed.

Lemma flush_from_clean (frames : list BufferPool.Frame) (i : nat)
    (dm : DiskManager.t) (env_of : nat -> DiskManager.io) :
  (forall f, f ∈ frames -> BufferPool.needs_flush f = false) ->
  BufferPool.flush_from i frames dm env_of = (frames, dm).
Proof.
  revert i. induction frames as [| f frames IH]; intros i Hclean;
    [reflexivity |].
  cbn [BufferPool.flush_from].
  rewrite (Hclean f) by apply list_elem_of_here.
  rewrite IH; [reflexivity |].
  intros g Hg. apply Hclean. now apply list_elem_of_further.
Qed.

(** X21 (what [flushAllPages] does to the pool).  [flushAllPages]
    changes no page, pin count, access time, pool size or page-table
    entry.  It clears the dirty flag of exactly the frames that are
    dirty, unpinned and hold a page other than [-1], and it does so
    without looking at the result of [writePage], so also when the
    write failed; a dirty frame that is pinned or holds page [-1]
    stays dirty.  If no frame is dirty, unpinned and in use, it leaves
    the disk manager alone; in particular a second [flushAllPages]
    right after the first changes neither the pool nor the disk
    manager. *)
Theorem flushAllPages_effect (bp : BufferPool.t) (dm : DiskManager.t)
    (env_of : nat -> DiskManager.io) :
  let bp' := fst (BufferPool.flushAllPages bp dm env_of) in
  (BufferPool.poolSize_ bp' = BufferPool.poolSize_ bp
   /\ BufferPool.pageTable_ bp' = BufferPool.pageTable_ bp)
  /\ (forall j : nat,
        match BufferPool.frames_ bp !! j with
        | None => BufferPool.frames_ bp' !! j = None
        | Some f =>
            BufferPool.frames_ bp' !! j
            = Some {| BufferPool.page := BufferPool.page f;
                      BufferPool.pinCount := BufferPool.pinCount f;
                      BufferPool.isDirty :=
                        BufferPool.isDirty f
                        && negb ((BufferPool.pinCount f =? 0)
                                 && negb (Page.getPageId (BufferPool.page f)
                                          =? -1));
                      BufferPool.lastAccessTime :=
                        BufferPool.lastAccessTime f |}
        end)
  /\ ((forall f, f ∈ BufferPool.frames_ bp ->
         BufferPool.needs_flush f = false) ->
      BufferPool.flushAllPages bp dm env_of = (bp, dm))
  /\ forall dm2 env_of2,
       BufferPool.flushAllPages bp' dm2 env_of2 = (bp', dm2).
Proof.
  intros bp'. subst bp'. rewrite flushAllPages_pool.
  cbn [BufferPool.poolSize_ BufferPool.pageTable_ BufferPool.frames_].
  split; [now split |]. split; [| split].
  - intros j. rewrite list_lookup_fmap.
    destruct (BufferPool.frames_ bp !! j) as [f |]; [| reflexivity].
    cbn [fmap option_fmap option_map]. f_equal.
    unfold flushed, BufferPool.needs_flush.
    destruct f as [pg pins dirty time].
    cbn [BufferPool.page BufferPool.pinCount BufferPool.isDirty
         BufferPool.lastAccessTime].
    destruct dirty, (pins =? 0), (Page.getPageId pg =? -1); reflexivity.
  - intros Hclean. unfold BufferPool.flushAllPages.
    rewrite flush_from_clean by assumption. now destruct bp.
  - intros dm2 env_of2. unfold BufferPool.flushAllPages.
    cbn [BufferPool.poolSize_ BufferPool.pageTable_ BufferPool.frames_].
    rewrite flush_from_clean; [reflexivity |].
    intros f Hf. apply list_elem_of_fmap in Hf as (g & -> & _).
    apply needs_flush_flushed.
Qed.

(** A [writePage] over a page that already exists, with the stream in
    good state and a healthy environment. *)
Lemma writePage_in_place (dm : DiskManager.t) (pageId : Z) (page : Page.t)
    (records : list (list byte)) (env : DiskManager.io) :
  represents page records -> healthy env ->
  DiskManager.stream_failed dm = false ->
  0 <= pageId < DiskManager.numPages_ dm ->
  DiskManager.numPages_ dm <= 524288 ->
  DiskManager.numPages_ dm * PAGE_SIZE
  <= Z.of_nat (length (DiskManager.file dm)) ->
  let dm1 := fst (DiskManager.writePage dm pageId page env) in
  DiskManager.stream_failed dm1 = false
  /\ DiskManager.numPages_ dm1 = DiskManager.numPages_ dm
  /\ length (DiskManager.file dm1) = length (DiskManager.file dm)
  /\ bytes_at (DiskManager.file dm1) (pageId * PAGE_SIZE) PAGE_SIZE
     = Page.serialize page
         (resize (Z.to_nat PAGE_SIZE) Byte.x00 (DiskManager.scratch env))
  /\ forall k,
       0 <= k < DiskManager.numPages_ dm -> k <> pageId ->
       bytes_at (DiskManager.file dm1) (k * PAGE_SIZE) PAGE_SIZE
       = bytes_at (DiskManager.file dm) (k * PAGE_SIZE) PAGE_SIZE.
Proof.
  intros Hpage (Hseek & Htransfer & Hflush) Hstream Hid Hcount Hfile dm1.
  assert (Hoff : DiskManager.int_offset pageId = pageId * PAGE_SIZE)
    by (apply int_offset_exact; lia).
  assert (Hwritten : snd (DiskManager.writePage dm pageId page env) = true).
  { unfold DiskManager.writePage, DiskManager.seek_fails.
    replace (pageId =? DiskManager.numPages_ dm) with false
      by (symmetry; apply Z.eqb_neq; lia).
    replace (pageId <? DiskManager.numPages_ dm) with true
      by (symmetry; apply Z.ltb_lt; lia).
    rewrite Hstream, Hseek, Htransfer, Hoff.
    replace (pageId * PAGE_SIZE <? 0) with false
      by (symmetry; apply Z.ltb_ge; unfold PAGE_SIZE; lia).
    reflexivity. }
  destruct (writePage_image dm pageId page records env Hpage Hwritten)
    as [_ Himage].
  destruct (writePage_success_stream dm pageId page env Hwritten)
    as (Hstream1 & _ & Hfile1).
  pose proof (writePage_numPages dm pageId page env) as Hcount1.
  subst dm1. rewrite Hoff in *.
  set (scratch := resize (Z.to_nat PAGE_SIZE) Byte.x00
                    (DiskManager.scratch env)) in *.
  assert (Hscratch : Z.of_nat (length scratch) = PAGE_SIZE)
    by (unfold scratch; now rewrite length_resize).
  assert (Hlen : Z.of_nat (length (take (Z.to_nat PAGE_SIZE)
                                     (Page.serialize page scratch)))
                 = PAGE_SIZE).
  { rewrite length_take, (length_serialize page records) by assumption.
    lia. }
  split; [now rewrite Hstream1, Hflush |].
  split.
  { rewrite Hcount1.
    replace (pageId =? DiskManager.numPages_ dm) with false
      by (symmetry; apply Z.eqb_neq; lia).
    now rewrite andb_false_r. }
  split.
  { apply Nat2Z.inj. rewrite Hfile1, length_write_at, Hlen
      by (unfold PAGE_SIZE; lia).
    unfold PAGE_SIZE in *. lia. }
  split; [assumption |].
  intros k Hk Hother. rewrite Hfile1.
  apply bytes_at_write_at_other; rewrite ?Hlen; unfold PAGE_SIZE in *; lia.
Qed.

Lemma flush_from_durable (env_of : nat -> DiskManager.io)
    (frames : list BufferPool.Frame) :
  (forall k, healthy (env_of k)) ->
  forall (i : nat) (dm : DiskManager.t),
    DiskManager.stream_failed dm = false ->
    DiskManager.numPages_ dm <= 524288 ->
    DiskManager.numPages_ dm * PAGE_SIZE
    <= Z.of_nat (length (DiskManager.file dm)) ->
    (forall f, f ∈ frames -> BufferPool.needs_flush f = true ->
       0 <= Page.getPageId (BufferPool.page f) < DiskManager.numPages_ dm
       /\ exists records, represents (BufferPool.page f) records) ->
    (forall (a b : nat) f g,
       frames !! a = Some f -> frames !! b = Some g -> a <> b ->
       BufferPool.needs_flush f = true -> BufferPool.needs_flush g = true ->
       Page.getPageId (BufferPool.page f)
       <> Page.getPageId (BufferPool.page g)) ->
    let dm' := snd (BufferPool.flush_from i frames dm env_of) in
    (DiskManager.stream_failed dm' = false
     /\ DiskManager.numPages_ dm' = DiskManager.numPages_ dm
     /\ length (DiskManager.file dm') = length (DiskManager.file dm))
    /\ (forall (k : nat) f,
          frames !! k = Some f -> BufferPool.needs_flush f = true ->
          bytes_at (DiskManager.file dm')
            (Page.getPageId (BufferPool.page f) * PAGE_SIZE) PAGE_SIZE
          = Page.serialize (BufferPool.page f)
              (resize (Z.to_nat PAGE_SIZE) Byte.x00
                 (DiskManager.scratch (env_of (i + k)%nat))))
    /\ (forall id,
          0 <= id < DiskManager.numPages_ dm ->
          (forall f, f ∈ frames -> BufferPool.needs_flush f = true ->
             Page.getPageId (BufferPool.page f) <> id) ->
          bytes_at (DiskManager.file dm') (id * PAGE_SIZE) PAGE_SIZE
          = bytes_at (DiskManager.file dm) (id * PAGE_SIZE) PAGE_SIZE).
Proof.
  intros Hhealthy.
  induction frames as [| f frames IH];
    intros i dm Hstream Hcount Hfile Hpages Hdistinct dm'; subst dm'.
  { cbn [BufferPool.flush_from snd]. split; [now split |].
    split; [intros k f Hf; discriminate | reflexivity]. }
  cbn [BufferPool.flush_from].
  assert (Hrest_distinct :
    forall (a b : nat) f0 g,
      frames !! a = Some f0 -> frames !! b = Some g -> a <> b ->
      BufferPool.needs_flush f0 = true -> BufferPool.needs_flush g = true ->
      Page.getPageId (BufferPool.page f0)
      <> Page.getPageId (BufferPool.page g)).
  { intros a b f0 g Ha Hb Hab. apply (Hdistinct (S a) (S b)); auto. }
  destruct (BufferPool.needs_flush f) eqn:Hflush.
  - destruct (Hpages f (list_elem_of_here _ _) Hflush)
      as [Hid [records Hrecords]].
    destruct (writePage_in_place dm (Page.getPageId (BufferPool.page f))
                (BufferPool.page f) records (env_of i) Hrecords
                (Hhealthy i) Hstream Hid Hcount Hfile)
      as (Hstream1 & Hcount1 & Hlen1 & Himage1 & Hothers1).
    set (dm1 := fst (DiskManager.writePage dm _ _ _)) in *.
    specialize (IH (S i) dm1).
    destruct (BufferPool.flush_from (S i) frames dm1 env_of)
      as [rest' dm2].
    cbn [snd] in *.
    destruct IH as ((Hstream2 & Hcount2 & Hlen2) & Himages & Hothers);
      [assumption | lia | lia | | assumption |].
    { intros g Hg Hgf. rewrite Hcount1.
      apply Hpages; [now apply list_elem_of_further | assumption]. }
    split; [repeat split; congruence |]. split.
    + intros [| k] g Hg Hgf.
      * injection Hg as <-. rewrite Nat.add_0_r, <- Himage1.
        apply Hothers; [lia |].
        intros g Hg Hgf'. apply list_elem_of_lookup_1 in Hg as [b Hb].
        apply (Hdistinct (S b) 0%nat g f); auto.
      * rewrite Nat.add_succ_r. now apply (Himages k g).
    + intros id Hid' Hfree. rewrite Hothers.
      * apply Hothers1; [assumption |].
        intros Hsame.
        apply (Hfree f (list_elem_of_here _ _) Hflush). now symmetry.
      * lia.
      * intros g Hg. apply Hfree. now apply list_elem_of_further.
  - specialize (IH (S i) dm).
    destruct (BufferPool.flush_from (S i) frames dm env_of) as [rest' dm2].
    cbn [snd] in *.
    destruct IH as (Hdisk & Himages & Hothers); try assumption.
    { intros g Hg. apply Hpages. now apply list_elem_of_further. }
    split; [assumption |]. split.
    + intros [| k] g Hg Hgf.
      * injection Hg as <-. congruence.
      * rewrite Nat.add_succ_r. now apply (Himages k g).
    + intros id Hid' Hfree. apply Hothers; [assumption |].
      intros g Hg. apply Hfree. now apply list_elem_of_further.
Qed.

(** X22 (what [flushAllPages] leaves on disk).  Let the stream be in
    good state, every write go through, the file hold its [numPages_]
    pages, at most [524288] of them (so that byte offsets fit an
    [int]), and let the frames that are dirty, unpinned and in use
    hold pages of pairwise different ids below [numPages_], each
    storing a list of records.  Then after [flushAllPages] the stream
    is still good, the page count and the file size are unchanged, the
    file holds at the offset of each such frame's page id the image of
    that frame's page, a later [readPage] of that id whose seek and
    transfer go through gives a page that answers [getRecord] as the
    frame's page does, and every other page of the file is as it
    was. *)
Theorem flushAllPages_durable (bp : BufferPool.t) (dm : DiskManager.t)
    (env_of : nat -> DiskManager.io) :
  let frames := BufferPool.frames_ bp in
  (forall k, healthy (env_of k)) ->
  DiskManager.stream_failed dm = false ->
  DiskManager.numPages_ dm <= 524288 ->
  DiskManager.numPages_ dm * PAGE_SIZE
  <= Z.of_nat (length (DiskManager.file dm)) ->
  (forall f, f ∈ frames -> BufferPool.needs_flush f = true ->
     0 <= Page.getPageId (BufferPool.page f) < DiskManager.numPages_ dm
     /\ exists records, represents (BufferPool.page f) records) ->
  (forall (a b : nat) f g,
     frames !! a = Some f -> frames !! b = Some g -> a <> b ->
     BufferPool.needs_flush f = true -> BufferPool.needs_flush g = true ->
     Page.getPageId (BufferPool.page f)
     <> Page.getPageId (BufferPool.page g)) ->
  let dm' := snd (BufferPool.flushAllPages bp dm env_of) in
  (DiskManager.stream_failed dm' = false
   /\ DiskManager.numPages_ dm' = DiskManager.numPages_ dm
   /\ length (DiskManager.file dm') = length (DiskManager.file dm))
  /\ (forall (k : nat) f,
        frames !! k = Some f -> BufferPool.needs_flush f = true ->
        let id := Page.getPageId (BufferPool.page f) in
        bytes_at (DiskManager.file dm') (id * PAGE_SIZE) PAGE_SIZE
        = Page.serialize (BufferPool.page f)
            (resize (Z.to_nat PAGE_SIZE) Byte.x00
               (DiskManager.scratch (env_of k)))
        /\ forall (q : Page.t) (env : DiskManager.io),
             Z.of_nat (length (Page.data q)) = Page.dataAreaSize ->
             DiskManager.seek_ok env = true ->
             DiskManager.transfer_ok env = true ->
             let reread := DiskManager.readPage dm' id q env in
             snd reread = true
             /\ forall slotId,
                  Page.getRecord (snd (fst reread)) slotId
                  = Page.getRecord (BufferPool.page f) slotId)
  /\ (forall id,
        0 <= id < DiskManager.numPages_ dm ->
        (forall f, f ∈ frames -> BufferPool.needs_flush f = true ->
           Page.getPageId (BufferPool.page f) <> id) ->
        bytes_at (DiskManager.file dm') (id * PAGE_SIZE) PAGE_SIZE
        = bytes_at (DiskManager.file dm) (id * PAGE_SIZE) PAGE_SIZE).
Proof.
  intros frames Hhealthy Hstream Hcount Hfile Hpages Hdistinct dm'.
  pose proof (flush_from_durable env_of frames Hhealthy 0 dm Hstream Hcount
                Hfile Hpages Hdistinct) as Hflush.
  cbv zeta in Hflush.
  assert (Hdm' : dm' = snd (BufferPool.flush_from 0 frames dm env_of)).
  { subst dm' frames. unfold BufferPool.flushAllPages.
    now destruct (BufferPool.flush_from _ _ _ _). }
  rewrite <- Hdm' in Hflush. clearbody dm'. clear Hdm'.
  destruct Hflush as ((Hstream' & Hcount' & Hlen') & Himages & Hothers).
  split; [now repeat split |]. split; [| assumption].
  intros k f Hf Hdirty id.
  pose proof (Himages k f Hf Hdirty) as Himage. cbn [Nat.add] in Himage.
  fold id in Himage. split; [assumption |].
  intros q env Hq Hseek Htransfer reread. subst reread.
  destruct (Hpages f (list_elem_of_lookup_2 _ _ _ Hf) Hdirty)
    as [Hid [records Hrecords]]. fold id in Hid.
  assert (Hoff : DiskManager.int_offset id = id * PAGE_SIZE)
    by (apply int_offset_exact; lia).
  destruct (image_reads_back dm' id (BufferPool.page f) q records
              (resize (Z.to_nat PAGE_SIZE) Byte.x00
                 (DiskManager.scratch (env_of k))) env)
    as [-> Hq']; try assumption.
  - now rewrite length_resize.
  - rewrite Hoff. unfold PAGE_SIZE. lia.
  - now rewrite Hoff.
  - cbn [fst snd]. split; [reflexivity |].
    now apply (getRecord_same_records (BufferPool.page f) _ records).
Qed.

Lemma flushAllPages_durable_witness :
  let env := DiskManager.mk_io true true true [] in
  let dm := fst (DiskManager.allocateNewPage (DiskManager.open []) env) in
  let bp :=
    {| BufferPool.poolSize_ := 1;
       BufferPool.frames_ :=
         [ {| BufferPool.page := Page.setPageId page_abg 0;
              BufferPool.pinCount := 0;
              BufferPool.isDirty := true;
              BufferPool.lastAccessTime := 0 |} ];
       BufferPool.pageTable_ := {[ 0 := 0 ]} |} in
  let dm' := snd (BufferPool.flushAllPages bp dm (fun _ => env)) in
  bytes_at (DiskManager.file dm') (0 * PAGE_SIZE) PAGE_SIZE
  = Page.serialize (Page.setPageId page_abg 0)
      (resize (Z.to_nat PAGE_SIZE) Byte.x00 (DiskManager.scratch env)).
Proof.
  intros env dm bp dm'.
  destruct (reachable_represents _ page_abg_reachable) as [records Hp].
  destruct (flushAllPages_durable bp dm (fun _ => env))
    as (_ & Himages & _).
  - intros _. now repeat split.
  - reflexivity.
  - vm_compute. congruence.
  - vm_compute. congruence.
  - intros f Hf _. apply list_elem_of_singleton in Hf as ->.
    split; [vm_compute; split; congruence |]. exists records.
    apply represents_setPageId; [assumption |].
    vm_compute. split; congruence.
  - intros [| a] [| b] f g Hf Hg Hab; try contradiction;
      try (destruct a; discriminate); destruct b; discriminate.
  - destruct (Himages 0%nat
                {| BufferPool.page := Page.setPageId page_abg 0;
                   BufferPool.pinCount := 0;
                   BufferPool.isDirty := true;
                   BufferPool.lastAccessTime := 0 |})
      as [Himage _]; [reflexivity | reflexivity |].
    exact Himage.
Defined.

(** ** Loading pages *)

(** X23 (a new page reads back empty).  If [allocateNewPage] grants a
    page id and the flush of its write goes through, the id is the
    page count before the call, and a [readPage] of that id whose seek
    and transfer go through succeeds and gives a page with that id,
    no slot, the whole data area free, and [-1] from [getRecord] for
    every slot id. *)
Theorem allocateNewPage_then_readPage (dm : DiskManager.t)
    (wenv renv : DiskManager.io) (q : Page.t) :
  is_int (DiskManager.numPages_ dm) ->
  snd (DiskManager.allocateNewPage dm wenv) <> -1 ->
  DiskManager.flush_ok wenv = true ->
  DiskManager.seek_ok renv = true ->
  DiskManager.transfer_ok renv = true ->
  Z.of_nat (length (Page.data q)) = Page.dataAreaSize ->
  let dm1 := fst (DiskManager.allocateNewPage dm wenv) in
  let id := snd (DiskManager.allocateNewPage dm wenv) in
  let reread := DiskManager.readPage dm1 id q renv in
  let q' := snd (fst reread) in
  id = DiskManager.numPages_ dm
  /\ snd reread = true
  /\ Page.getPageId q' = id
  /\ PageHeader.numberOfSlots (Page.header q') = 0
  /\ Page.getFreeSpace q' = Page.dataAreaSize
  /\ forall slotId, Page.getRecord q' slotId = (-1, []).
Proof.
  intros Hint Hgranted Hflush Hseek Htransfer Hq dm1 id reread q'.
  destruct (allocateNewPage_result dm wenv Hint) as (Hdm1 & Hfail & Hok).
  set (newPage := Page.setPageId Page.new (DiskManager.numPages_ dm)) in *.
  destruct (snd (DiskManager.writePage dm (DiskManager.numPages_ dm) newPage
                   wenv)) eqn:Hwritten.
  2: { destruct Hfail as [Hnone _]; [reflexivity | contradiction]. }
  destruct Hok as (Hid & _ & _); [reflexivity |].
  assert (Hnew : represents newPage [])
    by (apply represents_setPageId; [apply represents_new | assumption]).
  destruct (writePage_image dm _ newPage [] wenv Hnew Hwritten)
    as [Hoff Himage].
  destruct (writePage_success_stream dm _ newPage wenv Hwritten)
    as (Hstream & _ & _).
  rewrite Hflush in Hstream. cbn [negb] in Hstream.
  set (scratch := resize (Z.to_nat PAGE_SIZE) Byte.x00
                    (DiskManager.scratch wenv)) in *.
  assert (Hscratch : Z.of_nat (length scratch) = PAGE_SIZE)
    by (unfold scratch; now rewrite length_resize).
  subst q' reread dm1 id. rewrite Hid, Hdm1.
  destruct (image_reads_back _ (DiskManager.numPages_ dm) newPage q []
              scratch renv Hnew Hscratch Hq Hstream Hseek Htransfer Hoff
              Himage) as [-> Hq'].
  cbn [fst snd].
  destruct (serialize_deserialize newPage q [] scratch Hnew Hscratch)
    as (Hheader & _).
  pose proof (rep_count _ _ Hq') as Hcount.
  pose proof (rep_end _ _ Hq') as Hend.
  cbn [length concat] in Hcount, Hend.
  split; [reflexivity |]. split; [reflexivity |].
  split; [unfold Page.getPageId; now rewrite Hheader |].
  split; [assumption |]. split.
  - rewrite getFreeSpace_exact by now apply (represents_counters _ []).
    rewrite Hcount, Hend. lia.
  - intros slotId. apply out_of_range_getRecord. rewrite Hcount. lia.
Qed.

Lemma allocateNewPage_then_readPage_witness :
  let env := DiskManager.mk_io true true true [] in
  let dm1 := fst (DiskManager.allocateNewPage (DiskManager.open []) env) in
  Page.getFreeSpace (snd (fst (DiskManager.readPage dm1 0 page_abg env)))
  = Page.dataAreaSize.
Proof.
  intros env dm1.
  destruct (allocateNewPage_then_readPage (DiskManager.open []) env env
              page_abg) as (_ & _ & _ & _ & Hfree & _).
  - vm_compute. split; congruence.
  - vm_compute. congruence.
  - reflexivity.
  - reflexivity.
  - reflexivity.
  - reflexivity.
  - exact Hfree.
Defined.

(** X24 (a miss loads what is on disk).  Let [fixPage] miss the page
    table on a pool with an unpinned frame and no unpinned frame
    dirty, with the stream in good state and the seek and the
    transfer of the read going through.  If the file holds at the
    offset of [pageId] the image of a page [p] that stores [records],
    the call returns a page, leaves the disk manager as it was, and
    the returned page has id [pageId], stores [records] and answers
    [getRecord] as [p] does. *)
Theorem fixPage_loads_disk_image (bp : BufferPool.t) (dm : DiskManager.t)
    (pageId : Z) (isWrite : bool) (now : Z) (wenv renv : DiskManager.io)
    (p : Page.t) (records : list (list byte)) (scratch : list byte) :
  let frames := BufferPool.frames_ bp in
  indexable bp ->
  BufferPool.pageTable_ bp !! pageId = None ->
  (exists f, f ∈ frames /\ BufferPool.pinCount f = 0) ->
  (forall f, f ∈ frames -> BufferPool.pinCount f = 0 ->
     BufferPool.isDirty f = false) ->
  (forall f, f ∈ frames ->
     Z.of_nat (length (Page.data (BufferPool.page f))) = Page.dataAreaSize) ->
  DiskManager.stream_failed dm = false ->
  DiskManager.seek_ok renv = true ->
  DiskManager.transfer_ok renv = true ->
  0 <= pageId < 524288 ->
  represents p records ->
  Z.of_nat (length scratch) = PAGE_SIZE ->
  bytes_at (DiskManager.file dm) (pageId * PAGE_SIZE) PAGE_SIZE
  = Page.serialize p scratch ->
  let outcome := BufferPool.fixPage bp dm pageId isWrite now wenv renv in
  snd (fst outcome) = dm
  /\ exists index f',
       snd outcome = Some index
       /\ BufferPool.frame_at (BufferPool.frames_ (fst (fst outcome))) index
          = Some f'
       /\ Page.getPageId (BufferPool.page f') = pageId
       /\ represents (BufferPool.page f') records
       /\ forall slotId,
            Page.getRecord (BufferPool.page f') slotId
            = Page.getRecord p slotId.
Proof.
  intros frames Hfit Hmiss (u & Hu & Hfree) Hclean Hsizes Hstream Hseek
    Htransfer Hid Hp Hscratch Himage outcome.
  subst frames outcome.
  assert (Hoff : DiskManager.int_offset pageId = pageId * PAGE_SIZE)
    by now apply int_offset_exact.
  assert (Hload : forall g, g ∈ BufferPool.frames_ bp ->
            DiskManager.readPage dm pageId (BufferPool.page g) renv
            = (dm, Page.deserialize (BufferPool.page g)
                     (Page.serialize p scratch), true)
              /\ represents
                   (Page.setPageId
                      (Page.deserialize (BufferPool.page g)
                         (Page.serialize p scratch)) pageId) records).
  { intros g Hg.
    destruct (image_reads_back dm pageId p (BufferPool.page g) records
                scratch renv) as [Hread Hrep]; try assumption.
    - now apply Hsizes.
    - rewrite Hoff. unfold PAGE_SIZE. lia.
    - now rewrite Hoff.
    - split; [assumption |]. apply represents_setPageId; [assumption |].
      int_side. }
  assert (Hdone : forall (index : Z) (g : BufferPool.Frame)
                    (table : gmap Z Z),
    BufferPool.frame_at (BufferPool.frames_ bp) index = Some g ->
    let bp' :=
      {| BufferPool.poolSize_ := BufferPool.poolSize_ bp;
         BufferPool.frames_ :=
           BufferPool.set_frame (BufferPool.frames_ bp) index
             (BufferPool.loaded
                (Page.deserialize (BufferPool.page g)
                   (Page.serialize p scratch)) pageId isWrite now);
         BufferPool.pageTable_ := table |} in
    exists index0 f',
      Some index = Some index0
      /\ BufferPool.frame_at (BufferPool.frames_ bp') index0 = Some f'
      /\ Page.getPageId (BufferPool.page f') = pageId
      /\ represents (BufferPool.page f') records
      /\ forall slotId,
           Page.getRecord (BufferPool.page f') slotId
           = Page.getRecord p slotId).
  { intros index g table Hg bp'. subst bp'.
    destruct (Hload g (frame_at_elem_of _ _ _ Hg)) as [_ Hrep].
    exists index. eexists. split; [reflexivity |].
    cbn [BufferPool.frames_].
    rewrite (frame_at_set_frame _ _ _ g), Z.eqb_refl by assumption.
    split; [reflexivity |]. cbn [BufferPool.loaded BufferPool.page].
    split; [reflexivity |]. split; [assumption |].
    now apply (getRecord_same_records p _ records). }
  unfold BufferPool.fixPage. rewrite Hmiss.
  destruct (BufferPool.find_if _ _) as [i |] eqn:Hempty.
  - destruct (find_if_Some _ _ _ Hempty) as (g & Hg & _).
    destruct (frame_index_exact bp i g Hfit Hg) as [Hindex Hframe].
    rewrite Hindex, Hframe.
    destruct (Hload g (list_elem_of_lookup_2 _ _ _ Hg)) as [-> _].
    cbn [negb fst snd]. split; [reflexivity |]. now apply Hdone.
  - destruct (findVictim_spec bp Hfit) as [[_ Hpinned] | [v Hv]];
      [now apply Hpinned in Hu |].
    destruct (lru_unpinned_frame_at _ _ _ Hv) as [Hfound Hframe].
    destruct Hv as (_ & Hlookup & Hunpinned & _).
    apply list_elem_of_lookup_2 in Hlookup.
    rewrite Hfound, Hframe, (Hclean v Hlookup Hunpinned).
    cbn [andb]. destruct (Hload v Hlookup) as [-> _].
    cbn [negb fst snd]. split; [reflexivity |]. now apply Hdone.
Qed.

Lemma fixPage_loads_disk_image_witness :
  let env := DiskManager.mk_io true true true [] in
  let dm := fst (DiskManager.writePage (DiskManager.open []) 0 page_abg env) in
  let bp := BufferPool.create 1 (fun _ => 0) in
  exists index f',
    snd (BufferPool.fixPage bp dm 0 false 1 env env) = Some index
    /\ BufferPool.frame_at
         (BufferPool.frames_
            (fst (fst (BufferPool.fixPage bp dm 0 false 1 env env)))) index
       = Some f'
    /\ Page.getRecord (BufferPool.page f') 1 = Page.getRecord page_abg 1.
Proof.
  intros env dm bp.
  destruct (reachable_represents _ page_abg_reachable) as [records Hp].
  destruct (writePage_image (DiskManager.open []) 0 page_abg records env Hp)
    as [_ Himage]; [reflexivity |].
  destruct (fixPage_loads_disk_image bp dm 0 false 1 env env page_abg records
              (resize (Z.to_nat PAGE_SIZE) Byte.x00 (DiskManager.scratch env)))
    as (_ & index & f' & Hindex & Hf' & _ & _ & Hget).
  - vm_compute. congruence.
  - reflexivity.
  - eexists. split; [apply list_elem_of_here | reflexivity].
  - intros f Hf _. apply list_elem_of_singleton in Hf as ->. reflexivity.
  - intros f Hf. apply list_elem_of_singleton in Hf as ->. reflexivity.
  - reflexivity.
  - reflexivity.
  - reflexivity.
  - lia.
  - exact Hp.
  - now rewrite length_resize.
  - exact Himage.
  - exists index, f'. split; [exact Hindex |]. split; [exact Hf' |].
    apply Hget.
Defined.

(** X25 (the first [fixPage] on a new pool).  A pool constructed with
    [0 < poolSize] has [poolSize] frames, all empty, unpinned and
    clean, and an empty page table.  The first [fixPage] on it reads
    the page into frame 0: when the read succeeds it returns the page
    of frame 0, pinned once, listed under [pageId] as the only entry
    of the page table, and when the read fails it returns null and
    leaves the pool as constructed. *)
Theorem create_then_fixPage (poolSize : Z) (clock : nat -> Z)
    (dm : DiskManager.t) (pageId : Z) (isWrite : bool) (now : Z)
    (wenv renv : DiskManager.io) :
  0 < poolSize <= INT_MAX ->
  let bp := BufferPool.create poolSize clock in
  let read :=
    DiskManager.readPage dm pageId (Page.setPageId Page.new (-1)) renv in
  (Z.of_nat (length (BufferPool.frames_ bp)) = poolSize
   /\ BufferPool.pageTable_ bp = ∅
   /\ forall f, f ∈ BufferPool.frames_ bp ->
        BufferPool.is_empty_frame f = true
        /\ BufferPool.isDirty f = false)
  /\ BufferPool.fixPage bp dm pageId isWrite now wenv renv
     = if snd read
       then ({| BufferPool.poolSize_ := poolSize;
                BufferPool.frames_ :=
                  <[0%nat := BufferPool.loaded (snd (fst read)) pageId
                               isWrite now]> (BufferPool.frames_ bp);
                BufferPool.pageTable_ := {[ pageId := 0 ]} |},
             fst (fst read), Some 0)
       else (bp, fst (fst read), None).
Proof.
  intros Hsize bp read. subst read bp. split.
  - unfold BufferPool.create. cbn [BufferPool.frames_ BufferPool.pageTable_].
    split; [rewrite length_map, length_seq; lia |].
    split; [reflexivity |].
    intros f Hf. apply list_elem_of_fmap in Hf as (i & -> & _).
    now split.
  - unfold BufferPool.fixPage, BufferPool.create.
    cbn [BufferPool.frames_ BufferPool.pageTable_ BufferPool.poolSize_].
    rewrite lookup_empty.
    destruct (Z.to_nat poolSize) as [| n] eqn:Hn; [lia |].
    cbn [seq map BufferPool.find_if].
    change (BufferPool.is_empty_frame _) with true. cbv iota.
    change (to_int (Z.of_nat 0)) with 0.
    unfold BufferPool.frame_at, BufferPool.set_frame.
    change (0 <? 0) with false. cbv iota.
    change (Z.to_nat 0) with 0%nat.
    cbn [lookup list_lookup BufferPool.page].
    destruct (DiskManager.readPage dm pageId (Page.setPageId Page.new (-1))
                renv) as [[dm' page'] ok].
    now destruct ok.
Qed.

Lemma create_then_fixPage_witness :
  let env := DiskManager.mk_io true true true [] in
  let dm := fst (DiskManager.allocateNewPage (DiskManager.open []) env) in
  snd (BufferPool.fixPage (BufferPool.create 2 (fun _ => 0)) dm 0 false 1
         env env)
  = Some 0.
Proof.
  intros env dm.
  destruct (create_then_fixPage 2 (fun _ => 0) dm 0 false 1 env env)
    as [_ Hfix].
  - vm_compute. split; congruence.
  - rewrite Hfix. reflexivity.
Defined.

(** X26 ([fixPage] loads as [loadPageIntoFrame] does).  When [fixPage]
    misses the page table and finds an empty frame, what it does is
    [loadPageIntoFrame] on that frame, followed on success by setting
    the frame's dirty flag to [isWrite] and listing the frame under
    [pageId] in the page table: the disk manager ends in the same
    state, a failed load leaves the pool untouched in both, and after
    a successful load the frames differ in the dirty flag of that one
    frame only.  [loadPageIntoFrame] itself never changes the page
    table. *)
Theorem fixPage_empty_frame_load (bp : BufferPool.t) (dm : DiskManager.t)
    (pageId : Z) (isWrite : bool) (now : Z) (wenv renv : DiskManager.io)
    (i : nat) :
  indexable bp ->
  BufferPool.pageTable_ bp !! pageId = None ->
  BufferPool.find_if BufferPool.is_empty_frame (BufferPool.frames_ bp)
  = Some i ->
  let index := Z.of_nat i in
  let loading := BufferPool.loadPageIntoFrame bp dm index pageId now renv in
  let bp1 := fst (fst loading) in
  let outcome := BufferPool.fixPage bp dm pageId isWrite now wenv renv in
  let bp' := fst (fst outcome) in
  snd (fst outcome) = snd (fst loading)
  /\ BufferPool.pageTable_ bp1 = BufferPool.pageTable_ bp
  /\ (snd loading = false -> snd outcome = None /\ bp' = bp /\ bp1 = bp)
  /\ (snd loading = true ->
      snd outcome = Some index
      /\ BufferPool.pageTable_ bp'
         = <[pageId := index]> (BufferPool.pageTable_ bp)
      /\ exists f1,
           BufferPool.frames_ bp1 !! i = Some f1
           /\ BufferPool.pinCount f1 = 1
           /\ BufferPool.frames_ bp'
              = <[i := {| BufferPool.page := BufferPool.page f1;
                          BufferPool.pinCount := BufferPool.pinCount f1;
                          BufferPool.isDirty := isWrite;
                          BufferPool.lastAccessTime :=
                            BufferPool.lastAccessTime f1 |}]>
                  (BufferPool.frames_ bp1)).
Proof.
  intros Hfit Hmiss Hempty index loading bp1 outcome bp'.
  subst bp' outcome bp1 loading index.
  destruct (find_if_Some _ _ _ Hempty) as (f & Hf & _).
  destruct (frame_index_exact bp i f Hfit Hf) as [Hindex Hframe].
  unfold BufferPool.fixPage, BufferPool.loadPageIntoFrame.
  rewrite Hmiss, Hempty, Hindex, Hframe.
  destruct (DiskManager.readPage dm pageId (BufferPool.page f) renv)
    as [[dm' page'] ok].
  destruct ok; cbn [negb fst snd BufferPool.pageTable_ BufferPool.frames_].
  - split; [reflexivity |]. split; [reflexivity |].
    split; [discriminate |]. intros _.
    split; [reflexivity |]. split; [reflexivity |].
    unfold BufferPool.set_frame.
    replace (Z.of_nat i <? 0) with false by (symmetry; apply Z.ltb_ge; lia).
    rewrite Nat2Z.id. eexists.
    split; [apply list_lookup_insert_eq; now apply lookup_lt_Some in Hf |].
    split; [reflexivity |].
    now rewrite list_insert_insert_eq.
  - split; [reflexivity |]. split; [reflexivity |].
    split; [| discriminate]. intros _. now repeat split.
Qed.

Lemma fixPage_empty_frame_load_witness :
  let env := DiskManager.mk_io true true true [] in
  let dm := fst (DiskManager.allocateNewPage (DiskManager.open []) env) in
  let bp := BufferPool.create 2 (fun _ => 0) in
  snd (fst (BufferPool.fixPage bp dm 0 true 1 env env))
  = snd (fst (BufferPool.loadPageIntoFrame bp dm 0 0 1 env)).
Proof.
  intros env dm bp.
  destruct (fixPage_empty_frame_load bp dm 0 true 1 env env 0)
    as [Hdisk _].
  - vm_compute. congruence.
  - reflexivity.
  - reflexivity.
  - exact Hdisk.
Defined.

(** ** Limits *)

(** X27 (when a page is full).  On a page that stores [records], the
    free space is the data area less the record bytes and one
    directory entry per record.  An [insertRecord] within its contract
    is refused, with [-1] and the page left as it was, exactly when
    the record bytes, the new record and the directory with one more
    entry exceed the data area; otherwise it returns the number of
    records stored before as the slot id, and the page stores the old
    records followed by the new one. *)
Theorem insertRecord_capacity (p : Page.t) (records : list (list byte))
    (record : list byte) (len : Z) :
  represents p records -> insert_in_contract record len ->
  let used := total records + Z.of_nat (length records) * Slot.sizeof in
  let outcome := Page.insertRecord p record len in
  Page.getFreeSpace p = Page.dataAreaSize - used
  /\ (snd outcome = -1 <-> Page.dataAreaSize < used + len + Slot.sizeof)
  /\ (snd outcome = -1 -> fst outcome = p)
  /\ (snd outcome <> -1 ->
      snd outcome = Z.of_nat (length records)
      /\ represents (fst outcome) (records ++ [take (Z.to_nat len) record])).
Proof.
  intros Hp Hcontract used outcome. subst used outcome.
  assert (Hfree : Page.getFreeSpace p
                  = Page.dataAreaSize
                    - (total records
                       + Z.of_nat (length records) * Slot.sizeof)).
  { rewrite (getFreeSpace_exact _ (represents_counters _ _ Hp)).
    rewrite (rep_end _ _ Hp), (rep_count _ _ Hp). unfold total. lia. }
  split; [assumption |].
  destruct (insertRecord_represents _ _ _ _ Hp Hcontract)
    as [[Hfull ->] | (Hroom & Hid & Hp')]; cbn [fst snd].
  - split; [split; [lia | reflexivity] |].
    split; [reflexivity | contradiction].
  - rewrite Hid. split; [split; lia |]. split; [lia |]. now split.
Qed.

Lemma insertRecord_capacity_witness :
  snd (Page.insertRecord page_abg (repeat Byte.x00 4011) 4011) = -1
  <-> Page.dataAreaSize < 14 + 3 * Slot.sizeof + 4011 + Slot.sizeof.
Proof.
  destruct (reachable_represents _ page_abg_reachable) as [records Hp].
  destruct (insertRecord_capacity page_abg records (repeat Byte.x00 4011)
              4011 Hp) as (Hfree & Hiff & _).
  - unfold insert_in_contract. rewrite repeat_length. int_side.
  - assert (Hused : total records + Z.of_nat (length records) * Slot.sizeof
                    = 14 + 3 * Slot.sizeof).
    { assert (Hspace : Page.getFreeSpace page_abg = 4022)
        by (vm_compute; reflexivity).
      rewrite Hspace in Hfree. unfold Page.dataAreaSize in *.
      int_side. }
    rewrite <- Hused. exact Hiff.
Defined.

(** X28 (a dirty page beyond the end of the file is dropped).  Let
    [fixPage] miss the page table and find no empty frame, and let the
    victim be dirty with a page id greater than [numPages_].  The
    write-back is refused by [writePage] without an error state, and
    [fixPage] does not look at its result: the disk manager ends as
    the read of the new page alone leaves it, with the file and the
    page count unchanged, and when that read succeeds the call
    succeeds, the victim's frame holds the new page, and the victim's
    page is neither in the pool's page table nor in the file. *)
Theorem dirty_victim_beyond_file (bp : BufferPool.t) (dm : DiskManager.t)
    (pageId : Z) (isWrite : bool) (now : Z) (wenv renv : DiskManager.io)
    (v : BufferPool.Frame) :
  indexable bp ->
  BufferPool.pageTable_ bp !! pageId = None ->
  BufferPool.find_if BufferPool.is_empty_frame (BufferPool.frames_ bp)
  = None ->
  lru_unpinned (BufferPool.frames_ bp) (BufferPool.findVictim bp) v ->
  BufferPool.isDirty v = true ->
  let victimPageId := Page.getPageId (BufferPool.page v) in
  DiskManager.numPages_ dm < victimPageId ->
  let outcome := BufferPool.fixPage bp dm pageId isWrite now wenv renv in
  let bp' := fst (fst outcome) in
  let dm' := snd (fst outcome) in
  let read := DiskManager.readPage dm pageId (BufferPool.page v) renv in
  DiskManager.writePage dm victimPageId (BufferPool.page v) wenv
  = (dm, false)
  /\ dm' = fst (fst read)
  /\ DiskManager.file dm' = DiskManager.file dm
  /\ DiskManager.numPages_ dm' = DiskManager.numPages_ dm
  /\ (snd read = true ->
      snd outcome = Some (BufferPool.findVictim bp)
      /\ BufferPool.frame_at (BufferPool.frames_ bp')
           (BufferPool.findVictim bp)
         = Some (BufferPool.loaded (snd (fst read)) pageId isWrite now)
      /\ (victimPageId <> pageId ->
          BufferPool.pageTable_ bp' !! victimPageId = None)).
Proof.
  intros Hfit Hmiss Hempty Hv Hdirty victimPageId Hbeyond outcome bp' dm'
    read.
  destruct (lru_unpinned_frame_at _ _ _ Hv) as [Hfound Hframe].
  assert (Hrefused :
            DiskManager.writePage dm victimPageId (BufferPool.page v) wenv
            = (dm, false)).
  { unfold DiskManager.writePage.
    replace (victimPageId =? DiskManager.numPages_ dm) with false
      by (symmetry; apply Z.eqb_neq; lia).
    replace (victimPageId <? DiskManager.numPages_ dm) with false
      by (symmetry; apply Z.ltb_ge; lia).
    reflexivity. }
  split; [assumption |].
  pose proof (readPage_keeps_disk dm pageId (BufferPool.page v) renv)
    as [Hfile Hcount].
  fold read in Hfile, Hcount.
  assert (Hfix :
    outcome
    = let '(dm2, page', ok) := read in
      if negb ok
      then ({| BufferPool.poolSize_ := BufferPool.poolSize_ bp;
               BufferPool.frames_ := BufferPool.frames_ bp;
               BufferPool.pageTable_ :=
                 delete victimPageId (BufferPool.pageTable_ bp) |}, dm2, None)
      else ({| BufferPool.poolSize_ := BufferPool.poolSize_ bp;
               BufferPool.frames_ :=
                 BufferPool.set_frame (BufferPool.frames_ bp)
                   (BufferPool.findVictim bp)
                   (BufferPool.loaded page' pageId isWrite now);
               BufferPool.pageTable_ :=
                 <[pageId := BufferPool.findVictim bp]>
                   (delete victimPageId (BufferPool.pageTable_ bp)) |},
            dm2, Some (BufferPool.findVictim bp))).
  { subst outcome read. unfold BufferPool.fixPage.
    rewrite Hmiss, Hempty, Hfound, Hframe. fold victimPageId.
    rewrite Hrefused. cbn [fst].
    now destruct (BufferPool.isDirty v && negb (victimPageId =? -1)). }
  subst dm' bp'. rewrite Hfix. clear Hfix outcome.
  destruct read as [[dm2 page'] ok]. cbn [fst snd] in *.
  destruct ok; cbn [negb fst snd BufferPool.pageTable_ BufferPool.frames_].
  - split; [reflexivity |]. split; [assumption |]. split; [assumption |].
    intros _. split; [reflexivity |]. split.
    + now rewrite (frame_at_set_frame _ _ _ v), Z.eqb_refl.
    + intros Hother. rewrite lookup_insert_ne by congruence.
      apply lookup_delete_eq.
  - split; [reflexivity |]. split; [assumption |]. split; [assumption |].
    discriminate.
Qed.

Lemma dirty_victim_beyond_file_witness :
  let env := DiskManager.mk_io true true true [] in
  let dm := fst (DiskManager.allocateNewPage (DiskManager.open []) env) in
  let v :=
    {| BufferPool.page := Page.setPageId page_abg 7;
       BufferPool.pinCount := 0;
       BufferPool.isDirty := true;
       BufferPool.lastAccessTime := 0 |} in
  let bp :=
    {| BufferPool.poolSize_ := 1;
       BufferPool.frames_ := [v];
       BufferPool.pageTable_ := {[ 7 := 0 ]} |} in
  let outcome := BufferPool.fixPage bp dm 0 false 9 env env in
  snd outcome = Some 0
  /\ DiskManager.file (snd (fst outcome)) = DiskManager.file dm
  /\ BufferPool.pageTable_ (fst (fst outcome)) !! 7 = None.
Proof.
  intros env dm v bp outcome.
  destruct (dirty_victim_beyond_file bp dm 0 false 9 env env v)
    as (_ & _ & Hfile & _ & Hdone).
  - vm_compute. congruence.
  - reflexivity.
  - reflexivity.
  - unfold lru_unpinned. change (BufferPool.findVictim bp) with 0.
    split; [lia |]. split; [reflexivity |]. split; [reflexivity |].
    intros j f Hf _. destruct j as [| j]; [| destruct j; discriminate].
    injection Hf as <-. right. split; [reflexivity | lia].
  - reflexivity.
  - vm_compute. reflexivity.
  - destruct Hdone as (Hindex & _ & Hgone); [reflexivity |].
    split; [exact Hindex |]. split; [exact Hfile |].
    apply Hgone. cbn. lia.
Defined.
